(** * txoutproof-graph: partial Merkle tree reconstruction

    A shallow embedding of the Go program (merkle_branch.go and the
    current main.go): the CompactSize reader, the proof decoder
    [decodeTxOutProofData], the iterative tree walk [CreateMerkleBranch],
    the graph builder [BuildGraph] and their caller [buildMerkleTreeDot],
    followed by the properties of these functions.

    Conventions.
    - A Go [byte] is a [Byte.byte]; a [[]byte] or [[32]byte] is a
      [list byte].
    - Go's [int] is taken to be 64 bits wide.  Every index and depth of
      the walk is bounded by the number of flag bits, so no arithmetic of
      the walk wraps; counters that only grow from 0 are [nat], [depth]
      and [height] (which can be negative) are [Z].
    - A [*MerkleNode] is the index of the node in [m.binTree]: every node
      the walk allocates is appended to that slice at once, so the index
      identifies the node; [nil] is [None].
    - A slice of a [[32]byte] has capacity 32, so
      [append(left.Hash, right.Hash...)] copies and no hash shares memory
      that is written later: hashes are values.
    - A Go run-time panic (nil dereference, index out of range) is an
      outcome of its own, distinct from a returned [error]. *)

From Stdlib Require Import ZArith NArith Lia List Bool String Ascii.
From Stdlib.Strings Require Byte.
From Stdlib Require DecimalString.
From stdpp Require Import base tactics option list.

Import ListNotations.

Abbreviation byte := Byte.byte.

Definition byte_to_Z (b : byte) : Z := Z.of_N (Byte.to_N b).

Definition byte_of_Z (z : Z) : byte :=
  match Byte.of_N (Z.to_N (z mod 256)) with
  | Some b => b
  | None => Byte.x00
  end.

(** ** crypto/sha256

    [sha256.Sum256] belongs to Go's standard library; it is SHA-256 as
    FIPS 180-4 defines it, on 32-bit words held in [Z]. *)
Module SHA256.
Local Open Scope Z_scope.

Definition w32 (x : Z) : Z := x mod 2 ^ 32.
Definition add32 (x y : Z) : Z := w32 (x + y).
Definition rotr (n x : Z) : Z :=
  Z.lor (Z.shiftr x n) (w32 (Z.shiftl x (32 - n))).
Definition not32 (x : Z) : Z := Z.lxor x 0xffffffff.

Definition Ch (x y z : Z) : Z := Z.lxor (Z.land x y) (Z.land (not32 x) z).
Definition Maj (x y z : Z) : Z :=
  Z.lxor (Z.lxor (Z.land x y) (Z.land x z)) (Z.land y z).
Definition Sigma0 (x : Z) : Z := Z.lxor (Z.lxor (rotr 2 x) (rotr 13 x)) (rotr 22 x).
Definition Sigma1 (x : Z) : Z := Z.lxor (Z.lxor (rotr 6 x) (rotr 11 x)) (rotr 25 x).
Definition sigma0 (x : Z) : Z := Z.lxor (Z.lxor (rotr 7 x) (rotr 18 x)) (Z.shiftr x 3).
Definition sigma1 (x : Z) : Z := Z.lxor (Z.lxor (rotr 17 x) (rotr 19 x)) (Z.shiftr x 10).

(** The round constants are the first 32 bits of the fractional parts of
    the cube roots of the first 64 primes, the initial hash value those of
    the square roots of the first 8. *)
Definition isPrime (n : nat) : bool :=
  forallb (fun d => negb (n mod d =? 0)%nat) (seq 2 (n - 2)).

Definition primes : list Z :=
  map Z.of_nat (List.filter isPrime (seq 2 310)).

(** The largest [r] below [2 ^ bits] with [r ^ k <= n], bit by bit. *)
Fixpoint root (k : Z) (n : Z) (bits : nat) (r : Z) : Z :=
  match bits with
  | O => r
  | S bits' =>
      let r' := r + 2 ^ Z.of_nat bits' in
      root k n bits' (if (r' ^ k <=? n) then r' else r)
  end.

Definition fraction (k : Z) (p : Z) : Z :=
  w32 (root k (p * 2 ^ (32 * k)) 40 0).

Definition K : list Z := Eval vm_compute in map (fraction 3) primes.

Definition H0 : list Z := Eval vm_compute in map (fraction 2) (firstn 8 primes).

(** Big-endian words. *)
Definition be_word (bs : list byte) : Z :=
  fold_left (fun acc b => acc * 256 + byte_to_Z b) bs 0.

Definition word_be (n : nat) (x : Z) : list byte :=
  map (fun i => byte_of_Z (Z.shiftr x (8 * Z.of_nat i))) (rev (seq 0 n)).

(** The message, one [0x80], zeros up to 56 modulo 64, and the length in
    bits as a 64-bit big-endian word. *)
Definition pad (msg : list byte) : list byte :=
  let len := Z.of_nat (length msg) in
  let zeros := Z.to_nat ((55 - len) mod 64) in
  msg ++ [Byte.x80] ++ repeat Byte.x00 zeros ++ word_be 8 ((len * 8) mod 2 ^ 64).

Fixpoint chunks (fuel : nat) (n : nat) (bs : list byte) : list (list byte) :=
  match fuel with
  | O => []
  | S fuel' =>
      match bs with
      | [] => []
      | _ => firstn n bs :: chunks fuel' n (skipn n bs)
      end
  end.

(** The message schedule: [w] holds the words so far, newest last. *)
Fixpoint schedule (rounds : nat) (w : list Z) : list Z :=
  match rounds with
  | O => w
  | S r =>
      let t := length w in
      let at_ k := nth (t - k) w 0 in
      schedule r (w ++ [add32 (add32 (sigma1 (at_ 2%nat)) (at_ 7%nat))
                               (add32 (sigma0 (at_ 15%nat)) (at_ 16%nat))])
  end.

Definition round (st : list Z) (kw : Z * Z) : list Z :=
  match st with
  | [a; b; c; d; e; f; g; h] =>
      let t1 := add32 (add32 (add32 h (Sigma1 e)) (add32 (Ch e f g) (fst kw))) (snd kw) in
      let t2 := add32 (Sigma0 a) (Maj a b c) in
      [add32 t1 t2; a; b; c; add32 d t1; e; f; g]
  | _ => st
  end.

Definition block (st : list Z) (blk : list byte) : list Z :=
  let w := schedule 48 (map be_word (chunks 16 4 blk)) in
  let st' := fold_left round (combine K w) st in
  map (fun p => add32 (fst p) (snd p)) (combine st st').

Definition Sum256 (data : list byte) : list byte :=
  let p := pad data in
  let st := fold_left block (chunks (length p) 64 p) H0 in
  concat (map (word_be 4) st).

End SHA256.

(** [doubleSha256] computes SHA256(SHA256(data)). *)
Definition doubleSha256 (data : list byte) : list byte :=
  SHA256.Sum256 (SHA256.Sum256 data).

(** Hexadecimal rendering, as [hex.EncodeToString] and the [%x] verb. *)
Definition hex_digit (n : N) : ascii :=
  match n with
  | 0 => "0" | 1 => "1" | 2 => "2" | 3 => "3" | 4 => "4" | 5 => "5"
  | 6 => "6" | 7 => "7" | 8 => "8" | 9 => "9" | 10 => "a" | 11 => "b"
  | 12 => "c" | 13 => "d" | 14 => "e" | _ => "f"
  end%N%char.

Fixpoint EncodeToString (bs : list byte) : string :=
  match bs with
  | [] => EmptyString
  | b :: bs' =>
      String (hex_digit (Byte.to_N b / 16)) (String (hex_digit (Byte.to_N b mod 16)) (EncodeToString bs'))
  end.

Definition bytes_of_string (s : string) : list byte :=
  map (fun c => byte_of_Z (Z.of_N (N_of_ascii c))) (list_ascii_of_string s).

(** ** merkle_branch.go: the tree *)

Record MerkleNode := {
  Hash : option (list byte);
  Parent : option nat;
  Left : option nat;
  Right : option nat;
}.

Definition NewBinTree (parent : option nat) : MerkleNode :=
  {| Hash := None; Parent := parent; Left := None; Right := None |}.

Record MerkleBranch := {
  binTree : list MerkleNode;
  target : option nat;
}.

Definition setHash (h : list byte) (n : MerkleNode) : MerkleNode :=
  {| Hash := Some h; Parent := Parent n; Left := Left n; Right := Right n |}.
Definition setLeft (l : nat) (n : MerkleNode) : MerkleNode :=
  {| Hash := Hash n; Parent := Parent n; Left := Some l; Right := Right n |}.
Definition setRight (r : nat) (n : MerkleNode) : MerkleNode :=
  {| Hash := Hash n; Parent := Parent n; Left := Left n; Right := Some r |}.

(** [update i f m] is an assignment to a field of the node [i] points to;
    [append n m] is [m.binTree = append(m.binTree, n)]. *)
Definition update (i : nat) (f : MerkleNode -> MerkleNode) (m : MerkleBranch) : MerkleBranch :=
  {| binTree := alter f i (binTree m); target := target m |}.
Definition append (n : MerkleNode) (m : MerkleBranch) : MerkleBranch :=
  {| binTree := binTree m ++ [n]; target := target m |}.
Definition setTarget (t : option nat) (m : MerkleBranch) : MerkleBranch :=
  {| binTree := binTree m; target := t |}.

(** The two errors [CreateMerkleBranch] builds with [fmt.Errorf]. *)
Inductive MerkleError :=
| ErrNotFinished
| ErrVBitsTooShort (expected got : nat).

(** Go run-time panics.  [InvalidPointer] is no Go behaviour: it stands
    for an index outside [binTree], which no pointer of the program can
    be, and is never reached (lemma [CreateMerkleBranch_no_invalid]). *)
Inductive Panic :=
| NilDereference
| IndexOutOfRange
| InvalidPointer.

(** The local variables of [CreateMerkleBranch], with its receiver. *)
Record Walk := {
  branch : MerkleBranch;
  current : option nat;
  vbitsIndex : nat;
  hashesIndex : nat;
  depth : Z;
}.

(** How a call leaves the loop: [return root, nil], [return [32]byte{},
    err], or a panic.  The receiver and the local variables as the call
    leaves them come along. *)
Inductive Exit :=
| Return (s : Walk) (root : list byte)
| Fail (s : Walk) (e : MerkleError)
| Panicked (p : Panic).

Definition bindE {A B : Type} (x : Exit + A) (k : A -> Exit + B) : Exit + B :=
  match x with
  | inl e => inl e
  | inr a => k a
  end.

Notation "'let*' x ':=' m 'in' k" := (bindE m (fun x => k))
  (at level 10, x pattern, m at level 100, k at level 200).

Definition withBranch (m : MerkleBranch) (s : Walk) : Walk :=
  {| branch := m; current := current s; vbitsIndex := vbitsIndex s;
     hashesIndex := hashesIndex s; depth := depth s |}.

(** [p.field] for a pointer [p]. *)
Definition deref (m : MerkleBranch) (p : option nat) : Exit + (nat * MerkleNode) :=
  match p with
  | None => inl (Panicked NilDereference)
  | Some i =>
      match binTree m !! i with
      | Some n => inr (i, n)
      | None => inl (Panicked InvalidPointer)
      end
  end.

(** [p.Hash] as bytes, for a pointer that is not nil; a nil slice has no
    bytes. *)
Definition hashBytes (m : MerkleBranch) (p : nat) : Exit + list byte :=
  let* (_, n) := deref m (Some p) in
  inr (default [] (Hash n)).

(** Lines 37-45: all hashes are used.  [p == nil || p.Hash == nil] is
    [hashOrNil = None]. *)
Definition hashOrNil (m : MerkleBranch) (p : option nat) : Exit + option (list byte) :=
  match p with
  | None => inr None
  | Some i => let* (_, n) := deref m (Some i) in inr (Hash n)
  end.

Definition finish (s : Walk) : Exit + Walk :=
  let m := branch s in
  let* (c, n) := deref m (current s) in
  let* lh := hashOrNil m (Left n) in
  match lh with
  | None => inl (Fail s ErrNotFinished)
  | Some lh =>
      let* rh := hashOrNil m (Right n) in
      match rh with
      | None => inl (Fail s ErrNotFinished)
      | Some rh =>
          let root := doubleSha256 (lh ++ rh) in
          inl (Return (withBranch (update c (setHash root) m) s) root)
      end
  end.

(** Lines 47-57: both children are there; hash the node if it has no hash
    and go up. *)
Definition goUp (s : Walk) (c : nat) (n : MerkleNode) (l r : nat) : Exit + Walk :=
  let m := branch s in
  let* m' :=
    match Hash n with
    | None =>
        let* lh := hashBytes m l in
        let* rh := hashBytes m r in
        inr (update c (setHash (doubleSha256 (lh ++ rh))) m)
    | Some _ => inr m
    end in
  inr {| branch := m'; current := Parent n; vbitsIndex := vbitsIndex s;
         hashesIndex := hashesIndex s; depth := depth s - 1 |}.

(** Lines 59-67: a left child and no right child; make the right child
    and go to it.  The iteration goes on with the flag of the new node. *)
Definition goRight (s : Walk) (c : nat) : Walk :=
  let m := branch s in
  let node := length (binTree m) in
  {| branch := update c (setRight node) (append (NewBinTree (Some c)) m);
     current := Some node; vbitsIndex := vbitsIndex s;
     hashesIndex := hashesIndex s; depth := depth s + 1 |}.

(** Lines 69-87: read the flag of the current node; a leaf takes the next
    hash and the walk goes up, an inner node gets its left child and the
    walk goes down. *)
Definition visitNode (vbits : list bool) (hashes : list (list byte)) (height : Z)
    (s : Walk) : Exit + Walk :=
  let m := branch s in
  match vbits !! vbitsIndex s with
  | None => inl (Panicked IndexOutOfRange)
  | Some flag =>
      if negb flag || (depth s =? height)%Z then
        match hashes !! hashesIndex s with
        | None => inl (Panicked IndexOutOfRange)
        | Some h =>
            let* (c, n) := deref m (current s) in
            let m1 := update c (setHash h) m in
            let m2 := if flag && (depth s =? height)%Z
                      then setTarget (Some c) m1 else m1 in
            inr {| branch := m2; current := Parent n; vbitsIndex := vbitsIndex s;
                   hashesIndex := S (hashesIndex s); depth := depth s - 1 |}
        end
      else
        let* (c, _) := deref m (current s) in
        let node := length (binTree m) in
        inr {| branch := update c (setLeft node) (append (NewBinTree (Some c)) m);
               current := Some node; vbitsIndex := vbitsIndex s;
               hashesIndex := hashesIndex s; depth := depth s + 1 |}
  end.

(** Lines 88-91: the flag index moves on and is checked. *)
Definition bump (s : Walk) : Walk :=
  {| branch := branch s; current := current s; vbitsIndex := S (vbitsIndex s);
     hashesIndex := hashesIndex s; depth := depth s |}.

Definition nextFlag (vbits : list bool) (s : Walk) : Exit + Walk :=
  let s' := bump s in
  if decide (length vbits <= vbitsIndex s') then
    inl (Fail s' (ErrVBitsTooShort (length (binTree (branch s'))) (vbitsIndex s')))
  else inr s'.

Definition visit (vbits : list bool) (hashes : list (list byte)) (height : Z)
    (s : Walk) : Exit + Walk :=
  let* s' := visitNode vbits hashes height s in
  nextFlag vbits s'.

(** One turn of the [for] loop (lines 36-92). *)
Definition iteration (vbits : list bool) (hashes : list (list byte)) (height : Z)
    (s : Walk) : Exit + Walk :=
  if decide (hashesIndex s = length hashes) then finish s
  else
    let* (c, n) := deref (branch s) (current s) in
    match Left n, Right n with
    | Some l, Some r => goUp s c n l r
    | Some _, None => visit vbits hashes height (goRight s c)
    | None, _ => visit vbits hashes height s
    end.

Inductive Result :=
| Exited (e : Exit)
| OutOfFuel.

Fixpoint loop (fuel : nat) (vbits : list bool) (hashes : list (list byte)) (height : Z)
    (s : Walk) : Result :=
  match fuel with
  | O => OutOfFuel
  | S fuel' =>
      match iteration vbits hashes height s with
      | inl e => Exited e
      | inr s' => loop fuel' vbits hashes height s'
      end
  end.

(** Lines 27-35.  The receiver is the [MerkleBranch{}] that
    [buildMerkleTreeDot] makes for the call: no target yet. *)
Definition start : Walk :=
  {| branch := {| binTree := [NewBinTree None]; target := None |};
     current := Some 0; vbitsIndex := 0; hashesIndex := 0; depth := 0 |}.

(** Three turns for each flag bit and two more are enough for every input
    (lemma [CreateMerkleBranch_terminates]). *)
Definition turns (vbits : list bool) : nat := 3 * length vbits + 2.

Definition CreateMerkleBranch (vbits : list bool) (hashes : list (list byte)) (height : Z)
    : Result :=
  loop (turns vbits) vbits hashes height start.

(** ** main.go: helpers *)

(** [reverseBytes] reverses a byte slice. *)
Definition reverseBytes (data : list byte) : list byte := rev data.

Definition quote : string := String (ascii_of_nat 34) EmptyString.

(** [fmt.Sprintf] with the format of [nodeLabel]: a quoted string cut to
    eight characters and three dots. *)
Definition nodeLabel (hash : list byte) : string :=
  (quote ++ substring 0 8 (EncodeToString (reverseBytes hash)) ++ "..." ++ quote)%string.

(** ** merkle_branch.go: the graph

    gographviz is a library; the graph is what [BuildGraph] hands to it,
    the [AddNode] and [AddEdge] calls in their order.  An attribute map is
    the list of its keys and values as the source writes them. *)
Record GraphNode := {
  nodeID : string;
  attrs : list (string * string);
}.

Record GraphEdge := {
  src : string;
  dst : string;
  edgeAttrs : list (string * string);
}.

Record Graph := {
  nodes : list GraphNode;
  edges : list GraphEdge;
}.

Definition AddNode (n : GraphNode) (g : Graph) : Graph :=
  {| nodes := nodes g ++ [n]; edges := edges g |}.
Definition AddEdge (e : GraphEdge) (g : Graph) : Graph :=
  {| nodes := nodes g; edges := edges g ++ [e] |}.
Definition NewGraph : Graph := {| nodes := []; edges := [] |}.

Fixpoint attr (key : string) (kvs : list (string * string)) : option string :=
  match kvs with
  | [] => None
  | (k, v) :: kvs' => if String.eqb k key then Some v else attr key kvs'
  end.

Definition isNil {A : Type} (p : option A) : bool :=
  match p with
  | None => true
  | Some _ => false
  end.

(** [fmt.Sprintf("node_%x", node.Hash[:])]; a nil slice prints nothing. *)
Definition nodeName (n : MerkleNode) : string :=
  ("node_" ++ EncodeToString (default [] (Hash n)))%string.

(** The body of the loop of [BuildGraph] for the node at index [i]. *)
Definition drawNode (m : MerkleBranch) (i : nat) (node : MerkleNode) (g : Graph) : Graph :=
  let hash := default [] (Hash node) in
  let label :=
    if isNil (Parent node)
    then (quote ++ EncodeToString (reverseBytes hash) ++ quote)%string
    else nodeLabel hash in
  let leaf := isNil (Left node) && isNil (Right node) in
  let nodeShape := if leaf then "box"%string else "ellipse"%string in
  let fillColor :=
    if leaf then
      if bool_decide (target m = Some i) then "lightcoral"%string else "lightblue"%string
    else "white"%string in
  let g1 := AddNode {| nodeID := nodeName node;
                       attrs := [("label", label); ("shape", nodeShape);
                                 ("style", "filled"); ("fillcolor", fillColor)]%string |} g in
  match Left node, Right node with
  | Some l, Some r =>
      let childName p := from_option nodeName "node_"%string (binTree m !! p) in
      let g2 := AddEdge {| src := nodeName node; dst := childName l;
                           edgeAttrs := [("tailport", "sw")]%string |} g1 in
      AddEdge {| src := nodeName node; dst := childName r;
                 edgeAttrs := [("tailport", "se")]%string |} g2
  | _, _ => g1
  end.

Fixpoint drawNodes (m : MerkleBranch) (i : nat) (ns : list MerkleNode) (g : Graph) : Graph :=
  match ns with
  | [] => g
  | node :: ns' => drawNodes m (S i) ns' (drawNode m i node g)
  end.

Definition BuildGraph (m : MerkleBranch) : Graph :=
  drawNodes m 0 (binTree m) NewGraph.

(** ** main.go: [buildMerkleTreeDot] *)

(** The height loop, [for (1 << uint(height)) < int(totalTx) { height++ }];
    [totalTx] is a [uint32], so 33 turns end it. *)
Fixpoint heightLoop (fuel : nat) (totalTx height : Z) : Z :=
  match fuel with
  | O => height
  | S fuel' =>
      if (Z.shiftl 1 height <? totalTx)%Z
      then heightLoop fuel' totalTx (height + 1)
      else height
  end.

Definition treeHeight (totalTx : Z) : Z := heightLoop 33 totalTx 0.

Inductive DotResult :=
| DotOk (g : Graph) (root : list byte)
| DotError (e : MerkleError)
| DotPanic (p : Panic)
| DotOutOfFuel.

Definition buildMerkleTreeDot (totalTx : Z) (vbits : list bool) (hashes : list (list byte))
    : DotResult :=
  let height := treeHeight totalTx in
  match CreateMerkleBranch vbits hashes height with
  | Exited (Return s root) => DotOk (BuildGraph (branch s)) root
  | Exited (Fail _ e) => DotError e
  | Exited (Panicked p) => DotPanic p
  | OutOfFuel => DotOutOfFuel
  end.





(** ** main.go: the decoder *)

Record BlockHeader := {
  Version : Z;
  PrevBlockHash : list byte;
  MerkleRoot : list byte;
  Timestamp : N;
  Bits : N;
  Nonce : N;
}.

Record MerkleProofData := {
  TotalTransactions : N;
  HashNum : N;
  Hashes : list (list byte);
  VBitsNum : N;
  VBits : list bool;
}.

(** A [bytes.Reader] is the bytes it has not handed out yet. *)
Inductive IOError :=
| EOF
| ErrUnexpectedEOF.

(** [io.ReadFull] into a buffer of [n] bytes: nothing to do for an empty
    buffer, [EOF] when no byte is left, [ErrUnexpectedEOF] when fewer than
    [n] are.  After an error the decoder returns at once, so the reader
    is not given back. *)
Definition ReadFull (n : nat) (r : list byte) : IOError + (list byte * list byte) :=
  match n with
  | O => inr ([], r)
  | S _ =>
      match r with
      | [] => inl EOF
      | _ => if decide (length r < n) then inl ErrUnexpectedEOF
             else inr (take n r, drop n r)
      end
  end.

(** [binary.LittleEndian] on the bytes of an unsigned integer. *)
Fixpoint littleEndian (bs : list byte) : N :=
  match bs with
  | [] => 0
  | b :: bs' => Byte.to_N b + 256 * littleEndian bs'
  end%N.

(** [binary.Read] into an unsigned integer of [n] bytes. *)
Definition readUint (n : nat) (r : list byte) : IOError + (N * list byte) :=
  match ReadFull n r with
  | inl e => inl e
  | inr (bs, r') => inr (littleEndian bs, r')
  end.

(** The two's complement reading of a 32-bit word, for [int32]. *)
Definition int32 (u : N) : Z :=
  if (u <? 2 ^ 31)%N then Z.of_N u else (Z.of_N u - 2 ^ 32)%Z.

(** [readVarInt] reads a Bitcoin-style variable-length integer
    (CompactSize). *)
Definition readVarInt (r : list byte) : IOError + (N * list byte) :=
  match readUint 1 r with
  | inl e => inl e
  | inr (discriminant, r1) =>
      if (discriminant =? 0xfd)%N then readUint 2 r1
      else if (discriminant =? 0xfe)%N then readUint 4 r1
      else if (discriminant =? 0xff)%N then readUint 8 r1
      else inr (discriminant, r1)
  end.

Inductive DecodeError :=
| ErrShortHeader (got : nat)
| ErrHeader (e : IOError)
| ErrNoAdditionalData
| ErrTotalTransactions (e : IOError)
| ErrHashNum (e : IOError)
| ErrHash (number : N) (e : IOError)
| ErrVBitsNum (e : IOError)
| ErrVBits (e : IOError).

(** [binary.Read] into a [BlockHeader]: 80 bytes, the fields in their
    order. *)
Definition readBlockHeader (r : list byte) : IOError + (BlockHeader * list byte) :=
  match ReadFull 80 r with
  | inl e => inl e
  | inr (bs, r') =>
      inr ({| Version := int32 (littleEndian (take 4 bs));
              PrevBlockHash := take 32 (drop 4 bs);
              MerkleRoot := take 32 (drop 36 bs);
              Timestamp := littleEndian (take 4 (drop 68 bs));
              Bits := littleEndian (take 4 (drop 72 bs));
              Nonce := littleEndian (take 4 (drop 76 bs)) |}, r')
  end.

(** The loop over the hashes: [count] more to read, [i] read so far. *)
Fixpoint readHashes (count : nat) (i : N) (r : list byte)
    : DecodeError + (list (list byte) * list byte) :=
  match count with
  | O => inr ([], r)
  | S count' =>
      match ReadFull 32 r with
      | inl e => inl (ErrHash (i + 1) e)
      | inr (h, r') =>
          match readHashes count' (i + 1) r' with
          | inl e => inl e
          | inr (hs, r'') => inr (h :: hs, r'')
          end
      end
  end.

(** The eight flags of a byte, from bit 0 to bit 7:
    [(b>>uint(i))&1 == 1]. *)
Definition isSet (b : byte) (i : nat) : bool :=
  (N.land (N.shiftr (Byte.to_N b) (N.of_nat i)) 1 =? 1)%N.

Definition unpackByte (b : byte) : list bool := map (isSet b) (seq 0 8).

(** The loop over [vBits], appending to the flags so far. *)
Fixpoint unpackBits (flags : list bool) (vBits : list byte) : list bool :=
  match vBits with
  | [] => flags
  | b :: vBits' => unpackBits (flags ++ unpackByte b) vBits'
  end.

(** [decodeTxOutProofData].  The two structures arrive by pointer; every
    field is assigned except [VBits], which is appended to when flag bytes
    follow.  The lines written to standard output are left out.  The
    slices made for [HashNum] hashes and [VBitsNum] bytes are taken to be
    allocated. *)
Definition decodeTxOutProofData (decodedBytes : list byte)
    (blockHeader : BlockHeader) (proofData : MerkleProofData)
    : DecodeError + (BlockHeader * MerkleProofData) :=
  if decide (length decodedBytes < 80) then inl (ErrShortHeader (length decodedBytes))
  else
    let headerBytes := take 80 decodedBytes in
    match readBlockHeader headerBytes with
    | inl e => inl (ErrHeader e)
    | inr (header, _) =>
        let remainingBytes := drop 80 decodedBytes in
        if decide (length remainingBytes = 0) then inl ErrNoAdditionalData
        else
          match readUint 4 remainingBytes with
          | inl e => inl (ErrTotalTransactions e)
          | inr (totalTransactions, r1) =>
              match readVarInt r1 with
              | inl e => inl (ErrHashNum e)
              | inr (hashNum, r2) =>
                  match readHashes (N.to_nat hashNum) 0 r2 with
                  | inl e => inl e
                  | inr (hashes, r3) =>
                      match readVarInt r3 with
                      | inl e => inl (ErrVBitsNum e)
                      | inr (vBitsNum, r4) =>
                          let result flags :=
                            inr (header,
                                 {| TotalTransactions := totalTransactions;
                                    HashNum := hashNum; Hashes := hashes;
                                    VBitsNum := vBitsNum; VBits := flags |}) in
                          if (0 <? vBitsNum)%N then
                            match ReadFull (N.to_nat vBitsNum) r4 with
                            | inl e => inl (ErrVBits e)
                            | inr (vBits, _) => result (unpackBits (VBits proofData) vBits)
                            end
                          else result []
                      end
                  end
              end
          end
    end.

(** The values [main] declares with [var] before the call. *)
Definition zeroBlockHeader : BlockHeader :=
  {| Version := 0; PrevBlockHash := repeat Byte.x00 32; MerkleRoot := repeat Byte.x00 32;
     Timestamp := 0; Bits := 0; Nonce := 0 |}.

Definition zeroMerkleProofData : MerkleProofData :=
  {| TotalTransactions := 0; HashNum := 0; Hashes := []; VBitsNum := 0; VBits := [] |}.

(** The decimal digits of [%d]. *)
Definition decimal (n : Z) : string :=
  DecimalString.NilZero.string_of_int (Z.to_int n).

(** The text of the two errors. *)
Definition errorText (e : MerkleError) : string :=
  match e with
  | ErrNotFinished => "all hashes is parsed, but tree construction is not finished"
  | ErrVBitsTooShort expected got =>
      "vBits is too short, expected at least " ++ decimal (Z.of_nat expected)
      ++ " bits, got " ++ decimal (Z.of_nat got)
  end%string.

(** ** The first main.go: the recursive walk

    The repository keeps the earlier [main.go], in which
    [buildAndDrawPartialTree] builds the same tree by recursion and draws
    it on the way. *)
Module Legacy.

Inductive Error :=
| ErrOutOfFlags
| ErrOutOfHashes.

(** What the recursion shares through pointers: the two indices and the
    graph. *)
Record State := {
  vbitsIndex : nat;
  hashesIndex : nat;
  graph : Graph;
}.

Definition levelName (height : nat) (pos : Z) : string :=
  ("node_" ++ decimal (Z.of_nat height) ++ "_" ++ decimal pos)%string.

Fixpoint buildAndDrawPartialTree (height : nat) (pos : Z) (vbits : list bool)
    (hashes : list (list byte)) (totalTx : Z) (initialHeight : nat) (st : State)
    : Error + (list byte * string * State) :=
  match (vbits !! vbitsIndex st : option bool) with
  | None => inl ErrOutOfFlags
  | Some flag =>
      let st1 := {| vbitsIndex := S (vbitsIndex st); hashesIndex := hashesIndex st;
                    graph := graph st |} in
      let name := levelName height pos in
      let leaf : Error + (list byte * string * State) :=
        match hashes !! hashesIndex st1 with
        | None => inl ErrOutOfHashes
        | Some hash =>
            let fillColor := if flag then "lightcoral"%string else "lightblue"%string in
            let node := {| nodeID := name;
                           attrs := [("label", nodeLabel hash); ("shape", "box");
                                     ("style", "filled"); ("fillcolor", fillColor)]%string |} in
            inr (hash, name,
                 {| vbitsIndex := vbitsIndex st1; hashesIndex := S (hashesIndex st1);
                    graph := AddNode node (graph st1) |})
        end in
      match height with
      | O => leaf
      | S below =>
          if negb flag then leaf
          else
            match buildAndDrawPartialTree below (pos * 2) vbits hashes totalTx initialHeight st1 with
            | inl e => inl e
            | inr (leftHash, leftChildID, st2) =>
                let nodesInLevel :=
                  Z.shiftr (totalTx + Z.shiftl 1 (Z.of_nat below) - 1) (Z.of_nat below) in
                let right :=
                  if (pos * 2 + 1 <? nodesInLevel)%Z
                  then buildAndDrawPartialTree below (pos * 2 + 1) vbits hashes totalTx
                         initialHeight st2
                  else inr (leftHash, EmptyString, st2) in
                match right with
                | inl e => inl e
                | inr (rightHash, rightChildID, st3) =>
                    let parentHash := doubleSha256 (leftHash ++ rightHash) in
                    let label :=
                      if decide (height = initialHeight)
                      then (quote ++ EncodeToString (reverseBytes parentHash) ++ quote)%string
                      else nodeLabel parentHash in
                    let g1 := AddNode {| nodeID := name;
                                         attrs := [("label", label); ("shape", "ellipse")]%string |}
                                (graph st3) in
                    let g2 := AddEdge {| src := name; dst := leftChildID;
                                         edgeAttrs := [("tailport", "sw")]%string |} g1 in
                    let g3 :=
                      if String.eqb rightChildID EmptyString then g2
                      else AddEdge {| src := name; dst := rightChildID;
                                      edgeAttrs := [("tailport", "se")]%string |} g2 in
                    inr (parentHash, name,
                         {| vbitsIndex := vbitsIndex st3; hashesIndex := hashesIndex st3;
                            graph := g3 |})
                end
            end
      end
  end.

Definition buildMerkleTreeDot (totalTx : Z) (vbits : list bool) (hashes : list (list byte))
    : Error + Graph :=
  let height := Z.to_nat (treeHeight totalTx) in
  match buildAndDrawPartialTree height 0 vbits hashes totalTx height
          {| vbitsIndex := 0; hashesIndex := 0; graph := NewGraph |} with
  | inl e => inl e
  | inr (_, _, st) => inr (graph st)
  end.

End Legacy.

(** ** The invariant of the walk *)

Definition hashOf (bt : list MerkleNode) (i : nat) : option (list byte) :=
  bt !! i ≫= Hash.

(** How the node [c] hangs under its parent: as the left child of a node
    with no right child yet, or as the right child of a node whose left
    child has its hash. *)
Definition childOf (bt : list MerkleNode) (parent : option nat) (c : nat) : Prop :=
  match parent with
  | None => True
  | Some p =>
      exists np, bt !! p = Some np /\ p < c /\
        ((Left np = Some c /\ Right np = None) \/
         (Right np = Some c /\ exists l, Left np = Some l /\ is_Some (hashOf bt l)))
  end.

(** The path from the current node up to the root, through [Parent]: its
    nodes have no hash yet, and its length is [depth + 1]. *)
Inductive spine (bt : list MerkleNode) : option nat -> Z -> Prop :=
| spine_nil : spine bt None (-1)
| spine_node c n d :
    bt !! c = Some n ->
    Hash n = None ->
    childOf bt (Parent n) c ->
    spine bt (Parent n) (d - 1) ->
    spine bt (Some c) d.

(** The nodes met from a node up to the root, through [Parent]. *)
Inductive onSpine (bt : list MerkleNode) : option nat -> nat -> Prop :=
| onSpine_here c : onSpine bt (Some c) c
| onSpine_up c n i :
    bt !! c = Some n -> onSpine bt (Parent n) i -> onSpine bt (Some c) i.

(** The hash of a node with no left child, a leaf once it has one. *)
Definition leafHash (n : MerkleNode) : option (list byte) :=
  if isNil (Left n) then Hash n else None.

Definition leafHashes (bt : list MerkleNode) : list (list byte) := omap leafHash bt.

(** A node that has a hash is a leaf, or has two children with hashes and
    the double SHA-256 of the two as its own. *)
Definition nodeOK (bt : list MerkleNode) (n : MerkleNode) : Prop :=
  forall h, Hash n = Some h ->
    match Left n, Right n with
    | None, None => True
    | Some l, Some r =>
        exists lh rh, hashOf bt l = Some lh /\ hashOf bt r = Some rh /\
                      h = doubleSha256 (lh ++ rh)
    | _, _ => False
    end.

(** What the current node looks like at the head of the loop, and how
    many flags have been read for the nodes made so far. *)
Definition currentOK (bt : list MerkleNode) (vbitsIndex : nat) (c : nat) (n : MerkleNode)
    : Prop :=
  match Left n, Right n with
  | None, None => S c = length bt /\ length bt = S vbitsIndex
  | Some l, None => is_Some (hashOf bt l) /\ length bt = vbitsIndex
  | Some l, Some r =>
      is_Some (hashOf bt l) /\ is_Some (hashOf bt r) /\ length bt = vbitsIndex
  | None, Some _ => False
  end.

Record Inv (hashes : list (list byte)) (s : Walk) : Prop := {
  inv_spine : spine (binTree (branch s)) (current s) (depth s);
  inv_current : forall c n,
    current s = Some c -> binTree (branch s) !! c = Some n ->
    currentOK (binTree (branch s)) (vbitsIndex s) c n;
  inv_nil : current s = None -> length (binTree (branch s)) = vbitsIndex s;
  inv_nodes : forall i n, binTree (branch s) !! i = Some n -> nodeOK (binTree (branch s)) n;
  inv_fresh : forall i n,
    binTree (branch s) !! i = Some n -> Hash n = None -> Left n = None ->
    current s = Some i;
  inv_leaves : leafHashes (binTree (branch s)) = take (hashesIndex s) hashes;
  inv_hashesIndex : hashesIndex s <= length hashes;
  inv_pending : forall i n,
    binTree (branch s) !! i = Some n -> Hash n = None ->
    onSpine (binTree (branch s)) (current s) i;
  inv_root : forall i n,
    binTree (branch s) !! i = Some n -> Parent n = None -> i = 0;
}.

(** At the head of the loop a flag is left to read, once one has been
    read. *)
Definition flagLeft (vbits : list bool) (s : Walk) : Prop :=
  vbitsIndex s = 0 \/ vbitsIndex s < length vbits.

(** Heaps that agree outside the node [c]. *)
Definition agreeOff (c : nat) (bt bt' : list MerkleNode) : Prop :=
  forall i n, bt !! i = Some n -> i <> c -> bt' !! i = Some n.

(** The state a turn leaves behind, when it leaves one: the next state,
    or the one the call returns from. *)
Definition after (r : Exit + Walk) : option Walk :=
  match r with
  | inr s => Some s
  | inl (Return s _) => Some s
  | inl (Fail s _) => Some s
  | inl (Panicked _) => None
  end.

(** The leaves of the tree as [BuildGraph] tells them: no child. *)
Definition isLeaf (n : MerkleNode) : bool := isNil (Left n) && isNil (Right n).

Fixpoint countLeaves (bt : list MerkleNode) : nat :=
  match bt with
  | [] => 0
  | n :: bt' => (if isLeaf n then 1 else 0) + countLeaves bt'
  end.

(** The states the loop passes through. *)
Inductive reachable (vbits : list bool) (hashes : list (list byte)) (height : Z)
    : Walk -> Prop :=
| reach_start : reachable vbits hashes height start
| reach_turn s s' :
    reachable vbits hashes height s ->
    iteration vbits hashes height s = inr s' ->
    reachable vbits hashes height s'.

Definition potential (vbits : list bool) (s : Walk) : nat :=
  3 * (length vbits - vbitsIndex s) + Z.to_nat (depth s + 1).

(** The hashes of the tree are right: each node that has a hash and
    children has the double SHA-256 of its children's hashes, and the
    leaves carry, in the order they were made, the input hashes used so
    far. *)
Definition hashesOK (hashes : list (list byte)) (s : Walk) : Prop :=
  (forall i n, binTree (branch s) !! i = Some n -> nodeOK (binTree (branch s)) n) /\
  leafHashes (binTree (branch s)) = take (hashesIndex s) hashes.

(** No hash that is set is set again. *)
Definition writeOnce (s s' : Walk) : Prop :=
  forall j h, hashOf (binTree (branch s)) j = Some h ->
              hashOf (binTree (branch s')) j = Some h.


(** A list without its last entry, [l[:len(l)-1]], and the flags without
    those of the last flag byte. *)
Definition dropLast {A : Type} (l : list A) : list A := take (length l - 1) l.

Definition dropLastFlagByte (vbits : list bool) : list bool :=
  take (length vbits - 8) vbits.

(** The fill colours of the nodes of a graph, in the order they were
    added. *)
Definition fillColors (g : Graph) : list (option string) :=
  map (fun n => attr "fillcolor" (attrs n)) (nodes g).


(** Hashes to run the walk on. *)
Definition sampleHash (b : byte) : list byte := repeat b 32.

(** A serialized proof to run the decoder on: a header, two transactions,
    two hashes and one flag byte. *)
Definition sampleHeader : list byte :=
  [Byte.x01; Byte.x00; Byte.x00; Byte.x00] ++ repeat Byte.x11 32 ++ repeat Byte.x22 32
  ++ [Byte.x2e; Byte.x43; Byte.x10; Byte.x4d] ++ [Byte.xff; Byte.xff; Byte.x00; Byte.x1d]
  ++ [Byte.x21; Byte.x68; Byte.x52; Byte.x02].

Definition sampleBody : list byte :=
  [Byte.x02; Byte.x00; Byte.x00; Byte.x00] ++ [Byte.x02]
  ++ sampleHash Byte.x0a ++ sampleHash Byte.x0b ++ [Byte.x01] ++ [Byte.x01].

Definition sampleProof : list byte := sampleHeader ++ sampleBody.

(** ** [reverseBytes], the loop *)

(** [reverseBytes] as the source writes it: a zeroed slice as long as
    [data], filled from the front with the bytes of [data] taken from the
    back.  [None] is an index out of range. *)
Fixpoint reverseFrom (turns : nat) (data reversed : list byte) (i : nat)
    : option (list byte) :=
  if decide (i < length data) then
    match turns with
    | O => None
    | S turns' =>
        match data !! (length data - 1 - i) with
        | None => None
        | Some b =>
            if decide (i < length reversed)
            then reverseFrom turns' data (<[i := b]> reversed) (S i)
            else None
        end
    end
  else Some reversed.

Definition reverseBytesLoop (data : list byte) : option (list byte) :=
  reverseFrom (length data) data (replicate (length data) Byte.x00) 0.

(** ** encoding/hex: [hex.DecodeString]

    Two digits make a byte; upper and lower case letters are read alike.
    The first character that is no digit is reported, an odd length only
    when every character is one. *)
Inductive HexError :=
| InvalidByteError (c : ascii)
| ErrLength.

Definition fromHexChar (c : ascii) : option N :=
  let n := N_of_ascii c in
  if (48 <=? n)%N && (n <=? 57)%N then Some (n - 48)%N
  else if (97 <=? n)%N && (n <=? 102)%N then Some (n - 87)%N
  else if (65 <=? n)%N && (n <=? 70)%N then Some (n - 55)%N
  else None.

(** [(a << 4) | b] as a byte. *)
Definition hexByte (a b : N) : byte :=
  byte_of_Z (Z.of_N (N.lor (N.shiftl a 4) b)).

Fixpoint DecodeString (s : string) : HexError + list byte :=
  match s with
  | EmptyString => inr []
  | String p EmptyString =>
      match fromHexChar p with
      | None => inl (InvalidByteError p)
      | Some _ => inl ErrLength
      end
  | String p (String q s') =>
      match fromHexChar p with
      | None => inl (InvalidByteError p)
      | Some a =>
          match fromHexChar q with
          | None => inl (InvalidByteError q)
          | Some b =>
              match DecodeString s' with
              | inl e => inl e
              | inr bs => inr (hexByte a b :: bs)
              end
          end
      end
  end.

(** A string with its upper case letters made lower case. *)
Definition lower (c : ascii) : ascii :=
  let n := N_of_ascii c in
  if (65 <=? n)%N && (n <=? 90)%N then ascii_of_N (n + 32) else c.

Fixpoint ToLower (s : string) : string :=
  match s with
  | EmptyString => EmptyString
  | String c s' => String (lower c) (ToLower s')
  end.

(** ** The first main.go: the header only

    The oldest [main.go] the repository keeps decodes its argument, prints
    it encoded again, and decodes and prints the block header.  The result
    is what it prints, or why it exits with status 1. *)
Module HeaderOnly.

Inductive Result :=
| Usage
| BadHex (e : HexError)
| TooShort (hexOutput : string) (got : nat)
| BadHeader (hexOutput : string) (e : IOError)
| Header (hexOutput : string) (blockHeader : BlockHeader).

Definition main (args : list string) : Result :=
  match args with
  | [_; hexInput] =>
      match DecodeString hexInput with
      | inl e => BadHex e
      | inr decodedBytes =>
          let hexOutput := EncodeToString decodedBytes in
          if decide (length decodedBytes < 80) then TooShort hexOutput (length decodedBytes)
          else
            match readBlockHeader (take 80 decodedBytes) with
            | inl e => BadHeader hexOutput e
            | inr (blockHeader, _) => Header hexOutput blockHeader
            end
      end
  | _ => Usage
  end.

End HeaderOnly.

(** The bytes that follow the discriminant of a CompactSize integer. *)
Definition varIntWidth (d : byte) : nat :=
  if (Byte.to_N d =? 0xfd)%N then 2
  else if (Byte.to_N d =? 0xfe)%N then 4
  else if (Byte.to_N d =? 0xff)%N then 8
  else 0.

(** The value of a CompactSize integer with discriminant [d] followed by
    [rest]: the discriminant, or the little-endian bytes after it. *)
Definition varIntValue (d : byte) (rest : list byte) : N :=
  if decide (varIntWidth d = 0) then Byte.to_N d
  else littleEndian (take (varIntWidth d) rest).

(** ** The four steps of the walk

    A turn of the loop changes the tree in one of four ways: a leaf takes
    its hash, a node gets its left child, a node gets its right child, or
    a node with two hashed children takes its own hash.  A property of
    the state is kept by a step when it holds after the step wherever it
    held before. *)
Definition keptByLeaf (vbits : list bool) (hashes : list (list byte)) (height : Z)
    (J : Walk -> Prop) : Prop :=
  forall s s1 c n flag h,
    Inv hashes s -> J s ->
    current s = Some c -> binTree (branch s) !! c = Some n ->
    Hash n = None -> Left n = None -> Right n = None ->
    S c = length (binTree (branch s)) -> c = vbitsIndex s ->
    vbits !! c = Some flag -> negb flag || (depth s =? height)%Z = true ->
    hashes !! hashesIndex s = Some h ->
    binTree (branch s1) = alter (setHash h) c (binTree (branch s)) ->
    target (branch s1)
      = (if flag && (depth s =? height)%Z then Some c else target (branch s)) ->
    current s1 = Parent n -> vbitsIndex s1 = S (vbitsIndex s) ->
    hashesIndex s1 = S (hashesIndex s) -> depth s1 = (depth s - 1)%Z ->
    J s1.

Definition keptByLeft (vbits : list bool) (hashes : list (list byte)) (height : Z)
    (J : Walk -> Prop) : Prop :=
  forall s s1 c n,
    Inv hashes s -> J s ->
    current s = Some c -> binTree (branch s) !! c = Some n ->
    Hash n = None -> Left n = None -> Right n = None ->
    S c = length (binTree (branch s)) -> c = vbitsIndex s ->
    vbits !! c = Some true -> (depth s =? height)%Z = false ->
    binTree (branch s1) =
      alter (setLeft (length (binTree (branch s)))) c
            (binTree (branch s) ++ [NewBinTree (Some c)]) ->
    target (branch s1) = target (branch s) ->
    current s1 = Some (length (binTree (branch s))) -> vbitsIndex s1 = S (vbitsIndex s) ->
    hashesIndex s1 = hashesIndex s -> depth s1 = (depth s + 1)%Z ->
    J s1.

Definition keptByRight (hashes : list (list byte)) (J : Walk -> Prop) : Prop :=
  forall s c n l,
    Inv hashes s -> J s ->
    current s = Some c -> binTree (branch s) !! c = Some n ->
    Hash n = None -> Left n = Some l -> Right n = None ->
    length (binTree (branch s)) = vbitsIndex s ->
    J (goRight s c).

Definition keptByFold (hashes : list (list byte)) (J : Walk -> Prop) : Prop :=
  forall s s' c n l r lh rh,
    Inv hashes s -> J s ->
    current s = Some c -> binTree (branch s) !! c = Some n ->
    Hash n = None -> Left n = Some l -> Right n = Some r ->
    hashOf (binTree (branch s)) l = Some lh -> hashOf (binTree (branch s)) r = Some rh ->
    binTree (branch s') = alter (setHash (doubleSha256 (lh ++ rh))) c (binTree (branch s)) ->
    target (branch s') = target (branch s) ->
    vbitsIndex s' = vbitsIndex s -> hashesIndex s' = hashesIndex s ->
    (current s' = Parent n /\ depth s' = (depth s - 1)%Z) \/
    (current s' = current s /\ depth s' = depth s) ->
    J s'.

(** ** The shape of the tree *)

(** The tree lies in [binTree] in the order the walk made it: the left
    child of a node is the next node, its right child comes after the
    nodes under the left one; a child names its parent, a parent its
    child; and the first node alone has no parent. *)
Record wellFormed (bt : list MerkleNode) : Prop := {
  wf_left : forall i n l,
    bt !! i = Some n -> Left n = Some l ->
    l = S i /\ exists nl, bt !! l = Some nl /\ Parent nl = Some i;
  wf_right : forall i n r,
    bt !! i = Some n -> Right n = Some r ->
    S i < r /\ is_Some (Left n) /\ exists nr, bt !! r = Some nr /\ Parent nr = Some i;
  wf_parent : forall i n p,
    bt !! i = Some n -> Parent n = Some p ->
    exists np, bt !! p = Some np /\ (Left np = Some i \/ Right np = Some i);
  wf_root : forall i n, bt !! i = Some n -> (Parent n = None <-> i = 0);
}.

(** The depth of a node: the number of [Parent] steps to the root. *)
Inductive levelOf (bt : list MerkleNode) : nat -> Z -> Prop :=
| level_root i n : bt !! i = Some n -> Parent n = None -> levelOf bt i 0
| level_child i n p d :
    bt !! i = Some n -> Parent n = Some p -> levelOf bt p d -> levelOf bt i (d + 1).

(** The pointers to children a node holds. *)
Definition pointers (n : MerkleNode) : nat :=
  (if isNil (Left n) then 0 else 1) + (if isNil (Right n) then 0 else 1).

Fixpoint countPointers (bt : list MerkleNode) : nat :=
  match bt with
  | [] => 0
  | n :: bt' => pointers n + countPointers bt'
  end.

(** The nodes up to index [k] come from the flags of their index: a node
    has no left child when its flag is 0 or it lies at depth [height]. *)
Definition followsFlags (vbits : list bool) (height : Z) (bt : list MerkleNode) (k : nat)
    : Prop :=
  forall i n, bt !! i = Some n -> i < k ->
    exists flag d,
      vbits !! i = Some flag /\ levelOf bt i d /\ (0 <= d)%Z /\
      (0 <= height -> d <= height)%Z /\
      (Left n = None <-> flag = false \/ d = height).

(** The node [m.target] points to, when it points to one: a leaf with a
    hash, at depth [height], whose flag is 1. *)
Definition targetOK (vbits : list bool) (height : Z) (m : MerkleBranch) : Prop :=
  match target m with
  | None => True
  | Some t =>
      vbits !! t = Some true /\
      exists n h, binTree m !! t = Some n /\ Hash n = Some h /\
                  Left n = None /\ Right n = None /\ levelOf (binTree m) t height
  end.

(** Updates that keep the pointers of the nodes there are. *)
Definition keepsPointers (bt bt' : list MerkleNode) : Prop :=
  forall j m, bt !! j = Some m ->
    exists m', bt' !! j = Some m' /\ Parent m' = Parent m.

(** The nodes but the first are counted by the pointers to them. *)
Definition counted (s : Walk) : Prop :=
  length (binTree (branch s)) = 1 + countPointers (binTree (branch s)).

(** The flags read so far and the tree, at the head of the loop. *)
Definition flagsInv (vbits : list bool) (height : Z) (s : Walk) : Prop :=
  (0 <= height -> depth s <= height)%Z /\
  followsFlags vbits height (binTree (branch s)) (vbitsIndex s).

(** [m.target] is the last of the nodes that were matched: those of the
    nodes read so far that lie at depth [height] and have flag 1. *)
Definition lastMatch (vbits : list bool) (height : Z) (s : Walk) : Prop :=
  forall i, i < vbitsIndex s -> vbits !! i = Some true ->
    levelOf (binTree (branch s)) i height ->
    exists t, target (branch s) = Some t /\ i <= t < vbitsIndex s.

Definition matchInv (vbits : list bool) (height : Z) (s : Walk) : Prop :=
  flagsInv vbits height s /\ lastMatch vbits height s.

(** ** The graph, read back *)

(** The shape and the fill colour [BuildGraph] gives to the node at index
    [i]. *)
Definition nodeShape (node : MerkleNode) : string :=
  if isLeaf node then "box"%string else "ellipse"%string.

Definition fillColor (m : MerkleBranch) (i : nat) (node : MerkleNode) : string :=
  if isLeaf node then
    if bool_decide (target m = Some i) then "lightcoral"%string else "lightblue"%string
  else "white"%string.

(** The names of the nodes of a graph and their shapes, in the order they
    were added. *)
Definition nodeIDs (g : Graph) : list string := map nodeID (nodes g).

Definition shapes (g : Graph) : list (option string) :=
  map (fun n => attr "shape" (attrs n)) (nodes g).

Definition isBox (n : GraphNode) : bool :=
  match attr "shape" (attrs n) with
  | Some s => String.eqb s "box"
  | None => false
  end.

Definition countBoxes (g : Graph) : nat := length (List.filter isBox (nodes g)).

(** The nodes of the tree that have both children. *)
Definition hasBoth (n : MerkleNode) : bool := negb (isNil (Left n)) && negb (isNil (Right n)).

Fixpoint countBoth (bt : list MerkleNode) : nat :=
  match bt with
  | [] => 0
  | n :: bt' => (if hasBoth n then 1 else 0) + countBoth bt'
  end.

(** ** The turns of the loop, from the result of a turn on *)

(** [leads x r]: the loop, taken up at the result [x] of a turn, comes
    to [r], a later state at the head of the loop or the way the call
    leaves it. *)
Inductive leads (vbits : list bool) (hashes : list (list byte)) (height : Z)
    : Exit + Walk -> Exit + Walk -> Prop :=
| leads_here r : leads vbits hashes height r r
| leads_turn s r :
    leads vbits hashes height (iteration vbits hashes height s) r ->
    leads vbits hashes height (inr s) r.

(** What the return of a root at the root of the tree has to be, for the
    recursive call that gave [hash] and left [st']. *)
Definition rootExit (hashes : list (list byte)) (e : Exit) (d : Z) (hash : list byte)
    (st' : Legacy.State) : Prop :=
  forall sf r, e = Return sf r -> current sf = Some 0 ->
    d = 0%Z /\ r = hash /\ vbitsIndex sf = Legacy.vbitsIndex st' /\
    Legacy.hashesIndex st' = length hashes.

(** ** main.go: [main]

    What a run of the program ends with: one of the exits with status 1
    (wrong number of arguments, an argument that is no hexadecimal
    string, a proof that does not decode, a tree that cannot be built),
    a panic, or the graph printed to standard output, after the line
    about a root that differs from the one of the header when it does.
    [args] is [os.Args], the name of the program first. *)
Inductive MainResult :=
| ExitUsage
| ExitHex (e : HexError)
| ExitDecode (e : DecodeError)
| ExitTree (e : MerkleError)
| MainPanic (p : Panic)
| MainOutOfFuel
| Printed (dotString : Graph) (mismatch : bool).

Definition main (args : list string) : MainResult :=
  match args with
  | [_; hexInput] =>
      match DecodeString hexInput with
      | inl e => ExitHex e
      | inr decodedBytes =>
          match decodeTxOutProofData decodedBytes zeroBlockHeader zeroMerkleProofData with
          | inl e => ExitDecode e
          | inr (blockHeader, proofData) =>
              match buildMerkleTreeDot (Z.of_N (TotalTransactions proofData))
                      (VBits proofData) (Hashes proofData) with
              | DotOk dotString root =>
                  Printed dotString
                    (if List.list_eq_dec Byte.byte_eq_dec (MerkleRoot blockHeader) root
                     then false else true)
              | DotError e => ExitTree e
              | DotPanic p => MainPanic p
              | DotOutOfFuel => MainOutOfFuel
              end
          end
      end
  | _ => ExitUsage
  end.

(** A tree is finished when each of its nodes is a leaf that has its hash
    or has both its children: the tree of a whole proof. *)
Definition finished (bt : list MerkleNode) : Prop :=
  forall i n, bt !! i = Some n ->
    match Left n, Right n with
    | None, None => is_Some (Hash n)
    | Some _, Some _ => True
    | _, _ => False
    end.

(** * SHA-256 on known inputs *)

Example round_constants :
  length SHA256.K = 64 /\ hd 0%Z SHA256.K = 0x428a2f98%Z /\
  List.last SHA256.K 0%Z = 0xc67178f2%Z /\ hd 0%Z SHA256.H0 = 0x6a09e667%Z.
Proof. vm_compute. repeat split. Qed.

Example sha256_abc :
  EncodeToString (SHA256.Sum256 (bytes_of_string "abc"))
  = "ba7816bf8f01cfea414140de5dae2223b00361a396177a9cb410ff61f20015ad"%string.
Proof. vm_compute. reflexivity. Qed.

Example sha256_empty :
  EncodeToString (SHA256.Sum256 [])
  = "e3b0c44298fc1c149afbf4c8996fb92427ae41e4649b934ca495991b7852b855"%string.
Proof. vm_compute. reflexivity. Qed.

Example sha256_two_blocks :
  EncodeToString (SHA256.Sum256 (repeat Byte.x61 56))
  = "b35439a4ac6f0948b6d6f9e3c6af0f5f590ce20f1bde7090ef7970686ec6738a"%string.
Proof. vm_compute. reflexivity. Qed.

Example sha256_full_block :
  EncodeToString (SHA256.Sum256 (repeat Byte.x61 64))
  = "ffe054fe7ae0cb6dc65c3af9b61d5209f439851db43d0ba5997337df154668eb"%string.
Proof. vm_compute. reflexivity. Qed.

Example doubleSha256_abc :
  EncodeToString (doubleSha256 (bytes_of_string "abc"))
  = "4f8b42c22dd3729b519ba6f68d2da7cc5b2d606d05daed5ad5128cc03e6c6358"%string.
Proof. vm_compute. reflexivity. Qed.

(** * Properties of the walk *)

Section Walk.
Context (vbits : list bool) (hashes : list (list byte)) (height : Z).

Lemma spine_depth bt o d : spine bt o d -> (-1 <= d)%Z.
Proof. induction 1; lia. Qed.

Lemma spine_Some_depth bt c d : spine bt (Some c) d -> (0 <= d)%Z.
Proof.
  inversion 1; subst.
  match goal with H : spine _ (Parent _) _ |- _ => apply spine_depth in H end. lia.
Qed.

(** *** Trees that agree off a node *)

Lemma agreeOff_alter c f bt : agreeOff c bt (alter f c bt).
Proof. intros i n Hi Hne. rewrite list_lookup_alter_ne; auto. Qed.

Lemma agreeOff_alter_app c f bt x : agreeOff c bt (alter f c (bt ++ [x])).
Proof.
  intros i n Hi Hne. rewrite list_lookup_alter_ne; auto.
  rewrite lookup_app_l; eauto using lookup_lt_Some.
Qed.

Lemma hashOf_agree c bt bt' j h :
  agreeOff c bt bt' -> hashOf bt c = None ->
  hashOf bt j = Some h -> hashOf bt' j = Some h.
Proof.
  intros Hag Hc Hj. unfold hashOf in *.
  destruct (bt !! j) as [n|] eqn:E; [|discriminate].
  destruct (decide (j = c)) as [->|Hne].
  - rewrite E in Hc. simpl in *. congruence.
  - rewrite (Hag _ _ E Hne). exact Hj.
Qed.

Lemma childOf_agree c bt bt' o x :
  agreeOff c bt bt' -> hashOf bt c = None ->
  (forall p, o = Some p -> p <> c) ->
  childOf bt o x -> childOf bt' o x.
Proof.
  intros Hag Hc Ho. destruct o as [p|]; simpl; [|auto].
  intros (np & Hp & Hlt & Hkind). exists np. split; [apply Hag; auto|].
  split; [exact Hlt|]. destruct Hkind as [?|(Hr & l & Hl & lh & Hlh)]; [left; auto|].
  right. split; [auto|]. exists l. split; [auto|]. exists lh.
  eapply hashOf_agree; eauto.
Qed.

Lemma spine_agree c bt bt' o d :
  spine bt o d ->
  agreeOff c bt bt' -> hashOf bt c = None ->
  (forall p, o = Some p -> p < c) ->
  spine bt' o d.
Proof.
  intros Hsp Hag Hc. induction Hsp as [|x n d Hx Hn Hch Hsp IH]; intros Ho.
  - constructor.
  - specialize (Ho x eq_refl).
    assert (Hup : forall p, Parent n = Some p -> p < c).
    { intros p Hp. rewrite Hp in Hch. destruct Hch as (np & _ & Hlt & _). lia. }
    econstructor.
    + apply Hag; [exact Hx | lia].
    + exact Hn.
    + eapply childOf_agree; eauto. intros p Hp. specialize (Hup p Hp). lia.
    + apply IH. exact Hup.
Qed.

Lemma onSpine_keep bt bt' o i :
  (forall j n, bt !! j = Some n -> exists n', bt' !! j = Some n' /\ Parent n' = Parent n) ->
  onSpine bt o i -> onSpine bt' o i.
Proof.
  intros Hk H. induction H as [c|c n i Hc _ IH]; [constructor|].
  destruct (Hk _ _ Hc) as (n' & Hn' & HP).
  econstructor; [exact Hn'|]. rewrite HP. exact IH.
Qed.

Lemma onSpine_inv bt c i :
  onSpine bt (Some c) i -> i = c \/ exists n, bt !! c = Some n /\ onSpine bt (Parent n) i.
Proof. inversion 1; subst; eauto. Qed.

Lemma onSpine_None bt i : ~ onSpine bt None i.
Proof. inversion 1. Qed.

Lemma keep_agree c bt bt' n n' :
  agreeOff c bt bt' -> bt !! c = Some n -> bt' !! c = Some n' -> Parent n' = Parent n ->
  forall j m, bt !! j = Some m -> exists m', bt' !! j = Some m' /\ Parent m' = Parent m.
Proof.
  intros Hag Hn Hn' HP j m Hj. destruct (decide (j = c)) as [->|Hne].
  - exists n'. split; [exact Hn'|]. congruence.
  - exists m. split; [apply Hag; auto|reflexivity].
Qed.

(** *** Lists *)

Lemma omap_cons {A B} (f : A -> option B) a (l : list A) :
  omap f (a :: l) = match f a with Some y => y :: omap f l | None => omap f l end.
Proof. reflexivity. Qed.

Lemma alter_cons_O {A} (g : A -> A) a (l : list A) : alter g 0 (a :: l) = g a :: l.
Proof. reflexivity. Qed.

Lemma alter_cons_S {A} (g : A -> A) i a (l : list A) :
  alter g (S i) (a :: l) = a :: alter g i l.
Proof. reflexivity. Qed.

Lemma omap_alter_same {A B} (f : A -> option B) (g : A -> A) i (l : list A) :
  (forall x, l !! i = Some x -> f (g x) = f x) ->
  omap f (alter g i l) = omap f l.
Proof.
  revert i. induction l as [|a l IH]; intros [|i] H; try reflexivity.
  - rewrite alter_cons_O, !omap_cons, (H a eq_refl). reflexivity.
  - rewrite alter_cons_S, !omap_cons, IH; auto.
Qed.

Lemma omap_alter_last {A B} (f : A -> option B) (g : A -> A) i (l : list A) x y :
  l !! i = Some x -> S i = length l -> f x = None -> f (g x) = Some y ->
  omap f (alter g i l) = omap f l ++ [y].
Proof.
  revert i. induction l as [|a l IH]; intros [|i] Hx Hlen Hf Hg; try discriminate.
  - destruct l; [|discriminate]. injection Hx as ->.
    rewrite alter_cons_O, !omap_cons, Hf, Hg. reflexivity.
  - rewrite alter_cons_S, !omap_cons, (IH i); auto.
    destruct (f a); reflexivity.
Qed.

Lemma omap_app_None {A B} (f : A -> option B) (l : list A) x :
  f x = None -> omap f (l ++ [x]) = omap f l.
Proof.
  intros H. induction l as [|a l IH].
  - change (omap f ([] ++ [x])) with (omap f [x]). rewrite omap_cons, H. reflexivity.
  - change ((a :: l) ++ [x]) with (a :: (l ++ [x])). rewrite !omap_cons, IH. reflexivity.
Qed.


(** *** What the steps of a turn do *)

Lemma deref_inr m p c n :
  deref m p = inr (c, n) -> p = Some c /\ binTree m !! c = Some n.
Proof.
  unfold deref. destruct p as [i|]; [|discriminate].
  destruct (binTree m !! i) eqn:E; [|discriminate].
  intros [= <- <-]. auto.
Qed.

Lemma deref_Some m c n : binTree m !! c = Some n -> deref m (Some c) = inr (c, n).
Proof. unfold deref. intros ->. reflexivity. Qed.

(** What [visitNode] does to the state. *)
Lemma visitNode_inr s s1 :
  visitNode vbits hashes height s = inr s1 ->
  exists flag c n,
    vbits !! vbitsIndex s = Some flag /\
    current s = Some c /\ binTree (branch s) !! c = Some n /\
    vbitsIndex s1 = vbitsIndex s /\
    ((negb flag || (depth s =? height)%Z = true /\
      exists h, hashes !! hashesIndex s = Some h /\
        binTree (branch s1) = alter (setHash h) c (binTree (branch s)) /\
        target (branch s1) =
          (if flag && (depth s =? height)%Z then Some c else target (branch s)) /\
        current s1 = Parent n /\
        hashesIndex s1 = S (hashesIndex s) /\
        depth s1 = (depth s - 1)%Z)
     \/
     (negb flag || (depth s =? height)%Z = false /\
      binTree (branch s1) =
        alter (setLeft (length (binTree (branch s)))) c
              (binTree (branch s) ++ [NewBinTree (Some c)]) /\
      target (branch s1) = target (branch s) /\
      current s1 = Some (length (binTree (branch s))) /\
      hashesIndex s1 = hashesIndex s /\
      depth s1 = (depth s + 1)%Z)).
Proof.
  unfold visitNode. intros H.
  destruct (vbits !! vbitsIndex s) as [flag|] eqn:Ef; [|discriminate].
  destruct (negb flag || (depth s =? height)%Z) eqn:Ec.
  - destruct (hashes !! hashesIndex s) as [h|] eqn:Eh; [|discriminate].
    destruct (deref (branch s) (current s)) as [?|[c n]] eqn:Ed; [discriminate|].
    apply deref_inr in Ed as [Hc Hn]. simpl in H. injection H as <-. simpl.
    exists flag, c, n. repeat split; auto.
    left. split; [exact Ec|]. exists h. repeat split; auto.
    + destruct (flag && (depth s =? height)%Z); reflexivity.
    + destruct (flag && (depth s =? height)%Z); reflexivity.
  - destruct (deref (branch s) (current s)) as [?|[c n]] eqn:Ed; [discriminate|].
    apply deref_inr in Ed as [Hc Hn]. simpl in H. injection H as <-. simpl.
    exists flag, c, n. repeat split; auto.
    right. repeat split; auto.
Qed.

Lemma nextFlag_inr s1 s' :
  nextFlag vbits s1 = inr s' -> s' = bump s1 /\ S (vbitsIndex s1) < length vbits.
Proof.
  unfold nextFlag. simpl. case_decide; [discriminate|]. intros [= <-]. split; [reflexivity|lia].
Qed.

Lemma nextFlag_inl s1 e :
  nextFlag vbits s1 = inl e ->
  e = Fail (bump s1) (ErrVBitsTooShort (length (binTree (branch s1))) (S (vbitsIndex s1))) /\
  length vbits <= S (vbitsIndex s1).
Proof.
  unfold nextFlag. simpl. case_decide; [|discriminate]. intros [= <-]. auto.
Qed.

Lemma visit_inr s s' :
  visit vbits hashes height s = inr s' ->
  exists s1, visitNode vbits hashes height s = inr s1 /\ s' = bump s1 /\
             S (vbitsIndex s) < length vbits.
Proof.
  unfold visit. destruct (visitNode vbits hashes height s) as [?|s1] eqn:E; [discriminate|].
  simpl. intros H. apply nextFlag_inr in H as [-> Hlt]. exists s1.
  apply visitNode_inr in E as (? & ? & ? & _ & _ & _ & Hv & _). rewrite Hv in Hlt. auto.
Qed.

Lemma goUp_inr s c n l r s' :
  binTree (branch s) !! c = Some n ->
  goUp s c n l r = inr s' ->
  exists m',
    branch s' = m' /\ current s' = Parent n /\ vbitsIndex s' = vbitsIndex s /\
    hashesIndex s' = hashesIndex s /\ depth s' = (depth s - 1)%Z /\
    target m' = target (branch s) /\
    match Hash n with
    | Some _ => binTree m' = binTree (branch s)
    | None =>
        exists nl nr, binTree (branch s) !! l = Some nl /\ binTree (branch s) !! r = Some nr /\
          binTree m' = alter (setHash (doubleSha256 (default [] (Hash nl) ++ default [] (Hash nr)))) c
                             (binTree (branch s))
    end.
Proof.
  intros Hn. unfold goUp. destruct (Hash n) eqn:EH.
  - simpl. intros [= <-]. simpl. eexists. repeat split; eauto.
  - unfold hashBytes.
    destruct (deref (branch s) (Some l)) as [?|[? nl]] eqn:El; [discriminate|].
    destruct (deref (branch s) (Some r)) as [?|[? nr]] eqn:Er; [discriminate|].
    apply deref_inr in El as [[= <-] Hl]. apply deref_inr in Er as [[= <-] Hr].
    simpl. intros [= <-]. simpl. eexists. repeat split; eauto.
Qed.

Lemma iteration_inr s s' :
  iteration vbits hashes height s = inr s' ->
  hashesIndex s <> length hashes /\
  exists c n, current s = Some c /\ binTree (branch s) !! c = Some n /\
    ((exists l r, Left n = Some l /\ Right n = Some r /\ goUp s c n l r = inr s') \/
     (exists l, Left n = Some l /\ Right n = None /\
        visit vbits hashes height (goRight s c) = inr s') \/
     (Left n = None /\ visit vbits hashes height s = inr s')).
Proof.
  unfold iteration. case_decide as Hh.
  - unfold finish. intros H.
    destruct (deref (branch s) (current s)) as [?|[c n]]; [discriminate|]. simpl in H.
    destruct (hashOrNil (branch s) (Left n)) as [?|[lh|]]; try discriminate. simpl in H.
    destruct (hashOrNil (branch s) (Right n)) as [?|[rh|]]; discriminate.
  - intros H. split; [exact Hh|].
    destruct (deref (branch s) (current s)) as [?|[c n]] eqn:Ed; [discriminate|].
    apply deref_inr in Ed as [Hc Hn]. simpl in H.
    exists c, n. split; [exact Hc|]. split; [exact Hn|].
    destruct (Left n) as [l|]; [destruct (Right n) as [r|]|]; eauto 10.
Qed.


(** *** The invariant is kept *)

Lemma lookup_alter_inv {A} (f : A -> A) c (l : list A) i y :
  alter f c l !! i = Some y ->
  (i = c /\ exists x, l !! c = Some x /\ y = f x) \/ (i <> c /\ l !! i = Some y).
Proof.
  destruct (decide (i = c)) as [->|Hne].
  - rewrite list_lookup_alter_eq. destruct (l !! c) as [x|]; simpl; [|discriminate].
    intros [= <-]. left. eauto.
  - rewrite list_lookup_alter_ne; auto.
Qed.

Lemma lookup_snoc_inv {A} (l : list A) x i y :
  (l ++ [x]) !! i = Some y -> (i = length l /\ y = x) \/ (i < length l /\ l !! i = Some y).
Proof.
  intros H. destruct (decide (i < length l)) as [Hlt|Hge].
  - rewrite lookup_app_l in H; auto.
  - rewrite lookup_app_r in H by lia.
    destruct (i - length l) as [|k] eqn:E; simpl in H; [|destruct k; discriminate].
    injection H as <-. left. split; [lia|reflexivity].
Qed.

Lemma nodeOK_agree c bt bt' n :
  agreeOff c bt bt' -> hashOf bt c = None -> nodeOK bt n -> nodeOK bt' n.
Proof.
  intros Hag Hc Hok h Hh. specialize (Hok h Hh).
  destruct (Left n) as [l|], (Right n) as [r|]; auto.
  destruct Hok as (lh & rh & Hl & Hr & ->).
  exists lh, rh. eauto using hashOf_agree.
Qed.

Lemma spine_inv bt c d :
  spine bt (Some c) d ->
  exists n, bt !! c = Some n /\ Hash n = None /\ childOf bt (Parent n) c /\
            spine bt (Parent n) (d - 1).
Proof. inversion 1; subst. eauto. Qed.

Lemma childOf_lt bt o c p : childOf bt o c -> o = Some p -> p < c.
Proof. intros H ->. destruct H as (? & _ & ? & _). assumption. Qed.

(** A node takes its hash and the walk goes up to its parent. *)
Lemma Inv_ascend s s' c n H :
  Inv hashes s ->
  current s = Some c -> binTree (branch s) !! c = Some n ->
  binTree (branch s') = alter (setHash H) c (binTree (branch s)) ->
  current s' = Parent n -> depth s' = (depth s - 1)%Z ->
  length (binTree (branch s)) = vbitsIndex s' ->
  nodeOK (binTree (branch s')) (setHash H n) ->
  leafHashes (binTree (branch s')) = take (hashesIndex s') hashes ->
  hashesIndex s' <= length hashes ->
  Inv hashes s'.
Proof.
  intros HI Hc Hn Hbt Hcur Hd Hlen Hok Hlv Hhi.
  pose proof (inv_spine _ _ HI) as Hsp. rewrite Hc in Hsp.
  apply spine_inv in Hsp as (n0 & Hn0 & Hhash & Hch & Hsp).
  rewrite Hn in Hn0. injection Hn0 as <-.
  assert (HcNone : hashOf (binTree (branch s)) c = None).
  { unfold hashOf. rewrite Hn. exact Hhash. }
  assert (Hag : agreeOff c (binTree (branch s)) (binTree (branch s'))).
  { rewrite Hbt. apply agreeOff_alter. }
  assert (Hc' : binTree (branch s') !! c = Some (setHash H n)).
  { rewrite Hbt, list_lookup_alter_eq, Hn. reflexivity. }
  assert (HcSome : is_Some (hashOf (binTree (branch s')) c)).
  { unfold hashOf. rewrite Hc'. simpl. eauto. }
  split.
  - rewrite Hcur, Hd. eapply spine_agree; eauto. intros p Hp. eapply childOf_lt; eauto.
  - intros p np Hp Hnp. rewrite Hcur in Hp. rewrite Hp in Hch.
    destruct Hch as (np0 & Hnp0 & Hlt & Hkind).
    assert (np = np0) as ->.
    { assert (binTree (branch s') !! p = Some np0) by (apply Hag; [exact Hnp0 | lia]). congruence. }
    unfold currentOK. rewrite Hbt, length_alter, <- Hbt.
    destruct Hkind as [[HL HR]|(HR & l & HL & Hl)]; rewrite HL, HR.
    + auto.
    + destruct Hl as [lh Hl]. split; [|auto]. exists lh. eapply hashOf_agree; eauto.
  - intros _. rewrite Hbt, length_alter. exact Hlen.
  - intros i n' Hi. rewrite Hbt in Hi. apply lookup_alter_inv in Hi as [(-> & x & Hx & ->)|[Hne Hi]].
    + rewrite Hn in Hx. injection Hx as <-. exact Hok.
    + eapply nodeOK_agree; eauto. eapply (inv_nodes _ _ HI); eauto.
  - intros i n' Hi Hh HL. rewrite Hbt in Hi.
    apply lookup_alter_inv in Hi as [(-> & x & Hx & ->)|[Hne Hi]].
    + discriminate.
    + pose proof (inv_fresh _ _ HI _ _ Hi Hh HL) as Hcur'. congruence.
  - exact Hlv.
  - exact Hhi.
  - intros i n' Hi Hh. rewrite Hcur.
    destruct (decide (i = c)) as [->|Hne].
    { rewrite Hc' in Hi. injection Hi as <-. discriminate. }
    assert (Hi0 : binTree (branch s) !! i = Some n').
    { rewrite Hbt, list_lookup_alter_ne in Hi by auto. exact Hi. }
    pose proof (inv_pending _ _ HI _ _ Hi0 Hh) as Hon. rewrite Hc in Hon.
    apply onSpine_inv in Hon as [?|(n0 & Hn0 & Hon)]; [contradiction|].
    rewrite Hn in Hn0. injection Hn0 as <-.
    eapply onSpine_keep; [|exact Hon]. eapply keep_agree; eauto.
  - intros i n' Hi HP. rewrite Hbt in Hi.
    apply lookup_alter_inv in Hi as [(-> & x & Hx & ->)|[Hne Hi]].
    + eapply (inv_root _ _ HI); eauto.
    + eapply (inv_root _ _ HI); eauto.
Qed.



(** A node gets a new child and the walk goes down to it. *)
Lemma Inv_descend s s' c n f :
  Inv hashes s ->
  current s = Some c -> binTree (branch s) !! c = Some n ->
  Hash (f n) = Hash n -> Parent (f n) = Parent n -> is_Some (Left (f n)) ->
  ((Left (f n) = Some (length (binTree (branch s))) /\ Right (f n) = None) \/
   (Right (f n) = Some (length (binTree (branch s))) /\
    exists l, Left (f n) = Some l /\ is_Some (hashOf (binTree (branch s)) l))) ->
  binTree (branch s') = alter f c (binTree (branch s) ++ [NewBinTree (Some c)]) ->
  current s' = Some (length (binTree (branch s))) ->
  depth s' = (depth s + 1)%Z ->
  length (binTree (branch s)) = vbitsIndex s' ->
  hashesIndex s' = hashesIndex s ->
  Inv hashes s'.
Proof.
  intros HI Hc Hn HfH HfP HfL Hkind Hbt Hcur Hd Hlen Hhi.
  pose proof (inv_spine _ _ HI) as Hsp. rewrite Hc in Hsp.
  apply spine_inv in Hsp as (n0 & Hn0 & Hhash & Hch & Hsp).
  rewrite Hn in Hn0. injection Hn0 as <-.
  set (bt := binTree (branch s)) in *. set (new := length bt) in *.
  assert (Hclt : c < new) by (eapply lookup_lt_Some; eauto).
  assert (HcNone : hashOf bt c = None).
  { unfold hashOf. rewrite Hn. exact Hhash. }
  assert (Hag : agreeOff c bt (binTree (branch s'))).
  { rewrite Hbt. apply agreeOff_alter_app. }
  assert (Hc' : binTree (branch s') !! c = Some (f n)).
  { rewrite Hbt, list_lookup_alter_eq, lookup_app_l, Hn; auto. }
  assert (Hnew : binTree (branch s') !! new = Some (NewBinTree (Some c))).
  { rewrite Hbt, list_lookup_alter_ne by lia. rewrite lookup_app_r by (unfold new; lia).
    replace (new - length bt) with 0 by (unfold new; lia). reflexivity. }
  assert (Hlen' : length (binTree (branch s')) = S new).
  { rewrite Hbt, length_alter, length_app. simpl. unfold new. lia. }
  assert (Hlook : forall i n', binTree (branch s') !! i = Some n' ->
            (i = c /\ n' = f n) \/ (i = new /\ n' = NewBinTree (Some c)) \/
            (i <> c /\ bt !! i = Some n')).
  { intros i n' Hi. rewrite Hbt in Hi.
    apply lookup_alter_inv in Hi as [(-> & x & Hx & ->)|[Hne Hi]].
    - left. rewrite lookup_app_l, Hn in Hx by auto. injection Hx as <-. auto.
    - apply lookup_snoc_inv in Hi as [[-> ->]|[_ Hi]]; auto. }
  split.
  - rewrite Hcur, Hd. econstructor; [exact Hnew|reflexivity| |].
    + simpl. exists (f n). split; [exact Hc'|]. split; [exact Hclt|].
      destruct Hkind as [?|(HR & l & HL & lh & Hl)]; [left; auto|].
      right. split; [exact HR|]. exists l. split; [exact HL|]. exists lh.
      eapply hashOf_agree; eauto.
    + simpl. replace (depth s + 1 - 1)%Z with (depth s) by lia.
      econstructor; [exact Hc'|congruence| |].
      * rewrite HfP. eapply childOf_agree; eauto.
        intros p Hp. pose proof (childOf_lt _ _ _ _ Hch Hp). lia.
      * rewrite HfP. eapply spine_agree; eauto. intros p Hp. eapply childOf_lt; eauto.
  - intros i n' Hi Hn'. rewrite Hcur in Hi. injection Hi as <-.
    rewrite Hnew in Hn'. injection Hn' as <-. unfold currentOK. simpl.
    rewrite Hlen'. split; [reflexivity|]. unfold new. lia.
  - rewrite Hcur. discriminate.
  - intros i n' Hi. apply Hlook in Hi as [[-> ->]|[[-> ->]|[Hne Hi]]].
    + intros h Hh. congruence.
    + intros h Hh. discriminate.
    + eapply nodeOK_agree; eauto. eapply (inv_nodes _ _ HI); eauto.
  - intros i n' Hi Hh HL. apply Hlook in Hi as [[-> ->]|[[-> ->]|[Hne Hi]]].
    + destruct HfL as [? HfL]. congruence.
    + exact Hcur.
    + pose proof (inv_fresh _ _ HI _ _ Hi Hh HL) as Hcur'. congruence.
  - rewrite Hbt, Hhi, <- (inv_leaves _ _ HI). unfold leafHashes.
    rewrite omap_alter_same, omap_app_None; [reflexivity|reflexivity|].
    intros x Hx. rewrite lookup_app_l, Hn in Hx by auto. injection Hx as <-.
    unfold leafHash. rewrite HfH, Hhash. destruct HfL as [? ->]. simpl.
    destruct (isNil (Left n)); reflexivity.
  - rewrite Hhi. apply (inv_hashesIndex _ _ HI).
  - intros i n' Hi Hh. rewrite Hcur.
    apply Hlook in Hi as [[-> ->]|[[-> ->]|[Hne Hi]]].
    + econstructor; [exact Hnew|]. constructor.
    + constructor.
    + econstructor; [exact Hnew|]. simpl.
      pose proof (inv_pending _ _ HI _ _ Hi Hh) as Hon. rewrite Hc in Hon.
      eapply onSpine_keep; [|exact Hon]. eapply keep_agree; eauto.
  - intros i n' Hi HP. apply Hlook in Hi as [[-> ->]|[[-> ->]|[Hne Hi]]].
    + rewrite HfP in HP. eapply (inv_root _ _ HI); eauto.
    + discriminate.
    + eapply (inv_root _ _ HI); eauto.
Qed.

Lemma Inv_start : Inv hashes start.
Proof.
  split; simpl.
  - econstructor; [reflexivity|reflexivity|simpl; auto|constructor].
  - intros c n [= <-] [= <-]. unfold currentOK. simpl. auto.
  - discriminate.
  - intros [|i] n Hi; [|destruct i; discriminate]. injection Hi as <-. intros h Hh. discriminate.
  - intros [|i] n Hi; [reflexivity|destruct i; discriminate].
  - reflexivity.
  - lia.
  - intros [|i] n Hi _; [constructor|destruct i; discriminate].
  - intros [|i] n Hi _; [reflexivity|destruct i; discriminate].
Qed.



Lemma Inv_current_node s c :
  Inv hashes s -> current s = Some c ->
  exists n, binTree (branch s) !! c = Some n /\ Hash n = None /\
            currentOK (binTree (branch s)) (vbitsIndex s) c n.
Proof.
  intros HI Hc. pose proof (inv_spine _ _ HI) as Hsp. rewrite Hc in Hsp.
  apply spine_inv in Hsp as (n & Hn & Hh & _). exists n.
  split; [exact Hn|]. split; [exact Hh|]. eapply inv_current; eauto.
Qed.

Lemma Inv_goRight s c n l :
  Inv hashes s ->
  current s = Some c -> binTree (branch s) !! c = Some n ->
  Left n = Some l -> Right n = None ->
  Inv hashes (goRight s c).
Proof.
  intros HI Hc Hn HL HR.
  pose proof (inv_current _ _ HI _ _ Hc Hn) as Hok.
  unfold currentOK in Hok. rewrite HL, HR in Hok. destruct Hok as [Hl Hlen].
  eapply (Inv_descend s (goRight s c) c n (setRight (length (binTree (branch s)))));
    eauto; simpl; eauto.
Qed.

Lemma Inv_visitNode s s1 c n :
  Inv hashes s ->
  current s = Some c -> binTree (branch s) !! c = Some n -> Left n = None ->
  visitNode vbits hashes height s = inr s1 ->
  Inv hashes (bump s1).
Proof.
  intros HI Hc Hn HL Hv.
  destruct (Inv_current_node _ _ HI Hc) as (n0 & Hn0 & Hh & Hok).
  rewrite Hn in Hn0. injection Hn0 as <-.
  unfold currentOK in Hok. rewrite HL in Hok.
  destruct (Right n) as [r|] eqn:HR; [contradiction|]. destruct Hok as [Hlast Hlen].
  apply visitNode_inr in Hv as (flag & c' & n' & Hflag & Hc' & Hn' & Hvi & Hcase).
  rewrite Hc in Hc'. injection Hc' as <-. rewrite Hn in Hn'. injection Hn' as <-.
  destruct Hcase as [(_ & h & Hh' & Hbt & _ & Hcur & Hhi & Hd)|(_ & Hbt & _ & Hcur & Hhi & Hd)].
  - eapply (Inv_ascend s (bump s1) c n h); eauto; simpl.
    + lia.
    + intros h0 _. simpl. rewrite HL, HR. exact I.
    + rewrite Hbt, Hhi. unfold leafHashes.
      erewrite omap_alter_last; eauto.
      * fold (leafHashes (binTree (branch s))). rewrite (inv_leaves _ _ HI).
        symmetry. apply take_S_r. exact Hh'.
      * unfold leafHash. rewrite HL. exact Hh.
      * unfold leafHash. simpl. rewrite HL. reflexivity.
    + rewrite Hhi. apply lookup_lt_Some in Hh'. lia.
  - eapply (Inv_descend s (bump s1) c n); eauto; simpl; eauto.
    lia.
Qed.

Lemma Inv_goUp s s' c n l r :
  Inv hashes s ->
  current s = Some c -> binTree (branch s) !! c = Some n ->
  Left n = Some l -> Right n = Some r ->
  goUp s c n l r = inr s' ->
  Inv hashes s'.
Proof.
  intros HI Hc Hn HL HR Hg.
  destruct (Inv_current_node _ _ HI Hc) as (n0 & Hn0 & Hh & Hok).
  rewrite Hn in Hn0. injection Hn0 as <-.
  unfold currentOK in Hok. rewrite HL, HR in Hok.
  destruct Hok as ([lh Hlh] & [rh Hrh] & Hlen).
  apply (goUp_inr _ _ _ _ _ _ Hn) in Hg
    as (m' & <- & Hcur & Hvi & Hhi & Hd & _ & Hm).
  rewrite Hh in Hm. destruct Hm as (nl & nr & Hnl & Hnr & Hbt).
  assert (Hash nl = Some lh) as Hnl'.
  { unfold hashOf in Hlh. rewrite Hnl in Hlh. exact Hlh. }
  assert (Hash nr = Some rh) as Hnr'.
  { unfold hashOf in Hrh. rewrite Hnr in Hrh. exact Hrh. }
  rewrite Hnl', Hnr' in Hbt. simpl in Hbt.
  assert (HcNone : hashOf (binTree (branch s)) c = None).
  { unfold hashOf. rewrite Hn. exact Hh. }
  eapply (Inv_ascend s s' c n (doubleSha256 (lh ++ rh))); eauto.
  - lia.
  - intros h0 [= <-]. simpl. rewrite HL, HR. exists lh, rh.
    split; [|split; [|reflexivity]]; rewrite Hbt;
      eapply hashOf_agree; eauto using agreeOff_alter.
  - rewrite Hbt, Hhi, <- (inv_leaves _ _ HI). unfold leafHashes.
    apply omap_alter_same. intros x Hx. rewrite Hn in Hx. injection Hx as <-.
    unfold leafHash. simpl. rewrite HL. reflexivity.
  - rewrite Hhi. apply (inv_hashesIndex _ _ HI).
Qed.

Lemma Inv_goRight_current s c n :
  binTree (branch s) !! c = Some n ->
  current (goRight s c) = Some (length (binTree (branch s))) /\
  binTree (branch (goRight s c)) !! length (binTree (branch s)) = Some (NewBinTree (Some c)).
Proof.
  intros Hn. split; [reflexivity|]. simpl.
  rewrite list_lookup_alter_ne, lookup_app_r by (apply lookup_lt_Some in Hn; lia).
  rewrite Nat.sub_diag. reflexivity.
Qed.

Lemma Inv_visit s s' c n :
  Inv hashes s ->
  current s = Some c -> binTree (branch s) !! c = Some n -> Left n = None ->
  visit vbits hashes height s = inr s' ->
  Inv hashes s' /\ flagLeft vbits s'.
Proof.
  intros HI Hc Hn HL Hv. apply visit_inr in Hv as (s1 & Hs1 & -> & Hlt).
  split; [eapply Inv_visitNode; eauto|].
  apply visitNode_inr in Hs1 as (? & ? & ? & _ & _ & _ & Hv & _).
  right. simpl. lia.
Qed.

Lemma Inv_iteration s s' :
  Inv hashes s -> flagLeft vbits s ->
  iteration vbits hashes height s = inr s' ->
  Inv hashes s' /\ flagLeft vbits s'.
Proof.
  intros HI HF Hit.
  apply iteration_inr in Hit as (_ & c & n & Hc & Hn & Hcase).
  destruct Hcase as [(l & r & HL & HR & Hg)|[(l & HL & HR & Hv)|(HL & Hv)]].
  - split; [eapply Inv_goUp; eauto|].
    apply (goUp_inr _ _ _ _ _ _ Hn) in Hg as (m' & _ & _ & Hvi & _).
    unfold flagLeft. rewrite Hvi. exact HF.
  - pose proof (Inv_goRight _ _ _ _ HI Hc Hn HL HR) as HI'.
    destruct (Inv_goRight_current s c n Hn) as [Hc' Hn'].
    eapply Inv_visit; eauto.
  - eapply Inv_visit; eauto.
Qed.

Lemma reachable_Inv s :
  reachable vbits hashes height s -> Inv hashes s /\ flagLeft vbits s.
Proof.
  induction 1 as [|s s' _ [HI HF] Hit].
  - split; [apply Inv_start|left; reflexivity].
  - eapply Inv_iteration; eauto.
Qed.

(** *** Termination *)

Lemma potential_decreases s s' :
  Inv hashes s ->
  iteration vbits hashes height s = inr s' ->
  potential vbits s' < potential vbits s.
Proof.
  intros HI Hit.
  apply iteration_inr in Hit as (_ & c & n & Hc & Hn & Hcase).
  pose proof (inv_spine _ _ HI) as Hsp. rewrite Hc in Hsp.
  apply spine_Some_depth in Hsp. unfold potential.
  destruct Hcase as [(l & r & HL & HR & Hg)|[(l & HL & HR & Hv)|(HL & Hv)]].
  - apply (goUp_inr _ _ _ _ _ _ Hn) in Hg as (m' & _ & _ & Hvi & _ & Hd & _).
    rewrite Hvi, Hd. lia.
  - apply visit_inr in Hv as (s1 & Hs1 & -> & Hlt).
    apply visitNode_inr in Hs1 as (flag & c' & n' & _ & _ & _ & Hvi & Hcase).
    simpl in *. rewrite Hvi.
    destruct Hcase as [(_ & h & _ & _ & _ & _ & _ & Hd)|(_ & _ & _ & _ & _ & Hd)];
      rewrite Hd; lia.
  - apply visit_inr in Hv as (s1 & Hs1 & -> & Hlt).
    apply visitNode_inr in Hs1 as (flag & c' & n' & _ & _ & _ & Hvi & Hcase).
    simpl. rewrite Hvi.
    destruct Hcase as [(_ & h & _ & _ & _ & _ & _ & Hd)|(_ & _ & _ & _ & _ & Hd)];
      rewrite Hd; lia.
Qed.

Lemma loop_terminates fuel s :
  Inv hashes s -> flagLeft vbits s -> potential vbits s < fuel ->
  exists e, loop fuel vbits hashes height s = Exited e.
Proof.
  revert s. induction fuel as [|fuel IH]; intros s HI HF Hp; [lia|].
  simpl. destruct (iteration vbits hashes height s) as [e|s'] eqn:Hit; [eauto|].
  destruct (Inv_iteration _ _ HI HF Hit) as [HI' HF'].
  apply IH; auto.
  pose proof (potential_decreases _ _ HI Hit). lia.
Qed.

(** [CreateMerkleBranch] returns or panics on every input: the loop ends
    within [turns vbits] turns. *)
Lemma CreateMerkleBranch_terminates :
  exists e, CreateMerkleBranch vbits hashes height = Exited e.
Proof.
  apply loop_terminates; [apply Inv_start|left; reflexivity|].
  unfold potential, turns. simpl. lia.
Qed.

Lemma loop_more fuel extra s e :
  loop fuel vbits hashes height s = Exited e ->
  loop (fuel + extra) vbits hashes height s = Exited e.
Proof.
  revert s. induction fuel as [|fuel IH]; intros s; simpl; [discriminate|].
  destruct (iteration vbits hashes height s); auto.
Qed.

Lemma loop_exit fuel s e :
  reachable vbits hashes height s ->
  loop fuel vbits hashes height s = Exited e ->
  exists s', reachable vbits hashes height s' /\ iteration vbits hashes height s' = inl e.
Proof.
  revert s. induction fuel as [|fuel IH]; intros s Hr; simpl; [discriminate|].
  destruct (iteration vbits hashes height s) as [e'|s'] eqn:Hit.
  - intros [= <-]. eauto.
  - apply IH. econstructor; eauto.
Qed.

(** The state in which the call leaves the loop. *)
Lemma CreateMerkleBranch_exit e :
  CreateMerkleBranch vbits hashes height = Exited e ->
  exists s, reachable vbits hashes height s /\ iteration vbits hashes height s = inl e.
Proof. apply loop_exit. constructor. Qed.

Lemma reachable_loop s :
  reachable vbits hashes height s ->
  exists k, forall fuel,
    loop (k + fuel) vbits hashes height start = loop fuel vbits hashes height s.
Proof.
  induction 1 as [|s s' Hr [k IH] Hit].
  - exists 0. reflexivity.
  - exists (S k). intros fuel. replace (S k + fuel) with (k + S fuel) by lia.
    rewrite IH. simpl. rewrite Hit. reflexivity.
Qed.

(** The loop is deterministic: a reachable state in which a turn leaves
    the loop gives the result of the call. *)
Lemma reachable_exit s e :
  reachable vbits hashes height s ->
  iteration vbits hashes height s = inl e ->
  CreateMerkleBranch vbits hashes height = Exited e.
Proof.
  intros Hr Hit. destruct (reachable_loop _ Hr) as [k Hk].
  destruct CreateMerkleBranch_terminates as [e' He'].
  rewrite He'. f_equal.
  assert (H1 : loop (k + 1 + turns vbits) vbits hashes height start = Exited e).
  { replace (k + 1 + turns vbits) with (k + (1 + turns vbits)) by lia.
    rewrite Hk. simpl. rewrite Hit. reflexivity. }
  assert (H2 : loop (turns vbits + (k + 1)) vbits hashes height start = Exited e').
  { apply loop_more. exact He'. }
  replace (turns vbits + (k + 1)) with (k + 1 + turns vbits) in H2 by lia.
  congruence.
Qed.



(** *** How a turn leaves the loop *)

#[local] Arguments hashOrNil : simpl never.
#[local] Arguments hashBytes : simpl never.

Lemma hashOrNil_Some m l lh :
  hashOf (binTree m) l = Some lh -> hashOrNil m (Some l) = inr (Some lh).
Proof.
  unfold hashOf, hashOrNil, deref. destruct (binTree m !! l) as [nl|]; [|discriminate].
  simpl. intros ->. reflexivity.
Qed.

Lemma hashBytes_Some m l lh :
  hashOf (binTree m) l = Some lh -> hashBytes m l = inr lh.
Proof.
  unfold hashOf, hashBytes, deref. destruct (binTree m !! l) as [nl|]; [|discriminate].
  simpl. intros ->. reflexivity.
Qed.

(** [finish] in a state of the walk. *)
Lemma finish_Inv s :
  Inv hashes s ->
  match current s with
  | None => finish s = inl (Panicked NilDereference)
  | Some c =>
      exists n, binTree (branch s) !! c = Some n /\ Hash n = None /\
        match Left n, Right n with
        | Some l, Some r =>
            exists lh rh,
              hashOf (binTree (branch s)) l = Some lh /\
              hashOf (binTree (branch s)) r = Some rh /\
              finish s =
                inl (Return (withBranch (update c (setHash (doubleSha256 (lh ++ rh))) (branch s)) s)
                            (doubleSha256 (lh ++ rh)))
        | _, _ => finish s = inl (Fail s ErrNotFinished)
        end
  end.
Proof.
  intros HI. destruct (current s) as [c|] eqn:Hc.
  - destruct (Inv_current_node _ _ HI Hc) as (n & Hn & Hh & Hok).
    exists n. split; [exact Hn|]. split; [exact Hh|].
    unfold currentOK in Hok. unfold finish. rewrite Hc, (deref_Some _ _ _ Hn). simpl.
    destruct (Left n) as [l|], (Right n) as [r|]; try contradiction; simpl.
    + destruct Hok as ([lh Hl] & [rh Hr] & _). exists lh, rh.
      rewrite (hashOrNil_Some _ _ _ Hl). simpl. rewrite (hashOrNil_Some _ _ _ Hr). auto.
    + destruct Hok as ([lh Hl] & _). rewrite (hashOrNil_Some _ _ _ Hl). reflexivity.
    + reflexivity.
  - unfold finish. rewrite Hc. reflexivity.
Qed.

Lemma goUp_Inv s c n l r :
  Inv hashes s ->
  current s = Some c -> binTree (branch s) !! c = Some n ->
  Left n = Some l -> Right n = Some r ->
  exists s', goUp s c n l r = inr s'.
Proof.
  intros HI Hc Hn HL HR.
  pose proof (inv_current _ _ HI _ _ Hc Hn) as Hok.
  unfold currentOK in Hok. rewrite HL, HR in Hok. destruct Hok as ([lh Hl] & [rh Hr] & _).
  unfold goUp. destruct (Hash n); simpl; [eauto|].
  rewrite (hashBytes_Some _ _ _ Hl). simpl. rewrite (hashBytes_Some _ _ _ Hr). simpl. eauto.
Qed.

Lemma visitNode_inl s e c n :
  Inv hashes s -> flagLeft vbits s ->
  current s = Some c -> binTree (branch s) !! c = Some n ->
  hashesIndex s <> length hashes ->
  visitNode vbits hashes height s = inl e ->
  vbits = [] /\ vbitsIndex s = 0 /\ e = Panicked IndexOutOfRange.
Proof.
  intros HI HF Hc Hn Hne. unfold visitNode.
  destruct (vbits !! vbitsIndex s) as [flag|] eqn:Ef.
  - rewrite Hc, (deref_Some _ _ _ Hn). simpl.
    destruct (negb flag || (depth s =? height)%Z); [|discriminate].
    destruct (hashes !! hashesIndex s) as [h|] eqn:Eh; [discriminate|].
    apply lookup_ge_None in Eh. pose proof (inv_hashesIndex _ _ HI). lia.
  - apply lookup_ge_None in Ef. intros [= <-].
    destruct HF as [H0|Hlt]; [|lia].
    rewrite H0 in Ef. destruct vbits; [auto|simpl in Ef; lia].
Qed.

Lemma visit_inl s e c n :
  Inv hashes s -> flagLeft vbits s ->
  current s = Some c -> binTree (branch s) !! c = Some n ->
  hashesIndex s <> length hashes ->
  visit vbits hashes height s = inl e ->
  (vbits = [] /\ vbitsIndex s = 0 /\ e = Panicked IndexOutOfRange) \/
  (exists s1, visitNode vbits hashes height s = inr s1 /\
              e = Fail (bump s1) (ErrVBitsTooShort (length (binTree (branch s1)))
                                                   (S (vbitsIndex s))) /\
              S (vbitsIndex s) = length vbits).
Proof.
  intros HI HF Hc Hn Hne. unfold visit.
  destruct (visitNode vbits hashes height s) as [e'|s1] eqn:E; simpl.
  - intros [= <-]. left. eapply visitNode_inl; eauto.
  - intros H. apply nextFlag_inl in H as [-> Hle]. right. exists s1.
    apply visitNode_inr in E as (flag & ? & ? & Hflag & _ & _ & Hv & _).
    apply lookup_lt_Some in Hflag. rewrite Hv in *. repeat split; auto. lia.
Qed.

(** Every way a turn can leave the loop. *)
Lemma iteration_inl s e :
  Inv hashes s -> flagLeft vbits s ->
  iteration vbits hashes height s = inl e ->
  (hashesIndex s = length hashes /\ finish s = inl e) \/
  (hashesIndex s <> length hashes /\
   ((current s = None /\ e = Panicked NilDereference) \/
    (vbits = [] /\ vbitsIndex s = 0 /\ e = Panicked IndexOutOfRange) \/
    (exists sf, e = Fail sf (ErrVBitsTooShort (length (binTree (branch sf))) (vbitsIndex sf)) /\
                Inv hashes sf /\
                vbitsIndex sf = S (vbitsIndex s) /\ vbitsIndex sf = length vbits))).
Proof.
  intros HI HF. unfold iteration. case_decide as Hh; [auto|].
  intros Hit. right. split; [exact Hh|].
  destruct (current s) as [c|] eqn:Hc; [|left; simpl in Hit; split; congruence].
  destruct (Inv_current_node _ _ HI Hc) as (n & Hn & Hhash & Hok).
  rewrite (deref_Some _ _ _ Hn) in Hit. simpl in Hit. right.
  destruct (Left n) as [l|] eqn:HL; [destruct (Right n) as [r|] eqn:HR|].
  - destruct (goUp_Inv _ _ _ _ _ HI Hc Hn HL HR) as [s' Hs']. congruence.
  - pose proof (Inv_goRight _ _ _ _ HI Hc Hn HL HR) as HI'.
    destruct (Inv_goRight_current s c n Hn) as [Hc' Hn'].
    destruct (visit_inl _ _ _ _ HI' HF Hc' Hn' Hh Hit) as [?|(s1 & Hs1 & -> & Hlen)];
      [left; auto|].
    right. exists (bump s1).
    pose proof Hs1 as Hs1'.
    apply visitNode_inr in Hs1' as (? & ? & ? & _ & _ & _ & Hv & _).
    simpl in *. rewrite Hv.
    split; [reflexivity|]. split; [eapply Inv_visitNode; eauto|]. auto.
  - destruct (visit_inl _ _ _ _ HI HF Hc Hn Hh Hit) as [?|(s1 & Hs1 & -> & Hlen)];
      [left; auto|].
    right. exists (bump s1).
    pose proof Hs1 as Hs1'.
    apply visitNode_inr in Hs1' as (? & ? & ? & _ & _ & _ & Hv & _).
    simpl in *. rewrite Hv.
    split; [reflexivity|]. split; [eapply Inv_visitNode; eauto|]. auto.
Qed.

End Walk.

Section Exits.
Context (vbits : list bool) (hashes : list (list byte)) (height : Z).

Lemma writeOnce_refl s : writeOnce s s.
Proof. intros j h H. exact H. Qed.

Lemma writeOnce_trans s1 s2 s3 : writeOnce s1 s2 -> writeOnce s2 s3 -> writeOnce s1 s3.
Proof. intros H1 H2 j h H. apply H2, H1, H. Qed.

Lemma writeOnce_agree c s s' :
  agreeOff c (binTree (branch s)) (binTree (branch s')) ->
  hashOf (binTree (branch s)) c = None ->
  writeOnce s s'.
Proof. intros Hag Hc j h H. eapply hashOf_agree; eauto. Qed.

Lemma Inv_current_unhashed s c :
  Inv hashes s -> current s = Some c -> hashOf (binTree (branch s)) c = None.
Proof.
  intros HI Hc. destruct (Inv_current_node _ _ _ HI Hc) as (n & Hn & Hh & _).
  unfold hashOf. rewrite Hn. exact Hh.
Qed.

Lemma goRight_writeOnce s c :
  Inv hashes s -> current s = Some c -> writeOnce s (goRight s c).
Proof.
  intros HI Hc. apply (writeOnce_agree c); [|eapply Inv_current_unhashed; eauto].
  simpl. apply agreeOff_alter_app.
Qed.

Lemma visitNode_writeOnce s s1 :
  Inv hashes s -> visitNode vbits hashes height s = inr s1 -> writeOnce s s1.
Proof.
  intros HI Hv.
  apply visitNode_inr in Hv as (flag & c & n & _ & Hc & Hn & _ & Hcase).
  apply (writeOnce_agree c); [|eapply Inv_current_unhashed; eauto].
  destruct Hcase as [(_ & h & _ & -> & _)|(_ & -> & _)].
  - apply agreeOff_alter.
  - apply agreeOff_alter_app.
Qed.

Lemma goUp_writeOnce s s' c n l r :
  Inv hashes s -> current s = Some c -> binTree (branch s) !! c = Some n ->
  goUp s c n l r = inr s' -> writeOnce s s'.
Proof.
  intros HI Hc Hn Hg.
  apply (goUp_inr _ _ _ _ _ _ Hn) in Hg as (m' & <- & _ & _ & _ & _ & _ & Hm).
  destruct (Hash n).
  - intros j h. rewrite Hm. auto.
  - destruct Hm as (nl & nr & _ & _ & Hbt).
    apply (writeOnce_agree c); [|eapply Inv_current_unhashed; eauto].
    rewrite Hbt. apply agreeOff_alter.
Qed.

(** The state [finish] returns from. *)
Lemma finish_Return s sf root :
  Inv hashes s -> finish s = inl (Return sf root) ->
  exists c n l r lh rh,
    current s = Some c /\ binTree (branch s) !! c = Some n /\ Hash n = None /\
    Left n = Some l /\ Right n = Some r /\
    hashOf (binTree (branch s)) l = Some lh /\ hashOf (binTree (branch s)) r = Some rh /\
    root = doubleSha256 (lh ++ rh) /\
    sf = withBranch (update c (setHash root) (branch s)) s.
Proof.
  intros HI Hf. pose proof (finish_Inv _ _ HI) as H.
  destruct (current s) as [c|] eqn:Hc; [|congruence].
  destruct H as (n & Hn & Hh & H).
  destruct (Left n) as [l|] eqn:HL; [destruct (Right n) as [r|] eqn:HR|]; try congruence.
  destruct H as (lh & rh & Hl & Hr & H). rewrite H in Hf. injection Hf as <- <-.
  exists c, n, l, r, lh, rh. repeat split; auto.
Qed.

(** The topmost node of the path has no parent and no hash. *)
Lemma spine_top bt o d :
  spine bt o d -> forall c, o = Some c ->
  exists t nt, bt !! t = Some nt /\ Parent nt = None /\ Hash nt = None /\ t <= c.
Proof.
  induction 1 as [|x n d Hx Hn Hch Hsp IH]; intros c Hc; [discriminate|].
  injection Hc as <-. destruct (Parent n) as [p|] eqn:HP.
  - destruct (IH p eq_refl) as (t & nt & Ht & HPt & Hht & Hle).
    destruct Hch as (_ & _ & Hlt & _). exists t, nt. repeat split; auto. lia.
  - exists x, n. auto.
Qed.

(** Where [finish] returns: at the root, with every node hashed and the
    hash of the root returned, or at a node under the root, whose hash is
    returned while the root is left without one. *)
Lemma finish_root s sf root :
  Inv hashes s -> finish s = inl (Return sf root) ->
  (current sf = Some 0 /\ hashOf (binTree (branch sf)) 0 = Some root /\
   forall i n, binTree (branch sf) !! i = Some n -> is_Some (Hash n)) \/
  (exists c, current sf = Some c /\ c <> 0 /\ hashOf (binTree (branch sf)) 0 = None).
Proof.
  intros HI Hf.
  destruct (finish_Return _ _ _ HI Hf)
    as (c & n & l & r & lh & rh & Hc & Hn & Hh & _ & _ & _ & _ & _ & ->).
  unfold withBranch, update. cbn [branch binTree current].
  pose proof (inv_spine _ _ HI) as Hsp.
  destruct (decide (c = 0)) as [->|Hne].
  - left. split; [exact Hc|]. split.
    + unfold hashOf. rewrite list_lookup_alter_eq, Hn. reflexivity.
    + intros i n' Hi. apply lookup_alter_inv in Hi as [(-> & x & Hx & ->)|[Hne Hi]].
      * simpl. eauto.
      * destruct (Hash n') eqn:Hh'; [eauto|]. exfalso.
        pose proof (inv_pending _ _ HI _ _ Hi Hh') as Hon. rewrite Hc in Hon.
        apply onSpine_inv in Hon as [?|(n0 & Hn0 & Hon)]; [contradiction|].
        rewrite Hn in Hn0. injection Hn0 as <-.
        rewrite Hc in Hsp. apply spine_inv in Hsp as (n0 & Hn0 & _ & Hch & _).
        rewrite Hn in Hn0. injection Hn0 as <-.
        destruct (Parent n) as [p|] eqn:HP.
        -- destruct Hch as (? & _ & ? & _). lia.
        -- eapply onSpine_None; eauto.
  - right. exists c. split; [exact Hc|]. split; [exact Hne|].
    destruct (spine_top _ _ _ Hsp c Hc) as (t & nt & Ht & HP & HhT & Hle).
    pose proof (inv_root _ _ HI _ _ Ht HP) as ->.
    unfold hashOf. rewrite list_lookup_alter_ne by auto. rewrite Ht. exact HhT.
Qed.

Lemma finish_Fail s sf e :
  Inv hashes s -> finish s = inl (Fail sf e) -> sf = s /\ e = ErrNotFinished.
Proof.
  intros HI Hf. pose proof (finish_Inv _ _ HI) as H.
  destruct (current s) as [c|] eqn:Hc; [|congruence].
  destruct H as (n & Hn & Hh & H).
  destruct (Left n) as [l|] eqn:HL; [destruct (Right n) as [r|] eqn:HR|];
    try (rewrite H in Hf; injection Hf as <- <-; auto).
  destruct H as (lh & rh & Hl & Hr & H). congruence.
Qed.

Lemma finish_Panicked s p :
  Inv hashes s -> finish s = inl (Panicked p) -> current s = None /\ p = NilDereference.
Proof.
  intros HI Hf. pose proof (finish_Inv _ _ HI) as H.
  destruct (current s) as [c|] eqn:Hc; [|split; congruence].
  destruct H as (n & Hn & Hh & H).
  destruct (Left n) as [l|] eqn:HL; [destruct (Right n) as [r|] eqn:HR|]; try congruence.
  destruct H as (lh & rh & Hl & Hr & H). congruence.
Qed.


Lemma deref_Panicked m p e : deref m p = inl e -> exists k, e = Panicked k.
Proof. unfold deref. repeat case_match; intros [= <-]; eauto. Qed.

Lemma visitNode_Panicked s e :
  visitNode vbits hashes height s = inl e -> exists k, e = Panicked k.
Proof.
  unfold visitNode.
  destruct (vbits !! vbitsIndex s); [|intros [= <-]; eauto].
  destruct (negb b || (depth s =? height)%Z).
  - destruct (hashes !! hashesIndex s); [|intros [= <-]; eauto].
    destruct (deref (branch s) (current s)) as [x|[c n]] eqn:Ed; simpl; [|discriminate].
    intros [= <-]. eapply deref_Panicked; eauto.
  - destruct (deref (branch s) (current s)) as [x|[c n]] eqn:Ed; simpl; [|discriminate].
    intros [= <-]. eapply deref_Panicked; eauto.
Qed.

Lemma countLeaves_leafHashes bt :
  Forall (fun n => Left n = None -> Right n = None /\ is_Some (Hash n)) bt ->
  countLeaves bt = length (leafHashes bt).
Proof.
  unfold leafHashes. induction 1 as [|n bt Hn _ IH]; [reflexivity|].
  rewrite omap_cons. simpl. rewrite IH. unfold isLeaf, leafHash.
  destruct (Left n) as [l|]; simpl; [reflexivity|].
  destruct (Hn eq_refl) as [-> [h ->]]. reflexivity.
Qed.

Lemma hashesOK_Inv s : Inv hashes s -> hashesOK hashes s.
Proof. intros HI. split; [apply (inv_nodes _ _ HI)|apply (inv_leaves _ _ HI)]. Qed.

(** What holds when the loop is left through [return root, nil]. *)
Lemma Return_state s sf root :
  Inv hashes s -> flagLeft vbits s ->
  iteration vbits hashes height s = inl (Return sf root) ->
  hashesOK hashes sf /\ writeOnce s sf /\
  hashesIndex sf = length hashes /\
  leafHashes (binTree (branch sf)) = hashes /\
  countLeaves (binTree (branch sf)) = length hashes /\
  vbitsIndex sf = length (binTree (branch sf)) /\
  vbitsIndex sf < length vbits /\
  exists c n l r lh rh,
    current sf = Some c /\ binTree (branch sf) !! c = Some n /\
    Hash n = Some root /\ Left n = Some l /\ Right n = Some r /\
    hashOf (binTree (branch sf)) l = Some lh /\
    hashOf (binTree (branch sf)) r = Some rh /\
    root = doubleSha256 (lh ++ rh).
Proof.
  intros HI HF Hit.
  destruct (iteration_inl _ _ _ _ _ HI HF Hit) as [[Hh Hf]|(_ & [[_ ?]|[(_ & _ & ?)|(? & ? & _)]])];
    try discriminate.
  destruct (finish_Return _ _ _ HI Hf)
    as (c & n & l & r & lh & rh & Hc & Hn & Hhash & HL & HR & Hl & Hr & -> & ->).
  pose proof (inv_current _ _ HI _ _ Hc Hn) as Hok. unfold currentOK in Hok.
  rewrite HL, HR in Hok. destruct Hok as (_ & _ & Hlen).
  set (root := doubleSha256 (lh ++ rh)).
  set (bt := binTree (branch s)) in *.
  assert (HcNone : hashOf bt c = None) by (unfold hashOf; rewrite Hn; exact Hhash).
  assert (Hag : agreeOff c bt (alter (setHash root) c bt)) by apply agreeOff_alter.
  assert (Hc' : alter (setHash root) c bt !! c = Some (setHash root n)).
  { rewrite list_lookup_alter_eq, Hn. reflexivity. }
  assert (Hlv : leafHashes (alter (setHash root) c bt) = hashes).
  { unfold leafHashes. rewrite omap_alter_same.
    - fold (leafHashes bt). unfold bt. rewrite (inv_leaves _ _ HI), Hh. apply firstn_all.
    - intros x Hx. rewrite Hn in Hx. injection Hx as <-.
      unfold leafHash. simpl. rewrite HL. reflexivity. }
  assert (Hnodes : forall i n', alter (setHash root) c bt !! i = Some n' ->
                     nodeOK (alter (setHash root) c bt) n').
  { intros i n' Hi. apply lookup_alter_inv in Hi as [(-> & x & Hx & ->)|[Hne Hi]].
    - rewrite Hn in Hx. injection Hx as <-. intros h [= <-]. simpl. rewrite HL, HR.
      exists lh, rh. split; [|split; [|reflexivity]]; eapply hashOf_agree; eauto.
    - eapply nodeOK_agree; eauto. eapply (inv_nodes _ _ HI); eauto. }
  unfold hashesOK, withBranch, update.
  cbn [branch binTree hashesIndex vbitsIndex current]. fold bt. repeat split.
  - exact Hnodes.
  - rewrite Hlv, Hh. symmetry. apply firstn_all.
  - eapply writeOnce_agree; eauto.
  - exact Hh.
  - exact Hlv.
  - rewrite countLeaves_leafHashes; [rewrite Hlv; reflexivity|]. apply Forall_lookup.
    intros i n' Hi HL'. split.
    + pose proof (Hnodes _ _ Hi) as Hok.
      apply lookup_alter_inv in Hi as [(-> & x & Hx & ->)|[Hne Hi]].
      * rewrite Hn in Hx. injection Hx as <-. simpl in HL'. congruence.
      * destruct (Hash n') as [h|] eqn:Hh'.
        -- specialize (Hok h Hh'). rewrite HL' in Hok.
           destruct (Right n'); [contradiction|reflexivity].
        -- pose proof (inv_fresh _ _ HI _ _ Hi Hh' HL'). congruence.
    + apply lookup_alter_inv in Hi as [(-> & x & Hx & ->)|[Hne Hi]].
      * simpl. eauto.
      * destruct (Hash n') as [h|] eqn:Hh'; [eauto|].
        pose proof (inv_fresh _ _ HI _ _ Hi Hh' HL'). congruence.
  - rewrite length_alter. symmetry. exact Hlen.
  - destruct HF as [H0|Hlt]; [|exact Hlt].
    apply lookup_lt_Some in Hn. fold bt in Hlen. lia.
  - exists c, (setHash root n), l, r, lh, rh.
    repeat split; auto; eapply hashOf_agree; eauto.
Qed.

(** The hashes of the tree are right in every state of the walk and in
    the state it ends in, and no turn sets a hash for the second time. *)
Lemma hashes_step s s' :
  Inv hashes s -> flagLeft vbits s ->
  after (iteration vbits hashes height s) = Some s' ->
  hashesOK hashes s' /\ writeOnce s s'.
Proof.
  intros HI HF Ha.
  destruct (iteration vbits hashes height s) as [[sf root|sf e|p]|s''] eqn:Hit;
    simpl in Ha; try discriminate; injection Ha as ->.
  - destruct (Return_state _ _ _ HI HF Hit) as (? & ? & _). auto.
  - destruct (iteration_inl _ _ _ _ _ HI HF Hit)
      as [[Hh Hf]|(Hh & [[_ ?]|[(_ & _ & ?)|(sf & He & HIf & _)]])];
      try discriminate.
    + apply (finish_Fail _ _ _ HI) in Hf as [-> _].
      split; [apply hashesOK_Inv; auto|apply writeOnce_refl].
    + injection He as -> ->. split; [apply hashesOK_Inv; auto|].
      clear Hh HIf. unfold iteration in Hit. case_decide; [|].
      * apply (finish_Fail _ _ _ HI) in Hit as [-> _]. apply writeOnce_refl.
      * destruct (current s) as [c|] eqn:Hc; [|discriminate].
        destruct (Inv_current_node _ _ _ HI Hc) as (n & Hn & _).
        rewrite (deref_Some _ _ _ Hn) in Hit. simpl in Hit.
        assert (Hvis : forall t, Inv hashes t ->
                  visit vbits hashes height t = inl (Fail sf (ErrVBitsTooShort
                    (length (binTree (branch sf))) (vbitsIndex sf))) -> writeOnce t sf).
        { intros t Ht. unfold visit.
          destruct (visitNode vbits hashes height t) as [?|s1] eqn:E; simpl; [|].
          - intros [= ->]. apply visitNode_Panicked in E as [? ?]. discriminate.
          - intros Hnf. apply nextFlag_inl in Hnf as [[= -> _] _].
            exact (visitNode_writeOnce t s1 Ht E). }
        destruct (Left n) as [l|] eqn:HL; [destruct (Right n) as [r|] eqn:HR|].
        -- destruct (goUp_Inv _ _ _ _ _ _ HI Hc Hn HL HR) as [? ?]. congruence.
        -- eapply writeOnce_trans; [apply goRight_writeOnce; eauto|].
           apply Hvis; [eapply Inv_goRight; eauto|exact Hit].
        -- apply Hvis; auto.
  - destruct (Inv_iteration _ _ _ _ _ HI HF Hit) as [HI' _].
    split; [apply hashesOK_Inv; auto|].
    apply iteration_inr in Hit as (_ & c & n & Hc & Hn & Hcase).
    destruct Hcase as [(l & r & HL & HR & Hg)|[(l & HL & HR & Hv)|(HL & Hv)]].
    + eapply goUp_writeOnce; eauto.
    + apply visit_inr in Hv as (s1 & Hs1 & -> & _).
      eapply writeOnce_trans; [apply goRight_writeOnce; eauto|].
      refine (visitNode_writeOnce (goRight s c) s1 _ Hs1). eapply Inv_goRight; eauto.
    + apply visit_inr in Hv as (s1 & Hs1 & -> & _).
      exact (visitNode_writeOnce s s1 HI Hs1).
Qed.

End Exits.

(** *** The call as a whole *)

Lemma CreateMerkleBranch_last vbits hashes height e :
  CreateMerkleBranch vbits hashes height = Exited e ->
  exists s, reachable vbits hashes height s /\ Inv hashes s /\ flagLeft vbits s /\
            iteration vbits hashes height s = inl e.
Proof.
  intros H. apply CreateMerkleBranch_exit in H as (s & Hr & Hit).
  destruct (reachable_Inv _ _ _ _ Hr) as [HI HF]. eauto.
Qed.

(** An index outside [binTree] is never dereferenced. *)
Lemma CreateMerkleBranch_no_invalid vbits hashes height :
  CreateMerkleBranch vbits hashes height <> Exited (Panicked InvalidPointer).
Proof.
  intros H. apply CreateMerkleBranch_last in H as (s & _ & HI & HF & Hit).
  destruct (iteration_inl _ _ _ _ _ HI HF Hit)
    as [[_ Hf]|(_ & [[_ ?]|[(_ & _ & ?)|(? & ? & _)]])]; try discriminate.
  apply (finish_Panicked _ _ _ HI) in Hf as [_ ?]. discriminate.
Qed.

(** The call returns the hash of the root only when the hashes run out
    at the root; every node has its hash then.  When they run out at a
    node under the root the call returns as well, and the root has no
    hash. *)
Lemma CreateMerkleBranch_root vbits hashes height sf root :
  CreateMerkleBranch vbits hashes height = Exited (Return sf root) ->
  (current sf = Some 0 /\ hashOf (binTree (branch sf)) 0 = Some root /\
   forall i n, binTree (branch sf) !! i = Some n -> is_Some (Hash n)) \/
  (exists c, current sf = Some c /\ c <> 0 /\ hashOf (binTree (branch sf)) 0 = None).
Proof.
  intros H. apply CreateMerkleBranch_last in H as (s & _ & HI & HF & Hit).
  destruct (iteration_inl _ _ _ _ _ HI HF Hit)
    as [[_ Hf]|(_ & [[_ ?]|[(_ & _ & ?)|(? & ? & _)]])]; try discriminate.
  eapply finish_root; eauto.
Qed.

(** The call succeeds only with a flag left unread; it has then read one
    flag for each node and one hash for each leaf. *)
Lemma success_counts vbits hashes height sf root :
  CreateMerkleBranch vbits hashes height = Exited (Return sf root) ->
  hashesIndex sf = length hashes /\
  countLeaves (binTree (branch sf)) = hashesIndex sf /\
  vbitsIndex sf = length (binTree (branch sf)) /\
  vbitsIndex sf < length vbits.
Proof.
  intros H. apply CreateMerkleBranch_last in H as (s & _ & HI & HF & Hit).
  destruct (Return_state _ _ _ _ _ _ HI HF Hit) as (_ & _ & Hh & _ & Hc & Hv & Hlt & _).
  rewrite Hh. auto.
Qed.

(** The only index that can be out of range is the first flag's. *)
Lemma index_panic_iff vbits hashes height :
  CreateMerkleBranch vbits hashes height = Exited (Panicked IndexOutOfRange) <->
  vbits = [] /\ hashes <> [].
Proof.
  split.
  - intros H. apply CreateMerkleBranch_last in H as (s & _ & HI & HF & Hit).
    destruct (iteration_inl _ _ _ _ _ HI HF Hit)
      as [[_ Hf]|(Hne & [[_ ?]|[(Hv & _ & _)|(? & ? & _)]])]; try discriminate.
    + apply (finish_Panicked _ _ _ HI) in Hf as [_ ?]. discriminate.
    + split; [exact Hv|]. intros ->. pose proof (inv_hashesIndex _ _ HI). simpl in *. lia.
  - intros [-> Hne]. destruct hashes as [|h hs]; [contradiction|]. reflexivity.
Qed.

(** *** Shorter inputs *)

Section Shorter.
Context (vbits : list bool) (hashes : list (list byte)) (height : Z).

Lemma finish_inl s : exists e, finish s = inl e.
Proof.
  unfold finish.
  destruct (deref (branch s) (current s)) as [?|[c n]]; simpl; [eauto|].
  destruct (hashOrNil (branch s) (Left n)) as [?|[lh|]]; simpl; eauto.
  destruct (hashOrNil (branch s) (Right n)) as [?|[rh|]]; simpl; eauto.
Qed.


Lemma visitNode_take_vbits k s :
  vbitsIndex s < k ->
  visitNode (take k vbits) hashes height s = visitNode vbits hashes height s.
Proof. intros Hk. unfold visitNode. rewrite lookup_take_lt by exact Hk. reflexivity. Qed.






Lemma visit_take_vbits k t s' :
  vbitsIndex t < k -> k <= length vbits ->
  visit (take k vbits) hashes height t = inr s' ->
  visit vbits hashes height t = inr s' /\ vbitsIndex s' < k.
Proof.
  intros Hk Hle Hv. apply visit_inr in Hv as (s1 & Hs1 & -> & Hlt).
  rewrite length_take_le in Hlt by exact Hle.
  rewrite visitNode_take_vbits in Hs1 by exact Hk.
  unfold visit. rewrite Hs1. simpl. unfold nextFlag.
  apply visitNode_inr in Hs1 as (? & ? & ? & _ & _ & _ & Hv & _).
  simpl. rewrite Hv. case_decide; [lia|]. split; [reflexivity|]. simpl. lia.
Qed.

Lemma iteration_take_vbits k s s' :
  vbitsIndex s < k -> k <= length vbits ->
  iteration (take k vbits) hashes height s = inr s' ->
  iteration vbits hashes height s = inr s' /\ vbitsIndex s' < k.
Proof.
  intros Hk Hle. unfold iteration. case_decide.
  { destruct (finish_inl s) as [e ->]. discriminate. }
  destruct (deref (branch s) (current s)) as [?|[c n]] eqn:Ed; simpl; [discriminate|].
  apply deref_inr in Ed as [Hc Hn].
  destruct (Left n) as [l|]; [destruct (Right n) as [r|]|].
  - intros Hg. split; [exact Hg|].
    apply (goUp_inr _ _ _ _ _ _ Hn) in Hg as (m' & _ & _ & -> & _). exact Hk.
  - apply visit_take_vbits; auto.
  - apply visit_take_vbits; auto.
Qed.

Lemma reachable_take_vbits k s :
  0 < k -> k <= length vbits ->
  reachable (take k vbits) hashes height s ->
  reachable vbits hashes height s /\ vbitsIndex s < k.
Proof.
  intros Hpos Hle. induction 1 as [|s s' _ [Hr Hk] Hit].
  - split; [constructor|simpl; lia].
  - apply iteration_take_vbits in Hit as [Hit Hk']; auto.
    split; [econstructor; eauto|exact Hk'].
Qed.


End Shorter.

(** * The caller *)

Lemma heightLoop_spec fuel totalTx height :
  (0 <= height)%Z -> (totalTx <= 2 ^ (height + Z.of_nat fuel))%Z ->
  (height = 0 \/ 2 ^ (height - 1) < totalTx)%Z ->
  let h := heightLoop fuel totalTx height in
  (0 <= h /\ totalTx <= 2 ^ h /\ (h = 0 \/ 2 ^ (h - 1) < totalTx))%Z.
Proof.
  revert height. induction fuel as [|fuel IH]; intros height H0 Hfuel Hmin; simpl.
  - rewrite Z.add_0_r in Hfuel. auto.
  - rewrite Z.shiftl_1_l. destruct (Z.ltb_spec (2 ^ height) totalTx) as [Hlt|Hge].
    + apply IH; [lia| |right].
      * replace (height + 1 + Z.of_nat fuel)%Z with (height + Z.of_nat (S fuel))%Z by lia.
        exact Hfuel.
      * replace (height + 1 - 1)%Z with height by lia. exact Hlt.
    + auto.
Qed.

(** The height loop ends for every [uint32] count, with the least height
    whose level holds that many leaves. *)
Lemma treeHeight_spec totalTx :
  (0 <= totalTx < 2 ^ 32)%Z ->
  (0 <= treeHeight totalTx /\ totalTx <= 2 ^ treeHeight totalTx /\
   (treeHeight totalTx = 0 \/ 2 ^ (treeHeight totalTx - 1) < totalTx))%Z.
Proof.
  intros [H0 H32]. apply heightLoop_spec; [lia| |auto].
  simpl. lia.
Qed.

(** A leaf becomes the target exactly when its flag is set and it lies at
    full depth. *)
Lemma visitNode_target vbits hashes height s s1 flag :
  visitNode vbits hashes height s = inr s1 ->
  vbits !! vbitsIndex s = Some flag ->
  target (branch s1) =
    if flag && (depth s =? height)%Z then current s else target (branch s).
Proof.
  intros Hv Hflag.
  apply visitNode_inr in Hv as (flag' & c & n & Hflag' & Hc & _ & _ & Hcase).
  rewrite Hflag in Hflag'. injection Hflag' as <-.
  destruct Hcase as [(_ & h & _ & _ & -> & _)|(Hcond & _ & -> & _)].
  - rewrite Hc. reflexivity.
  - destruct flag; simpl in *; [rewrite Hcond|]; reflexivity.
Qed.

(** The other steps of the walk keep the target. *)
Lemma target_kept hashes s c n l r :
  target (branch (goRight s c)) = target (branch s) /\
  (forall s', goUp s c n l r = inr s' -> target (branch s') = target (branch s)) /\
  (forall sf root, Inv hashes s -> finish s = inl (Return sf root) ->
     target (branch sf) = target (branch s)).
Proof.
  split; [reflexivity|]. split.
  - unfold goUp. intros s'. destruct (Hash n); cbn [bindE].
    + intros [= <-]. reflexivity.
    + destruct (hashBytes (branch s) l); cbn [bindE]; [discriminate|].
      destruct (hashBytes (branch s) r); cbn [bindE]; [discriminate|].
      intros [= <-]. reflexivity.
  - intros sf root HI Hf.
    destruct (finish_Return _ _ _ _ HI Hf)
      as (? & ? & ? & ? & ? & ? & _ & _ & _ & _ & _ & _ & _ & _ & ->).
    reflexivity.
Qed.

(** * The claims about the walk *)

(** C1 (the code fails it): a proof of a single transaction, one hash and
    a flag byte, makes the walk set the root as a leaf, go up to the nil
    parent of the root and dereference it on the next turn: the call
    panics instead of returning the hash. *)
Theorem single_transaction_panics (flag b : bool) (rest : list bool) (h : list byte) :
  treeHeight 1 = 0%Z /\
  CreateMerkleBranch (flag :: b :: rest) [h] 0 = Exited (Panicked NilDereference) /\
  buildMerkleTreeDot 1 (flag :: b :: rest) [h] = DotPanic NilDereference.
Proof.
  assert (H : CreateMerkleBranch (flag :: b :: rest) [h] 0 = Exited (Panicked NilDereference))
    by (destruct flag; reflexivity).
  split; [reflexivity|]. split; [exact H|].
  unfold buildMerkleTreeDot. change (treeHeight 1) with 0%Z. rewrite H. reflexivity.
Qed.

(** The recursive walk of the first main.go returns the hash of the single
    leaf as the root. *)
Lemma Legacy_single_transaction (flag : bool) (rest : list bool) (h : list byte) :
  exists name st,
    Legacy.buildAndDrawPartialTree 0 0 (flag :: rest) [h] 1 0
      {| Legacy.vbitsIndex := 0; Legacy.hashesIndex := 0; Legacy.graph := NewGraph |}
    = inr (h, name, st) /\
    Legacy.vbitsIndex st = 1 /\ Legacy.hashesIndex st = 1.
Proof. eexists _, _. split; [reflexivity|]. split; reflexivity. Qed.

(** C2 (the code fails it): the hashes run out while the walk is at the
    right child of the root, whose two leaves have their hashes; the call
    returns the hash of that node as the root, and the root node itself
    is left without a hash. *)
Theorem inner_node_returned_as_root (x y z : list byte) :
  exists sf,
    CreateMerkleBranch [true; false; true; true; false; false; false; false] [x; y; z] 2
      = Exited (Return sf (doubleSha256 (y ++ z))) /\
    current sf = Some 2 /\
    binTree (branch sf) !! 2 ≫= Parent = Some 0 /\
    hashOf (binTree (branch sf)) 0 = None /\
    hashOf (binTree (branch sf)) 1 = Some x.
Proof.
  eexists. split; [lazy -[doubleSha256]; reflexivity|].
  repeat split; reflexivity.
Qed.

(** On the same proof the recursive walk of the first main.go folds the
    whole tree. *)
Lemma Legacy_root (x y z : list byte) :
  exists name st,
    Legacy.buildAndDrawPartialTree 2 0
      [true; false; true; true; false; false; false; false] [x; y; z] 4 2
      {| Legacy.vbitsIndex := 0; Legacy.hashesIndex := 0; Legacy.graph := NewGraph |}
    = inr (doubleSha256 (x ++ doubleSha256 (y ++ z)), name, st).
Proof. eexists _, _. lazy -[doubleSha256]. reflexivity. Qed.

(** Throughout the walk and in the state the call returns from, a
    node that has a hash and children has the double SHA-256 of its
    children's hashes, which are set; the leaves carry, in the order they
    were made, the input hashes used so far; a step that uses a hash puts
    the next unused one, as it is, into the current node; no turn changes
    a hash that is set; and when the call returns at the root, every
    node has been given its hash. *)
Theorem node_hashes_invariant (vbits : list bool) (hashes : list (list byte)) (height : Z) :
  (forall s, reachable vbits hashes height s ->
     hashesOK hashes s /\
     forall s', after (iteration vbits hashes height s) = Some s' ->
       hashesOK hashes s' /\ writeOnce s s') /\
  (forall sf root, CreateMerkleBranch vbits hashes height = Exited (Return sf root) ->
     hashesOK hashes sf /\ leafHashes (binTree (branch sf)) = hashes /\
     (current sf = Some 0 ->
      forall i n, binTree (branch sf) !! i = Some n -> is_Some (Hash n))) /\
  (forall s s1, visitNode vbits hashes height s = inr s1 ->
     hashesIndex s1 <> hashesIndex s ->
     exists c h, current s = Some c /\ hashes !! hashesIndex s = Some h /\
                 hashesIndex s1 = S (hashesIndex s) /\
                 hashOf (binTree (branch s1)) c = Some h).
Proof.
  split; [|split].
  - intros s Hr. destruct (reachable_Inv _ _ _ _ Hr) as [HI HF].
    split; [apply hashesOK_Inv; exact HI|].
    intros s' Ha. eapply hashes_step; eauto.
  - intros sf root H. pose proof (CreateMerkleBranch_root _ _ _ _ _ H) as Hroot.
    apply CreateMerkleBranch_last in H as (s & _ & HI & HF & Hit).
    destruct (Return_state _ _ _ _ _ _ HI HF Hit) as (? & _ & _ & ? & _).
    split; [assumption|]. split; [assumption|]. intros Hc.
    destruct Hroot as [(_ & _ & Hall)|(c & Hc' & Hne & _)]; [exact Hall|congruence].
  - intros s s1 Hv Hne.
    apply visitNode_inr in Hv as (flag & c & n & _ & Hc & Hn & _ & Hcase).
    destruct Hcase as [(_ & h & Hh & Hbt & _ & _ & Hhi & _)|(_ & _ & _ & _ & Hhi & _)];
      [|congruence].
    exists c, h. repeat split; auto.
    unfold hashOf. rewrite Hbt, list_lookup_alter_eq, Hn. reflexivity.
Qed.

Lemma node_hashes_invariant_witness :
  let vbits := [true; true; false; false; false; false; false; false] in
  let hashes := [sampleHash Byte.x0a; sampleHash Byte.x0b; sampleHash Byte.x0c] in
  (exists s', after (iteration vbits hashes 2 start) = Some s' /\
              hashesOK hashes s' /\ writeOnce start s') /\
  (exists sf root, CreateMerkleBranch vbits hashes 2 = Exited (Return sf root) /\
                   hashesOK hashes sf /\ leafHashes (binTree (branch sf)) = hashes /\
                   forall i n, binTree (branch sf) !! i = Some n -> is_Some (Hash n)) /\
  (exists s1, visitNode vbits hashes 0 start = inr s1 /\
              hashOf (binTree (branch s1)) 0 = Some (sampleHash Byte.x0a)).
Proof.
  intros vbits hashes.
  destruct (node_hashes_invariant vbits hashes 2) as (Hwalk & Hend & _).
  destruct (node_hashes_invariant vbits hashes 0) as (_ & _ & Hleaf).
  split; [|split].
  - destruct (Hwalk start (reach_start _ _ _)) as [_ Hstep].
    eexists. split; [vm_compute; reflexivity|].
    apply Hstep. vm_compute. reflexivity.
  - eexists _, _. split; [vm_compute; reflexivity|].
    match goal with
    | |- hashesOK _ ?sf /\ _ =>
        destruct (Hend sf (doubleSha256 (doubleSha256 (sampleHash Byte.x0a ++ sampleHash Byte.x0b)
                                         ++ sampleHash Byte.x0c)))
          as (Hok & Hlv & Hall); [vm_compute; reflexivity|]
    end.
    split; [exact Hok|]. split; [exact Hlv|]. apply Hall. vm_compute. reflexivity.
  - eexists. split; [vm_compute; reflexivity|].
    match goal with
    | |- hashOf (binTree (branch ?s1)) 0 = _ =>
        destruct (Hleaf start s1) as (c & h & Hc & Hh & _ & Hset)
    end.
    + vm_compute. reflexivity.
    + vm_compute. discriminate.
    + injection Hc as <-. injection Hh as <-. exact Hset.
Defined.

(** The check of lines 88-91 on a list of three flags, which no flag
    byte gives: a complete tree of three nodes whose walk reads exactly
    the three flags is rejected with "expected at least 3 bits, got 3";
    with one more flag, never read, it is accepted. *)
Lemma exact_flags_rejected (a b : list byte) :
  (exists sf,
     CreateMerkleBranch [true; false; false] [a; b] 1
       = Exited (Fail sf (ErrVBitsTooShort 3 3)) /\
     current sf = Some 0 /\ hashOf (binTree (branch sf)) 1 = Some a /\
     hashOf (binTree (branch sf)) 2 = Some b) /\
  errorText (ErrVBitsTooShort 3 3)
    = "vBits is too short, expected at least 3 bits, got 3"%string /\
  (exists sf,
     CreateMerkleBranch [true; false; false; false] [a; b] 1
       = Exited (Return sf (doubleSha256 (a ++ b))) /\
     vbitsIndex sf = 3).
Proof.
  split; [|split].
  - eexists. split; [lazy -[doubleSha256]; reflexivity|]. repeat split; reflexivity.
  - reflexivity.
  - eexists. split; [lazy -[doubleSha256]; reflexivity|]. reflexivity.
Qed.

(** The recursive walk of the first main.go accepts the three flags. *)
Lemma Legacy_exact_flags (a b : list byte) :
  exists name st,
    Legacy.buildAndDrawPartialTree 1 0 [true; false; false] [a; b] 2 1
      {| Legacy.vbitsIndex := 0; Legacy.hashesIndex := 0; Legacy.graph := NewGraph |}
    = inr (doubleSha256 (a ++ b), name, st) /\
    Legacy.vbitsIndex st = 3.
Proof. eexists _, _. split; [lazy -[doubleSha256]; reflexivity|]. reflexivity. Qed.


(** The proof of two leaves without its second hash: the walk is back at
    the root, which has no right child, when the hashes are used up. *)
Lemma shorter_hashes_incomplete (a : list byte) :
  (exists s,
     CreateMerkleBranch [true; false; false; false; false; false; false; false] [a] 1
       = Exited (Fail s ErrNotFinished) /\
     current s = Some 0 /\ hashOf (binTree (branch s)) 1 = Some a) /\
  errorText ErrNotFinished
    = "all hashes is parsed, but tree construction is not finished"%string.
Proof.
  split; [|reflexivity]. eexists. split; [lazy -[doubleSha256]; reflexivity|].
  split; reflexivity.
Qed.

(** C6 (the code fails it): with no flag at all and a hash to place, the
    first turn indexes the empty flag slice and panics. *)
Theorem empty_flags_panic (h : list byte) (hs : list (list byte)) (height : Z) :
  CreateMerkleBranch [] (h :: hs) height = Exited (Panicked IndexOutOfRange).
Proof. reflexivity. Qed.

(** The recursive walk of the first main.go checks before it reads. *)
Lemma Legacy_empty_flags (hashes : list (list byte)) (totalTx : Z) (height : nat) :
  Legacy.buildAndDrawPartialTree height 0 [] hashes totalTx height
    {| Legacy.vbitsIndex := 0; Legacy.hashesIndex := 0; Legacy.graph := NewGraph |}
  = inl Legacy.ErrOutOfFlags.
Proof. destruct height; reflexivity. Qed.

(** C7 (the code fails it): two leaves at full depth with flag 1; the
    second assignment to [m.target] replaces the first, and the graph
    colours the first leaf as a pruned one. *)
Theorem only_last_match_highlighted (a b : list byte) :
  exists g root,
    buildMerkleTreeDot 2 [true; true; true; false; false; false; false; false] [a; b]
      = DotOk g root /\
    fillColors g = [Some "white"; Some "lightblue"; Some "lightcoral"]%string.
Proof.
  eexists _, _. split; [lazy -[doubleSha256]; reflexivity|]. reflexivity.
Qed.

(** The recursive walk of the first main.go colours every leaf by its own
    flag. *)
Lemma Legacy_both_highlighted (a b : list byte) :
  exists g,
    Legacy.buildMerkleTreeDot 2 [true; true; true; false; false; false; false; false] [a; b]
      = inr g /\
    fillColors g = [Some "lightcoral"; Some "lightcoral"; None]%string.
Proof.
  eexists. split; [lazy -[doubleSha256]; reflexivity|]. reflexivity.
Qed.

(** * The decoder *)

Lemma ReadFull_inr n r bs r' :
  ReadFull n r = inr (bs, r') -> r = bs ++ r' /\ length bs = n.
Proof.
  unfold ReadFull. destruct n as [|n].
  - intros [= <- <-]. auto.
  - destruct r as [|b r]; [discriminate|]. case_decide; [discriminate|].
    intros [= <- <-]. split; [symmetry; exact (take_drop (S n) (b :: r))|].
    apply (length_take_le (b :: r) (S n)). lia.
Qed.

Lemma ReadFull_app n r bs r' extra :
  ReadFull n r = inr (bs, r') -> ReadFull n (r ++ extra) = inr (bs, r' ++ extra).
Proof.
  unfold ReadFull. destruct n as [|n]; [intros [= <- <-]; reflexivity|].
  destruct r as [|b r]; [discriminate|].
  case_decide as Hlen; [discriminate|]. intros H.
  change ((b :: r) ++ extra) with (b :: (r ++ extra)). cbv iota.
  case_decide as Hlen'; [simpl in Hlen, Hlen'; rewrite length_app in Hlen'; lia|].
  change (b :: (r ++ extra)) with ((b :: r) ++ extra).
  rewrite take_app_le, drop_app_le by (simpl in *; lia).
  injection H as <- <-. reflexivity.
Qed.

Lemma readUint_inr n r v r' :
  readUint n r = inr (v, r') -> exists bs, r = bs ++ r' /\ length bs = n /\ v = littleEndian bs.
Proof.
  unfold readUint. destruct (ReadFull n r) as [?|[bs r0]] eqn:E; [discriminate|].
  intros [= <- <-]. apply ReadFull_inr in E as [-> <-]. eauto.
Qed.

Lemma readUint_app n r v r' extra :
  readUint n r = inr (v, r') -> readUint n (r ++ extra) = inr (v, r' ++ extra).
Proof.
  unfold readUint. destruct (ReadFull n r) as [?|[bs r0]] eqn:E; [discriminate|].
  intros [= <- <-]. rewrite (ReadFull_app _ _ _ _ extra E). reflexivity.
Qed.

Lemma readVarInt_inr r v r' :
  readVarInt r = inr (v, r') -> exists bs, r = bs ++ r'.
Proof.
  unfold readVarInt. destruct (readUint 1 r) as [?|[d r1]] eqn:E; [discriminate|].
  apply readUint_inr in E as (bs1 & -> & _ & _).
  repeat case_match; intros Hv;
    try (apply readUint_inr in Hv as (bs2 & -> & _ & _); exists (bs1 ++ bs2);
         rewrite <- app_assoc; reflexivity).
  injection Hv as <- <-. eauto.
Qed.

Lemma readVarInt_app r v r' extra :
  readVarInt r = inr (v, r') -> readVarInt (r ++ extra) = inr (v, r' ++ extra).
Proof.
  unfold readVarInt. destruct (readUint 1 r) as [?|[d r1]] eqn:E; [discriminate|].
  rewrite (readUint_app _ _ _ _ extra E).
  repeat case_match; intros Hv; try (apply readUint_app; exact Hv).
  injection Hv as <- <-. reflexivity.
Qed.

Lemma readHashes_inr count i r hs r' :
  readHashes count i r = inr (hs, r') ->
  r = concat hs ++ r' /\ length hs = count /\ Forall (fun h => length h = 32) hs.
Proof.
  revert i r hs. induction count as [|count IH]; intros i r hs; cbn [readHashes].
  - intros [= <- <-]. auto.
  - destruct (ReadFull 32 r) as [?|[h r1]] eqn:E; [discriminate|].
    destruct (readHashes count (i + 1) r1) as [?|[hs' r2]] eqn:E'; [discriminate|].
    intros [= <- <-]. apply ReadFull_inr in E as [-> Hh].
    apply IH in E' as (-> & <- & Hall). simpl. rewrite <- app_assoc. auto.
Qed.

Lemma readHashes_app count i r hs r' extra :
  readHashes count i r = inr (hs, r') ->
  readHashes count i (r ++ extra) = inr (hs, r' ++ extra).
Proof.
  revert i r hs. induction count as [|count IH]; intros i r hs; cbn [readHashes].
  - intros [= <- <-]. reflexivity.
  - destruct (ReadFull 32 r) as [?|[h r1]] eqn:E; [discriminate|].
    destruct (readHashes count (i + 1) r1) as [?|[hs' r2]] eqn:E'; [discriminate|].
    intros [= <- <-]. rewrite (ReadFull_app _ _ _ _ extra E), (IH _ _ _ E'). reflexivity.
Qed.

Lemma readVarInt_cons d rest :
  readVarInt (d :: rest) =
    if (Byte.to_N d =? 0xfd)%N then readUint 2 rest
    else if (Byte.to_N d =? 0xfe)%N then readUint 4 rest
    else if (Byte.to_N d =? 0xff)%N then readUint 8 rest
    else inr (Byte.to_N d, rest).
Proof.
  unfold readVarInt. change (readUint 1 (d :: rest)) with (@inr IOError _ (littleEndian [d], rest)).
  cbn [littleEndian]. rewrite N.mul_0_r, N.add_0_r. reflexivity.
Qed.

Lemma isSet_testbit b i : isSet b i = N.testbit (Byte.to_N b) (N.of_nat i).
Proof.
  unfold isSet. rewrite N.testbit_odd, <- N.bit0_odd, N.bit0_eqb.
  change 1%N with (N.ones 1) at 1. rewrite N.land_ones. reflexivity.
Qed.

Lemma unpackBits_app flags vBits :
  unpackBits flags vBits = flags ++ unpackBits [] vBits.
Proof.
  revert flags. induction vBits as [|b vBits IH]; intros flags; simpl.
  - rewrite app_nil_r. reflexivity.
  - rewrite IH, (IH (unpackByte b)), app_assoc. reflexivity.
Qed.

Lemma unpackBits_cons b vBits :
  unpackBits [] (b :: vBits) = unpackByte b ++ unpackBits [] vBits.
Proof. simpl. apply unpackBits_app. Qed.

Lemma unpackBits_length vBits : length (unpackBits [] vBits) = 8 * length vBits.
Proof.
  induction vBits as [|b vBits IH]; [reflexivity|].
  rewrite unpackBits_cons, length_app, IH. simpl. lia.
Qed.

Lemma unpackBits_lookup vBits k i b :
  vBits !! k = Some b -> i < 8 ->
  unpackBits [] vBits !! (8 * k + i) = Some (isSet b i).
Proof.
  revert k. induction vBits as [|b0 vBits IH]; intros k Hk Hi; [discriminate|].
  rewrite unpackBits_cons. destruct k as [|k].
  - injection Hk as ->. rewrite lookup_app_l by (simpl; lia).
    unfold unpackByte. rewrite list_lookup_fmap, lookup_seq_lt by lia. reflexivity.
  - rewrite lookup_app_r by (simpl; lia).
    replace (8 * S k + i - length (unpackByte b0)) with (8 * k + i) by (simpl; lia).
    apply IH; auto.
Qed.

Lemma unpackBits_snoc vBits b :
  unpackBits [] (vBits ++ [b]) = unpackBits [] vBits ++ unpackByte b.
Proof.
  induction vBits as [|x vBits IH].
  - reflexivity.
  - change ((x :: vBits) ++ [b]) with (x :: (vBits ++ [b])).
    rewrite !unpackBits_cons, IH, app_assoc. reflexivity.
Qed.

(** Taking the last flag byte off is taking its eight flags off. *)
Lemma dropLastFlagByte_unpackBits vBits :
  dropLastFlagByte (unpackBits [] vBits) = unpackBits [] (dropLast vBits).
Proof.
  destruct (decide (vBits = [])) as [->|Hne]; [reflexivity|].
  destruct (exists_last Hne) as (l & b & ->).
  unfold dropLastFlagByte, dropLast.
  rewrite unpackBits_snoc, !length_app, unpackBits_length. simpl.
  replace (length l + 1 - 1) with (length l) by lia.
  rewrite take_app_length.
  apply take_app_length'. rewrite unpackBits_length. lia.
Qed.

Lemma sampleProof_decodes :
  decodeTxOutProofData sampleProof zeroBlockHeader zeroMerkleProofData
  = inr ({| Version := 1; PrevBlockHash := repeat Byte.x11 32;
            MerkleRoot := repeat Byte.x22 32;
            Timestamp := 0x4d10432e; Bits := 0x1d00ffff; Nonce := 0x02526821 |},
         {| TotalTransactions := 2; HashNum := 2;
            Hashes := [sampleHash Byte.x0a; sampleHash Byte.x0b];
            VBitsNum := 1;
            VBits := [true; false; false; false; false; false; false; false] |}).
Proof. vm_compute. reflexivity. Qed.

(** The sample proof, from its bytes to the graph. *)
Lemma sampleProof_tree :
  exists hdr pd g,
    decodeTxOutProofData sampleProof zeroBlockHeader zeroMerkleProofData = inr (hdr, pd) /\
    buildMerkleTreeDot (Z.of_N (TotalTransactions pd)) (VBits pd) (Hashes pd)
      = DotOk g (doubleSha256 (sampleHash Byte.x0a ++ sampleHash Byte.x0b)) /\
    fillColors g = [Some "white"; Some "lightblue"; Some "lightblue"]%string.
Proof.
  eexists _, _, _. split; [exact sampleProof_decodes|].
  split; vm_compute; reflexivity.
Qed.

(** * The claims about the decoder *)

(** C8: [readVarInt] returns a discriminant below 0xfd as the value, and
    after 0xfd, 0xfe and 0xff the little-endian value of the next two,
    four and eight bytes, whatever that value is. *)
Theorem readVarInt_decodes :
  (forall d rest, (Byte.to_N d < 0xfd)%N -> readVarInt (d :: rest) = inr (Byte.to_N d, rest)) /\
  (forall b0 b1 rest,
     readVarInt (Byte.xfd :: b0 :: b1 :: rest)
     = inr (Byte.to_N b0 + 2 ^ 8 * Byte.to_N b1, rest)%N) /\
  (forall b0 b1 b2 b3 rest,
     readVarInt (Byte.xfe :: b0 :: b1 :: b2 :: b3 :: rest)
     = inr (Byte.to_N b0 + 2 ^ 8 * Byte.to_N b1 + 2 ^ 16 * Byte.to_N b2
            + 2 ^ 24 * Byte.to_N b3, rest)%N) /\
  (forall b0 b1 b2 b3 b4 b5 b6 b7 rest,
     readVarInt (Byte.xff :: b0 :: b1 :: b2 :: b3 :: b4 :: b5 :: b6 :: b7 :: rest)
     = inr (Byte.to_N b0 + 2 ^ 8 * Byte.to_N b1 + 2 ^ 16 * Byte.to_N b2
            + 2 ^ 24 * Byte.to_N b3 + 2 ^ 32 * Byte.to_N b4 + 2 ^ 40 * Byte.to_N b5
            + 2 ^ 48 * Byte.to_N b6 + 2 ^ 56 * Byte.to_N b7, rest)%N) /\
  readVarInt [Byte.xfc] = inr (252%N, []) /\
  readVarInt [Byte.xfd; Byte.x00; Byte.x01] = inr (256%N, []) /\
  readVarInt [Byte.xfd; Byte.x01; Byte.x00] = inr (1%N, []).
Proof.
  repeat split; try reflexivity.
  - intros d rest Hd. rewrite readVarInt_cons.
    destruct (N.eqb_spec (Byte.to_N d) 0xfd); [lia|].
    destruct (N.eqb_spec (Byte.to_N d) 0xfe); [lia|].
    destruct (N.eqb_spec (Byte.to_N d) 0xff); [lia|]. reflexivity.
  - intros. rewrite readVarInt_cons. cbn [Byte.to_N N.eqb Pos.eqb].
    change (readUint 2 (b0 :: b1 :: rest)) with (@inr IOError _ (littleEndian [b0; b1], rest)).
    cbn [littleEndian]. do 2 f_equal. lia.
  - intros. rewrite readVarInt_cons. cbn [Byte.to_N N.eqb Pos.eqb].
    change (readUint 4 (b0 :: b1 :: b2 :: b3 :: rest))
      with (@inr IOError _ (littleEndian [b0; b1; b2; b3], rest)).
    cbn [littleEndian]. do 2 f_equal. lia.
  - intros. rewrite readVarInt_cons. cbn [Byte.to_N N.eqb Pos.eqb].
    change (readUint 8 (b0 :: b1 :: b2 :: b3 :: b4 :: b5 :: b6 :: b7 :: rest))
      with (@inr IOError _ (littleEndian [b0; b1; b2; b3; b4; b5; b6; b7], rest)).
    cbn [littleEndian]. do 2 f_equal. lia.
Qed.

Lemma readVarInt_decodes_witness :
  readVarInt [Byte.x2a; Byte.xff] = inr (42%N, [Byte.xff]).
Proof.
  destruct readVarInt_decodes as [Hsmall _].
  apply (Hsmall Byte.x2a [Byte.xff]). vm_compute. reflexivity.
Defined.

(** C9: the decoder turns the [F] flag bytes it reads into [8 * F] flags,
    bit [i] of byte [b] at index [8 * b + i]; the byte 0b00000101 gives
    1,0,1,0,0,0,0,0. *)
Theorem flags_unpacked :
  (forall decodedBytes h0 p0 hdr pd,
     VBits p0 = [] ->
     decodeTxOutProofData decodedBytes h0 p0 = inr (hdr, pd) ->
     exists before vBits rest,
       decodedBytes = before ++ vBits ++ rest /\
       length vBits = N.to_nat (VBitsNum pd) /\
       VBits pd = unpackBits [] vBits /\
       length (VBits pd) = 8 * length vBits /\
       forall b i x, vBits !! b = Some x -> i < 8 ->
         VBits pd !! (8 * b + i) = Some (N.testbit (Byte.to_N x) (N.of_nat i))) /\
  unpackBits [] [Byte.x05] = [true; false; true; false; false; false; false; false].
Proof.
  split; [|reflexivity].
  intros decodedBytes h0 p0 hdr pd Hp0. unfold decodeTxOutProofData.
  destruct (decide (length decodedBytes < 80)) as [|H80]; [discriminate|].
  destruct (readBlockHeader (take 80 decodedBytes)) as [?|[header ?]]; [discriminate|].
  destruct (decide (length (drop 80 decodedBytes) = 0)) as [|Hrem]; [discriminate|].
  destruct (readUint 4 (drop 80 decodedBytes)) as [?|[tt r1]] eqn:E1; [discriminate|].
  destruct (readVarInt r1) as [?|[hashNum r2]] eqn:E2; [discriminate|].
  destruct (readHashes (N.to_nat hashNum) 0 r2) as [?|[hashes r3]] eqn:E3; [discriminate|].
  destruct (readVarInt r3) as [?|[vBitsNum r4]] eqn:E4; [discriminate|].
  apply readUint_inr in E1 as (bs1 & E1 & _).
  apply readVarInt_inr in E2 as (bs2 & ->).
  apply readHashes_inr in E3 as (-> & _).
  apply readVarInt_inr in E4 as (bs4 & ->).
  assert (Hall : decodedBytes
                 = (take 80 decodedBytes ++ bs1 ++ bs2 ++ concat hashes ++ bs4) ++ r4).
  { rewrite <- (take_drop 80 decodedBytes) at 1. rewrite E1.
    rewrite <- !app_assoc. reflexivity. }
  assert (Hbits : forall vBits,
            length (unpackBits [] vBits) = 8 * length vBits /\
            forall b i x, vBits !! b = Some x -> i < 8 ->
              unpackBits [] vBits !! (8 * b + i)
              = Some (N.testbit (Byte.to_N x) (N.of_nat i))).
  { intros vBits. split; [apply unpackBits_length|].
    intros b i x Hb Hi. rewrite <- isSet_testbit. apply unpackBits_lookup; auto. }
  destruct (N.ltb_spec 0 vBitsNum) as [Hpos|Hzero].
  - destruct (ReadFull (N.to_nat vBitsNum) r4) as [?|[vBits r5]] eqn:E5; [discriminate|].
    intros [= <- <-]. apply ReadFull_inr in E5 as [-> Hlen]. simpl.
    exists (take 80 decodedBytes ++ bs1 ++ bs2 ++ concat hashes ++ bs4), vBits, r5.
    rewrite Hp0. destruct (Hbits vBits). auto.
  - intros [= <- <-]. simpl.
    exists (take 80 decodedBytes ++ bs1 ++ bs2 ++ concat hashes ++ bs4), [], r4.
    replace vBitsNum with 0%N by lia. destruct (Hbits []). auto.
Qed.

Lemma flags_unpacked_witness :
  exists before vBits rest,
    sampleProof = before ++ vBits ++ rest /\
    length vBits = 1 /\
    [true; false; false; false; false; false; false; false] = unpackBits [] vBits.
Proof.
  destruct flags_unpacked as [Hdecode _].
  destruct (Hdecode sampleProof zeroBlockHeader zeroMerkleProofData _ _
              eq_refl sampleProof_decodes)
    as (before & vBits & rest & Hsplit & Hlen & Hbits & _).
  exists before, vBits, rest. auto.
Defined.

(** C10: when a buffer decodes, the buffer with any bytes appended
    decodes to the same header and proof data; nothing checks that the
    reader is at its end. *)
Theorem trailing_bytes_accepted (decodedBytes extra : list byte)
    (h0 hdr : BlockHeader) (p0 pd : MerkleProofData) :
  decodeTxOutProofData decodedBytes h0 p0 = inr (hdr, pd) ->
  decodeTxOutProofData (decodedBytes ++ extra) h0 p0 = inr (hdr, pd).
Proof.
  unfold decodeTxOutProofData.
  destruct (decide (length decodedBytes < 80)) as [|H80]; [discriminate|].
  destruct (decide (length (decodedBytes ++ extra) < 80)) as [H80'|_];
    [rewrite length_app in H80'; lia|].
  rewrite take_app_le by lia.
  destruct (readBlockHeader (take 80 decodedBytes)) as [?|[header ?]]; [discriminate|].
  rewrite drop_app_le by lia.
  destruct (decide (length (drop 80 decodedBytes) = 0)) as [|Hrem]; [discriminate|].
  destruct (decide (length (drop 80 decodedBytes ++ extra) = 0)) as [Hrem'|_];
    [rewrite length_app in Hrem'; lia|].
  destruct (readUint 4 (drop 80 decodedBytes)) as [?|[tt r1]] eqn:E1; [discriminate|].
  rewrite (readUint_app _ _ _ _ extra E1).
  destruct (readVarInt r1) as [?|[hashNum r2]] eqn:E2; [discriminate|].
  rewrite (readVarInt_app _ _ _ extra E2).
  destruct (readHashes (N.to_nat hashNum) 0 r2) as [?|[hashes r3]] eqn:E3; [discriminate|].
  rewrite (readHashes_app _ _ _ _ _ extra E3).
  destruct (readVarInt r3) as [?|[vBitsNum r4]] eqn:E4; [discriminate|].
  rewrite (readVarInt_app _ _ _ extra E4).
  destruct (0 <? vBitsNum)%N; [|auto].
  destruct (ReadFull (N.to_nat vBitsNum) r4) as [?|[vBits r5]] eqn:E5; [discriminate|].
  rewrite (ReadFull_app _ _ _ _ extra E5). auto.
Qed.

Lemma trailing_bytes_accepted_witness :
  exists hdr pd,
    decodeTxOutProofData (sampleProof ++ [Byte.xde; Byte.xad; Byte.xbe; Byte.xef])
      zeroBlockHeader zeroMerkleProofData = inr (hdr, pd) /\
    decodeTxOutProofData sampleProof zeroBlockHeader zeroMerkleProofData = inr (hdr, pd).
Proof.
  eexists _, _. split; [|vm_compute; reflexivity].
  apply trailing_bytes_accepted. vm_compute. reflexivity.
Defined.

Lemma rev_reverse {A} (l : list A) : rev l = reverse l.
Proof. unfold reverse. apply rev_alt. Qed.

Lemma reverseFrom_spec turns data i :
  i <= length data -> length data - i <= turns ->
  reverseFrom turns data (take i (rev data) ++ replicate (length data - i) Byte.x00) i
  = Some (rev data).
Proof.
  revert i. induction turns as [|turns IH]; intros i Hi Ht.
  - simpl. destruct (decide (i < length data)); [lia|].
    replace (length data - i) with 0 by lia. simpl. rewrite app_nil_r.
    rewrite take_ge; [reflexivity|]. rewrite length_rev. lia.
  - simpl. destruct (decide (i < length data)) as [Hlt|Hge].
    + assert (Hb : rev data !! i = data !! (length data - 1 - i)).
      { rewrite rev_reverse, reverse_lookup by lia. f_equal. lia. }
      destruct (lookup_lt_is_Some_2 data (length data - 1 - i)) as [b Hd]; [lia|].
      rewrite Hd. rewrite Hd in Hb.
      assert (Hlen : length (take i (rev data)) = i).
      { rewrite length_take, length_rev. lia. }
      destruct (decide (i < length (take i (rev data) ++ replicate (length data - i) Byte.x00)))
        as [_|Hn]; [|rewrite length_app, Hlen, length_replicate in Hn; lia].
      rewrite insert_app_r_alt by lia. rewrite Hlen, Nat.sub_diag.
      replace (length data - i) with (S (length data - S i)) by lia.
      simpl. replace (take i (rev data) ++ b :: replicate (length data - S i) Byte.x00)
        with (take (S i) (rev data) ++ replicate (length data - S i) Byte.x00).
      * apply IH; lia.
      * rewrite (take_S_r _ _ _ Hb), <- app_assoc. reflexivity.
    + replace (length data - i) with 0 by lia. simpl. rewrite app_nil_r.
      rewrite take_ge; [reflexivity|]. rewrite length_rev. lia.
Qed.

(** X1: the loop of [reverseBytes] never leaves its slices and returns the
    bytes of [data] in the opposite order: byte [i] of the result is byte
    [len(data)-1-i] of [data], the length is kept, and reversing twice
    gives [data] back. *)
Theorem reverseBytes_loop (data : list byte) :
  reverseBytesLoop data = Some (reverseBytes data) /\
  length (reverseBytes data) = length data /\
  (forall i, i < length data ->
     reverseBytes data !! i = data !! (length data - 1 - i)) /\
  reverseBytes (reverseBytes data) = data.
Proof.
  unfold reverseBytesLoop, reverseBytes. repeat split.
  - pose proof (reverseFrom_spec (length data) data 0) as H.
    rewrite take_0, Nat.sub_0_r in H. apply H; lia.
  - apply length_rev.
  - intros i Hi. rewrite rev_reverse, reverse_lookup by lia. f_equal. lia.
  - apply rev_involutive.
Qed.

(** * encoding/hex *)

Lemma fromHexChar_hex_digit n : (n < 16)%N -> fromHexChar (hex_digit n) = Some n.
Proof.
  intros H. destruct n as [|p]; [reflexivity|].
  do 5 (try (destruct p as [p|p|]; try reflexivity; try lia)).
Qed.

Lemma hexByte_nibbles b : hexByte (Byte.to_N b / 16) (Byte.to_N b mod 16) = b.
Proof. destruct b; reflexivity. Qed.

Lemma DecodeString_EncodeToString bs : DecodeString (EncodeToString bs) = inr bs.
Proof.
  induction bs as [|b bs IH]; [reflexivity|].
  cbn [EncodeToString DecodeString].
  pose proof (Byte.to_N_bounded b) as Hb.
  rewrite !fromHexChar_hex_digit.
  - rewrite IH, hexByte_nibbles. reflexivity.
  - apply N.mod_lt. lia.
  - apply N.Div0.div_lt_upper_bound. lia.
Qed.

Lemma fromHexChar_lower p a :
  fromHexChar p = Some a -> (a < 16)%N /\ hex_digit a = lower p.
Proof.
  intros H.
  destruct p as [[|] [|] [|] [|] [|] [|] [|] [|]]; vm_compute in H; try discriminate;
    injection H as <-; split; reflexivity.
Qed.

Lemma hexByte_to_N a b :
  (a < 16)%N -> (b < 16)%N ->
  (Byte.to_N (hexByte a b) / 16 = a /\ Byte.to_N (hexByte a b) mod 16 = b)%N.
Proof.
  intros Ha Hb.
  assert (a = 0 \/ a = 1 \/ a = 2 \/ a = 3 \/ a = 4 \/ a = 5 \/ a = 6 \/ a = 7 \/
          a = 8 \/ a = 9 \/ a = 10 \/ a = 11 \/ a = 12 \/ a = 13 \/ a = 14 \/ a = 15)%N
    as Ha' by lia.
  assert (b = 0 \/ b = 1 \/ b = 2 \/ b = 3 \/ b = 4 \/ b = 5 \/ b = 6 \/ b = 7 \/
          b = 8 \/ b = 9 \/ b = 10 \/ b = 11 \/ b = 12 \/ b = 13 \/ b = 14 \/ b = 15)%N
    as Hb' by lia.
  clear Ha Hb. destruct_or!; subst; split; reflexivity.
Qed.

Lemma DecodeString_inr s bs :
  DecodeString s = inr bs ->
  EncodeToString bs = ToLower s /\ String.length s = 2 * length bs.
Proof.
  enough (H : (forall bs, DecodeString s = inr bs ->
                 EncodeToString bs = ToLower s /\ String.length s = 2 * length bs) /\
              (forall c bs, DecodeString (String c s) = inr bs ->
                 EncodeToString bs = ToLower (String c s) /\
                 String.length (String c s) = 2 * length bs))
    by (apply H).
  clear bs. induction s as [|q s [IH1 IH2]].
  - split.
    + intros bs [= <-]. split; reflexivity.
    + intros c bs H. simpl in H. destruct (fromHexChar c); discriminate.
  - split; [exact (IH2 q)|].
    intros p bs H. cbn [DecodeString] in H.
    destruct (fromHexChar p) as [a|] eqn:Ea; [|discriminate].
    destruct (fromHexChar q) as [b|] eqn:Eb; [|discriminate].
    destruct (DecodeString s) as [|bs'] eqn:Es; [discriminate|].
    injection H as <-.
    destruct (fromHexChar_lower _ _ Ea) as [Ha Hla].
    destruct (fromHexChar_lower _ _ Eb) as [Hb Hlb].
    destruct (hexByte_to_N a b Ha Hb) as [Hd Hm].
    destruct (IH1 bs' eq_refl) as [IHa IHb].
    cbn [EncodeToString ToLower String.length length].
    rewrite Hd, Hm, Hla, Hlb, IHa, IHb. split; [reflexivity|lia].
Qed.

(** A reader of 80 bytes always yields a header, and is at its end. *)
Lemma readBlockHeader_80 bs :
  length bs = 80 -> exists h, readBlockHeader bs = inr (h, []).
Proof.
  intros H. unfold readBlockHeader, ReadFull.
  destruct bs as [|b bs']; [discriminate|].
  destruct (decide (length (b :: bs') < 80)); [lia|].
  rewrite (drop_ge (b :: bs') 80) by lia. eauto.
Qed.

(** X2: [hex.DecodeString] undoes [hex.EncodeToString]; and when it accepts
    a string, encoding the bytes again gives that string in lower case,
    two characters for each byte.  So the line the oldest [main] prints
    as the re-encoded string is its argument, but for the case of the
    letters; it reads a header exactly from the arguments of 160 digits
    or more, and the decoding of the header never fails. *)
Theorem hex_round_trip :
  (forall bs, DecodeString (EncodeToString bs) = inr bs) /\
  (forall s bs, DecodeString s = inr bs ->
     EncodeToString bs = ToLower s /\ String.length s = 2 * length bs) /\
  (forall prog hexInput,
     match HeaderOnly.main [prog; hexInput] with
     | HeaderOnly.Usage => False
     | HeaderOnly.BadHex e => DecodeString hexInput = inl e
     | HeaderOnly.TooShort hexOutput got =>
         hexOutput = ToLower hexInput /\ String.length hexInput = 2 * got /\ got < 80
     | HeaderOnly.BadHeader _ _ => False
     | HeaderOnly.Header hexOutput blockHeader =>
         hexOutput = ToLower hexInput /\ 160 <= String.length hexInput /\
         exists decodedBytes,
           DecodeString hexInput = inr decodedBytes /\
           readBlockHeader (take 80 decodedBytes) = inr (blockHeader, [])
     end).
Proof.
  split; [exact DecodeString_EncodeToString|]. split; [exact DecodeString_inr|].
  intros prog hexInput. unfold HeaderOnly.main.
  destruct (DecodeString hexInput) as [e|decodedBytes] eqn:Ed; [reflexivity|].
  destruct (DecodeString_inr _ _ Ed) as [Hout Hlen].
  destruct (decide (length decodedBytes < 80)) as [Hlt|Hge]; [auto|].
  destruct (readBlockHeader_80 (take 80 decodedBytes)) as [h Hh].
  { rewrite length_take. lia. }
  rewrite Hh. split; [exact Hout|]. split; [lia|]. eauto.
Qed.

(** * The readers *)

Lemma ReadFull_enough n r : n <= length r -> ReadFull n r = inr (take n r, drop n r).
Proof.
  intros H. unfold ReadFull. destruct n as [|n]; [reflexivity|].
  destruct r as [|b r]; [simpl in H; lia|].
  destruct (decide (length (b :: r) < S n)); [lia|reflexivity].
Qed.

Lemma ReadFull_short n r :
  length r < n -> ReadFull n r = inl (if decide (r = []) then EOF else ErrUnexpectedEOF).
Proof.
  intros H. unfold ReadFull. destruct n as [|n]; [lia|].
  destruct r as [|b r]; [reflexivity|].
  destruct (decide (length (b :: r) < S n)); [|lia].
  destruct (decide (b :: r = [])); [discriminate|reflexivity].
Qed.

Lemma littleEndian_bound bs : (littleEndian bs < 256 ^ N.of_nat (length bs))%N.
Proof.
  induction bs as [|b bs IH]; [simpl; lia|].
  cbn [littleEndian length]. rewrite Nat2N.inj_succ, N.pow_succ_r'.
  pose proof (Byte.to_N_bounded b). lia.
Qed.

Lemma littleEndian_inj xs ys :
  length xs = length ys -> littleEndian xs = littleEndian ys -> xs = ys.
Proof.
  revert ys. induction xs as [|x xs IH]; intros [|y ys] Hlen H; try discriminate; [reflexivity|].
  cbn [littleEndian] in H. injection Hlen as Hlen.
  pose proof (Byte.to_N_bounded x). pose proof (Byte.to_N_bounded y).
  assert (Byte.to_N x = Byte.to_N y /\ littleEndian xs = littleEndian ys) as [Hb Ht] by lia.
  f_equal; [|apply IH; assumption].
  pose proof (Byte.of_to_N x) as Hx. rewrite Hb, Byte.of_to_N in Hx. congruence.
Qed.

Lemma readUint_enough n r :
  n <= length r -> readUint n r = inr (littleEndian (take n r), drop n r).
Proof. intros H. unfold readUint. rewrite ReadFull_enough by exact H. reflexivity. Qed.

Lemma readUint_short n r :
  length r < n -> readUint n r = inl (if decide (r = []) then EOF else ErrUnexpectedEOF).
Proof. intros H. unfold readUint. rewrite ReadFull_short by exact H. reflexivity. Qed.

Lemma varIntWidth_cases d :
  (varIntWidth d = 0 /\ (Byte.to_N d < 0xfd)%N) \/
  (varIntWidth d = 2 /\ Byte.to_N d = 0xfd%N) \/
  (varIntWidth d = 4 /\ Byte.to_N d = 0xfe%N) \/
  (varIntWidth d = 8 /\ Byte.to_N d = 0xff%N).
Proof.
  unfold varIntWidth. pose proof (Byte.to_N_bounded d).
  destruct (N.eqb_spec (Byte.to_N d) 0xfd); [auto|].
  destruct (N.eqb_spec (Byte.to_N d) 0xfe); [auto|].
  destruct (N.eqb_spec (Byte.to_N d) 0xff); [auto 6|].
  left. split; [reflexivity|lia].
Qed.

Lemma readVarInt_width d rest :
  readVarInt (d :: rest) =
    if decide (varIntWidth d = 0) then inr (Byte.to_N d, rest)
    else readUint (varIntWidth d) rest.
Proof.
  rewrite readVarInt_cons. unfold varIntWidth.
  destruct (Byte.to_N d =? 0xfd)%N; [reflexivity|].
  destruct (Byte.to_N d =? 0xfe)%N; [reflexivity|].
  destruct (Byte.to_N d =? 0xff)%N; reflexivity.
Qed.

Lemma readVarInt_enough d rest :
  varIntWidth d <= length rest ->
  readVarInt (d :: rest) = inr (varIntValue d rest, drop (varIntWidth d) rest).
Proof.
  intros H. rewrite readVarInt_width. unfold varIntValue.
  destruct (decide (varIntWidth d = 0)) as [->|_]; [reflexivity|].
  apply readUint_enough. exact H.
Qed.

Lemma readVarInt_short d rest :
  length rest < varIntWidth d ->
  readVarInt (d :: rest) = inl (if decide (rest = []) then EOF else ErrUnexpectedEOF).
Proof.
  intros H. rewrite readVarInt_width.
  destruct (decide (varIntWidth d = 0)) as [E|_]; [lia|].
  apply readUint_short. exact H.
Qed.

Lemma readVarInt_value_bound d rest : (varIntValue d rest < 2 ^ 64)%N.
Proof.
  unfold varIntValue.
  pose proof (Byte.to_N_bounded d).
  pose proof (littleEndian_bound (take (varIntWidth d) rest)) as Hb.
  assert (length (take (varIntWidth d) rest) <= varIntWidth d) by (rewrite length_take; lia).
  destruct (decide (varIntWidth d = 0)); [lia|].
  eapply N.lt_le_trans; [exact Hb|].
  change (2 ^ 64)%N with (256 ^ 8)%N. apply N.pow_le_mono_r; [lia|].
  destruct (varIntWidth_cases d) as [[E _]|[[E _]|[[E _]|[E _]]]]; rewrite E in *.
  all: lia.
Qed.

(** The bytes a successful [readVarInt] takes decide its result. *)
Lemma readVarInt_prefix r v r' :
  readVarInt r = inr (v, r') ->
  exists bs, r = bs ++ r' /\ 1 <= length bs <= 9 /\ (v < 2 ^ 64)%N /\
             forall t, readVarInt (bs ++ t) = inr (v, t).
Proof.
  destruct r as [|d rest]; [discriminate|].
  destruct (le_lt_dec (varIntWidth d) (length rest)) as [Hle|Hlt].
  - rewrite (readVarInt_enough _ _ Hle). intros [= <- <-].
    exists (d :: take (varIntWidth d) rest). split; [|split; [|split]].
    + simpl. rewrite take_drop. reflexivity.
    + simpl. rewrite length_take.
      destruct (varIntWidth_cases d) as [[-> _]|[[-> _]|[[-> _]|[-> _]]]]; lia.
    + apply readVarInt_value_bound.
    + intros t. cbn [app]. rewrite readVarInt_enough.
      * unfold varIntValue.
        rewrite take_app_le, drop_app_le by (rewrite length_take; lia).
        rewrite take_take, Nat.min_id.
        rewrite (drop_ge (take _ _)) by (rewrite length_take; lia). reflexivity.
      * rewrite length_app, length_take. lia.
  - rewrite (readVarInt_short _ _ Hlt). discriminate.
Qed.

(** X3: what [readVarInt] does with every reader: an empty one gives
    [io.EOF]; a one that holds the bytes its first byte asks for gives the
    value, below 2^64, and the reader after those bytes; a shorter one
    gives [io.EOF] when nothing follows the first byte and
    [io.ErrUnexpectedEOF] when something does. *)
Theorem readVarInt_outcome :
  readVarInt [] = inl EOF /\
  (forall d rest,
     varIntWidth d <= length rest ->
     exists v, readVarInt (d :: rest) = inr (v, drop (varIntWidth d) rest) /\
               (v < 2 ^ 64)%N /\ v = varIntValue d rest) /\
  (forall d rest,
     length rest < varIntWidth d ->
     readVarInt (d :: rest) = inl (if decide (rest = []) then EOF else ErrUnexpectedEOF)).
Proof.
  split; [reflexivity|]. split.
  - intros d rest H. eexists. split; [apply readVarInt_enough; exact H|].
    split; [apply readVarInt_value_bound|reflexivity].
  - apply readVarInt_short.
Qed.

Lemma readVarInt_outcome_witness :
  (exists v, readVarInt [Byte.xfe; Byte.x01; Byte.x02; Byte.x03; Byte.x04; Byte.x05]
             = inr (v, [Byte.x05]) /\ v = 0x04030201%N) /\
  readVarInt [Byte.xfe; Byte.x01; Byte.x02] = inl ErrUnexpectedEOF /\
  readVarInt [Byte.xff] = inl EOF.
Proof.
  destruct readVarInt_outcome as (_ & Hok & Hshort).
  split; [|split].
  - destruct (Hok Byte.xfe [Byte.x01; Byte.x02; Byte.x03; Byte.x04; Byte.x05])
      as (v & Hv & _ & Hval); [vm_compute; lia|].
    exists v. split; [exact Hv|]. rewrite Hval. reflexivity.
  - apply (Hshort Byte.xfe [Byte.x01; Byte.x02]). vm_compute. lia.
  - apply (Hshort Byte.xff []). vm_compute. lia.
Defined.

(** * The loop over the hashes *)

Lemma readHashes_enough count : forall i r,
  32 * count <= length r ->
  exists hs, readHashes count i r = inr (hs, drop (32 * count) r) /\
             concat hs = take (32 * count) r /\ length hs = count /\
             Forall (fun h => length h = 32) hs.
Proof.
  induction count as [|count IH]; intros i r H.
  - exists []. simpl. rewrite drop_0, take_0. auto.
  - cbn [readHashes]. rewrite ReadFull_enough by lia.
    destruct (IH (i + 1)%N (drop 32 r)) as (hs & Hr & Hc & Hl & Hf).
    { rewrite length_drop. lia. }
    rewrite Hr. exists (take 32 r :: hs). split; [|split; [|split]].
    + rewrite drop_drop. replace (32 + 32 * count) with (32 * S count) by lia. reflexivity.
    + cbn [concat]. rewrite Hc.
      replace (32 * S count) with (32 + 32 * count) by lia.
      rewrite <- take_take_drop. reflexivity.
    + simpl. lia.
    + constructor; [rewrite length_take; lia|exact Hf].
Qed.

Lemma readHashes_short count : forall i r,
  length r < 32 * count ->
  readHashes count i r =
    inl (ErrHash (i + N.of_nat (length r / 32) + 1)
                 (if decide (length r mod 32 = 0) then EOF else ErrUnexpectedEOF)).
Proof.
  induction count as [|count IH]; intros i r H; [lia|].
  cbn [readHashes]. destruct (le_lt_dec 32 (length r)) as [Hle|Hlt].
  - rewrite ReadFull_enough by lia. rewrite IH by (rewrite length_drop; lia).
    rewrite length_drop.
    assert (Hd : length r / 32 = S ((length r - 32) / 32)).
    { replace (length r) with (1 * 32 + (length r - 32)) at 1 by lia.
      rewrite Nat.div_add_l by lia. lia. }
    assert (Hm : length r mod 32 = (length r - 32) mod 32).
    { replace (length r) with ((length r - 32) + 1 * 32) at 1 by lia.
      apply Nat.Div0.mod_add. }
    rewrite Hd, Hm. do 2 f_equal. lia.
  - rewrite ReadFull_short by lia.
    rewrite Nat.div_small, Nat.mod_small by lia.
    do 2 f_equal; [lia|].
    destruct r as [|b r]; [reflexivity|].
    destruct (decide (b :: r = [])); [discriminate|].
    destruct (decide (length (b :: r) = 0)); [discriminate|reflexivity].
Qed.

(** X4: the loop that reads the hashes.  With [32 * count] bytes in the
    reader it returns them cut into [count] hashes of 32 bytes, in their
    order, and the reader after them.  With fewer it fails at the first
    hash that is not whole and reports its number, counted from 1: with
    [io.EOF] when the reader ends where that hash would begin, with
    [io.ErrUnexpectedEOF] when it ends inside it. *)
Theorem readHashes_outcome (count : nat) (r : list byte) :
  (32 * count <= length r ->
   exists hs, readHashes count 0 r = inr (hs, drop (32 * count) r) /\
              concat hs = take (32 * count) r /\ length hs = count /\
              Forall (fun h => length h = 32) hs) /\
  (length r < 32 * count ->
   readHashes count 0 r =
     inl (ErrHash (N.of_nat (length r / 32) + 1)
                  (if decide (length r mod 32 = 0) then EOF else ErrUnexpectedEOF))).
Proof.
  split; [apply readHashes_enough|]. intros H. rewrite readHashes_short by exact H.
  reflexivity.
Qed.

Lemma readHashes_outcome_witness :
  (exists hs, readHashes 2 0 (sampleHash Byte.x0a ++ sampleHash Byte.x0b ++ [Byte.x01])
              = inr (hs, [Byte.x01]) /\ length hs = 2) /\
  readHashes 3 0 (sampleHash Byte.x0a ++ sampleHash Byte.x0b ++ [Byte.x01])
    = inl (ErrHash 3 ErrUnexpectedEOF) /\
  readHashes 3 0 (sampleHash Byte.x0a ++ sampleHash Byte.x0b) = inl (ErrHash 3 EOF).
Proof.
  split; [|split].
  - destruct (readHashes_outcome 2 (sampleHash Byte.x0a ++ sampleHash Byte.x0b ++ [Byte.x01]))
      as [Hok _].
    destruct Hok as (hs & Hr & _ & Hl & _); [vm_compute; lia|].
    exists hs. split; [exact Hr|exact Hl].
  - destruct (readHashes_outcome 3 (sampleHash Byte.x0a ++ sampleHash Byte.x0b ++ [Byte.x01]))
      as [_ Hshort].
    rewrite Hshort by (vm_compute; lia). reflexivity.
  - destruct (readHashes_outcome 3 (sampleHash Byte.x0a ++ sampleHash Byte.x0b))
      as [_ Hshort].
    rewrite Hshort by (vm_compute; lia). reflexivity.
Defined.

(** * The decoder: every outcome *)

(** The steps of [decodeTxOutProofData] on a buffer of 80 bytes or more. *)
Lemma decode_steps d h0 p0 :
  80 <= length d ->
  exists header,
    readBlockHeader (take 80 d) = inr (header, []) /\
    decodeTxOutProofData d h0 p0 =
      if decide (length (drop 80 d) = 0) then inl ErrNoAdditionalData
      else
        match readUint 4 (drop 80 d) with
        | inl e => inl (ErrTotalTransactions e)
        | inr (totalTransactions, r1) =>
            match readVarInt r1 with
            | inl e => inl (ErrHashNum e)
            | inr (hashNum, r2) =>
                match readHashes (N.to_nat hashNum) 0 r2 with
                | inl e => inl e
                | inr (hashes, r3) =>
                    match readVarInt r3 with
                    | inl e => inl (ErrVBitsNum e)
                    | inr (vBitsNum, r4) =>
                        let result flags :=
                          inr (header,
                               {| TotalTransactions := totalTransactions;
                                  HashNum := hashNum; Hashes := hashes;
                                  VBitsNum := vBitsNum; VBits := flags |}) in
                        if (0 <? vBitsNum)%N then
                          match ReadFull (N.to_nat vBitsNum) r4 with
                          | inl e => inl (ErrVBits e)
                          | inr (vBits, _) => result (unpackBits (VBits p0) vBits)
                          end
                        else result []
                    end
                end
            end
        end.
Proof.
  intros H. destruct (readBlockHeader_80 (take 80 d)) as [header Hh].
  { rewrite length_take. lia. }
  exists header. split; [exact Hh|].
  unfold decodeTxOutProofData. destruct (decide (length d < 80)); [lia|].
  rewrite Hh. reflexivity.
Qed.

Lemma readHashes_inl count i r e :
  readHashes count i r = inl e -> exists k io, e = ErrHash k io.
Proof.
  destruct (le_lt_dec (32 * count) (length r)) as [Hok|Hshort].
  - destruct (readHashes_enough _ i _ Hok) as (? & Hx & _). congruence.
  - rewrite (readHashes_short _ i _ Hshort). intros [= <-]. eauto.
Qed.

(** X5: the outcome of the decoder on the shortest buffers, and the
    errors it never returns.  Fewer than 80 bytes: the short-header error
    with the length; 80 bytes: no additional data; 81 to 83 bytes: the
    transaction count cannot be read, with [io.ErrUnexpectedEOF]; 84
    bytes: the hash count cannot be read, with [io.EOF].  The decoding of
    the header itself never fails, and the transaction count never fails
    with [io.EOF]. *)
Theorem decode_short_buffers (d : list byte) (h0 : BlockHeader) (p0 : MerkleProofData) :
  (length d < 80 <-> decodeTxOutProofData d h0 p0 = inl (ErrShortHeader (length d))) /\
  (length d = 80 <-> decodeTxOutProofData d h0 p0 = inl ErrNoAdditionalData) /\
  (80 < length d < 84 <->
   decodeTxOutProofData d h0 p0 = inl (ErrTotalTransactions ErrUnexpectedEOF)) /\
  (length d = 84 -> decodeTxOutProofData d h0 p0 = inl (ErrHashNum EOF)) /\
  (forall e, decodeTxOutProofData d h0 p0 <> inl (ErrHeader e)) /\
  decodeTxOutProofData d h0 p0 <> inl (ErrTotalTransactions EOF) /\
  (forall n, decodeTxOutProofData d h0 p0 = inl (ErrShortHeader n) -> n = length d).
Proof.
  destruct (le_lt_dec 80 (length d)) as [Hge|Hlt].
  2:{ assert (E : decodeTxOutProofData d h0 p0 = inl (ErrShortHeader (length d))).
      { unfold decodeTxOutProofData. destruct (decide (length d < 80)); [reflexivity|lia]. }
      rewrite E. repeat split; try (intros; (lia || discriminate || congruence)). }
  destruct (decode_steps d h0 p0 Hge) as (header & _ & E). rewrite E. clear E.
  assert (Hlen : length (drop 80 d) = length d - 80) by apply length_drop.
  destruct (decide (length (drop 80 d) = 0)) as [H0|Hn0].
  { repeat split; try (intros; (lia || discriminate || congruence)). }
  destruct (le_lt_dec 4 (length (drop 80 d))) as [H4|H4].
  2:{ rewrite readUint_short by lia.
      destruct (decide (drop 80 d = [])) as [E|_]; [rewrite E in Hn0; simpl in Hn0; lia|].
      repeat split; try (intros; (lia || discriminate || congruence)). }
  rewrite readUint_enough by lia.
  assert (Hr1 : length (drop 4 (drop 80 d)) = length d - 84).
  { rewrite length_drop. lia. }
  destruct (readVarInt (drop 4 (drop 80 d))) as [e|[hashNum r2]] eqn:E2.
  { repeat split; try (intros; (lia || discriminate || congruence)).
    intros H84. destruct (drop 4 (drop 80 d)) as [|b r] eqn:Ed; [|simpl in Hr1; lia].
    change (readVarInt []) with (@inl IOError (N * list byte) EOF) in E2. congruence. }
  assert (H85 : 84 < length d).
  { destruct (drop 4 (drop 80 d)) as [|b r]; [discriminate|simpl in Hr1; lia]. }
  destruct (readHashes (N.to_nat hashNum) 0 r2) as [e|[hashes r3]] eqn:E3.
  { apply readHashes_inl in E3 as (k & io & ->).
    repeat split; try (intros; (lia || discriminate || congruence)). }
  destruct (readVarInt r3) as [e|[vBitsNum r4]].
  { repeat split; try (intros; (lia || discriminate || congruence)). }
  cbv zeta. destruct (0 <? vBitsNum)%N.
  - destruct (ReadFull (N.to_nat vBitsNum) r4) as [e|[vBits r5]];
      repeat split; try (intros; (lia || discriminate || congruence)).
  - repeat split; try (intros; (lia || discriminate || congruence)).
Qed.

Lemma decode_short_buffers_witness :
  decodeTxOutProofData (sampleHeader ++ [Byte.x02; Byte.x00; Byte.x00; Byte.x00])
    zeroBlockHeader zeroMerkleProofData = inl (ErrHashNum EOF).
Proof.
  destruct (decode_short_buffers (sampleHeader ++ [Byte.x02; Byte.x00; Byte.x00; Byte.x00])
              zeroBlockHeader zeroMerkleProofData) as (_ & _ & _ & H & _).
  apply H. reflexivity.
Defined.

(** * The decoder: what a success means *)

Lemma length_concat_32 (hs : list (list byte)) :
  Forall (fun h => length h = 32) hs -> length (concat hs) = 32 * length hs.
Proof.
  induction 1 as [|h hs Hh _ IH]; [reflexivity|].
  cbn [concat length]. rewrite length_app, Hh, IH. lia.
Qed.

(** What a success of the decoder means for the buffer. *)
Lemma decode_success (d : list byte) (h0 hdr : BlockHeader) (p0 pd : MerkleProofData) :
  decodeTxOutProofData d h0 p0 = inr (hdr, pd) ->
  exists total count1 count2 flagBytes rest,
    d = take 80 d ++ total ++ count1 ++ concat (Hashes pd) ++ count2 ++ flagBytes ++ rest /\
    readBlockHeader (take 80 d) = inr (hdr, []) /\
    length total = 4 /\ TotalTransactions pd = littleEndian total /\
    (forall t, readVarInt (count1 ++ t) = inr (HashNum pd, t)) /\
    length (Hashes pd) = N.to_nat (HashNum pd) /\
    Forall (fun h => length h = 32) (Hashes pd) /\
    (forall t, readVarInt (count2 ++ t) = inr (VBitsNum pd, t)) /\
    length flagBytes = N.to_nat (VBitsNum pd) /\
    (TotalTransactions pd < 2 ^ 32)%N /\ (HashNum pd < 2 ^ 64)%N /\
    (VBitsNum pd < 2 ^ 64)%N /\
    86 + 32 * length (Hashes pd) + length flagBytes <= length d /\
    VBits pd = if (0 <? VBitsNum pd)%N then unpackBits (VBits p0) flagBytes else [].
Proof.
  intros H.
  assert (H80 : 80 <= length d).
  { unfold decodeTxOutProofData in H. destruct (decide (length d < 80)); [discriminate|lia]. }
  destruct (decode_steps d h0 p0 H80) as (header & Hh & E). rewrite E in H. clear E.
  destruct (decide (length (drop 80 d) = 0)); [discriminate|].
  destruct (readUint 4 (drop 80 d)) as [?|[tt r1]] eqn:E1; [discriminate|].
  destruct (readVarInt r1) as [?|[hashNum r2]] eqn:E2; [discriminate|].
  destruct (readHashes (N.to_nat hashNum) 0 r2) as [?|[hashes r3]] eqn:E3; [discriminate|].
  destruct (readVarInt r3) as [?|[vBitsNum r4]] eqn:E4; [discriminate|].
  apply readUint_inr in E1 as (total & E1 & Htotal & ->).
  apply readVarInt_prefix in E2 as (count1 & -> & Hc1 & Hn1 & Hp1).
  apply readHashes_inr in E3 as (-> & Hcount & Hall).
  apply readVarInt_prefix in E4 as (count2 & -> & Hc2 & Hn2 & Hp2).
  assert (Hcase : exists flagBytes rest flags,
            r4 = flagBytes ++ rest /\ length flagBytes = N.to_nat vBitsNum /\
            hdr = header /\
            pd = {| TotalTransactions := littleEndian total;
                    HashNum := hashNum; Hashes := hashes;
                    VBitsNum := vBitsNum; VBits := flags |} /\
            flags = if (0 <? vBitsNum)%N then unpackBits (VBits p0) flagBytes else []).
  { cbv zeta in H. destruct (N.ltb_spec 0 vBitsNum) as [Hpos|Hzero].
    - destruct (ReadFull (N.to_nat vBitsNum) r4) as [?|[vBits r5]] eqn:E5; [discriminate|].
      apply ReadFull_inr in E5 as [-> Hlen]. injection H as <- <-.
      exists vBits, r5, (unpackBits (VBits p0) vBits).
      destruct (N.ltb_spec 0 vBitsNum); [auto 6|lia].
    - injection H as <- <-. exists [], r4, [].
      destruct (N.ltb_spec 0 vBitsNum); [lia|]. repeat split. simpl. lia. }
  destruct Hcase as (flagBytes & rest & flags & -> & Hfl & -> & -> & Hflags).
  cbn [TotalTransactions HashNum Hashes VBitsNum VBits].
  assert (Hd : d = take 80 d ++ total ++ count1 ++ concat hashes ++ count2 ++ flagBytes ++ rest).
  { rewrite <- (take_drop 80 d) at 1. rewrite E1. reflexivity. }
  exists total, count1, count2, flagBytes, rest.
  split; [exact Hd|]. split; [exact Hh|]. split; [exact Htotal|]. split; [reflexivity|].
  split; [exact Hp1|]. split; [exact Hcount|]. split; [exact Hall|]. split; [exact Hp2|].
  split; [exact Hfl|]. split.
  { pose proof (littleEndian_bound total) as Hb. rewrite Htotal in Hb. exact Hb. }
  split; [exact Hn1|]. split; [exact Hn2|]. split; [|exact Hflags].
  apply (f_equal length) in Hd. rewrite !length_app, length_take in Hd.
  rewrite (length_concat_32 _ Hall) in Hd. lia.
Qed.

(** X6: when the decoder succeeds the buffer is, in this order, the 80
    bytes of the header, the four bytes of the transaction count, the
    CompactSize hash count, the hashes (as many as the count says, each
    of 32 bytes, in their order), the CompactSize flag count, as many flag
    bytes as it says, and whatever follows.  The counts are below 2^32
    and 2^64, and the buffer has at least 86 bytes more than the hashes
    and the flag bytes take. *)
Theorem decode_layout (d : list byte) (h0 hdr : BlockHeader) (p0 pd : MerkleProofData) :
  decodeTxOutProofData d h0 p0 = inr (hdr, pd) ->
  exists total count1 count2 flagBytes rest,
    d = take 80 d ++ total ++ count1 ++ concat (Hashes pd) ++ count2 ++ flagBytes ++ rest /\
    readBlockHeader (take 80 d) = inr (hdr, []) /\
    length total = 4 /\ TotalTransactions pd = littleEndian total /\
    (forall t, readVarInt (count1 ++ t) = inr (HashNum pd, t)) /\
    length (Hashes pd) = N.to_nat (HashNum pd) /\
    Forall (fun h => length h = 32) (Hashes pd) /\
    (forall t, readVarInt (count2 ++ t) = inr (VBitsNum pd, t)) /\
    length flagBytes = N.to_nat (VBitsNum pd) /\
    (TotalTransactions pd < 2 ^ 32)%N /\ (HashNum pd < 2 ^ 64)%N /\
    (VBitsNum pd < 2 ^ 64)%N /\
    86 + 32 * length (Hashes pd) + length flagBytes <= length d.
Proof.
  intros H. destruct (decode_success _ _ _ _ _ H)
    as (total & count1 & count2 & flagBytes & rest & H1 & H2 & H3 & H4 & H5 & H6 & H7 & H8
        & H9 & H10 & H11 & H12 & H13 & _).
  exists total, count1, count2, flagBytes, rest. repeat (split; [assumption|]). assumption.
Qed.

Lemma decode_layout_witness :
  exists total count1 count2 flagBytes rest,
    sampleProof = take 80 sampleProof ++ total ++ count1
                  ++ concat [sampleHash Byte.x0a; sampleHash Byte.x0b]
                  ++ count2 ++ flagBytes ++ rest /\
    length total = 4 /\ length flagBytes = 1.
Proof.
  destruct (decode_layout sampleProof zeroBlockHeader _ zeroMerkleProofData _
              sampleProof_decodes)
    as (total & count1 & count2 & flagBytes & rest & Hd & _ & Ht & _ & _ & _ & _ & _ & Hf & _).
  exists total, count1, count2, flagBytes, rest. auto.
Defined.

(** X7: the two structures the decoder writes into matter to a success in
    one way only.  Decoding the same buffer into the zero values [main]
    declares succeeds with the same header, counts and hashes; the flags
    that were in the structure before stay in front of the decoded ones
    when the flag count is not 0, and are dropped when it is 0. *)
Theorem decode_into_used_struct (d : list byte) (h0 hdr : BlockHeader)
    (p0 pd : MerkleProofData) :
  decodeTxOutProofData d h0 p0 = inr (hdr, pd) ->
  exists pd0,
    decodeTxOutProofData d zeroBlockHeader zeroMerkleProofData = inr (hdr, pd0) /\
    TotalTransactions pd = TotalTransactions pd0 /\ HashNum pd = HashNum pd0 /\
    Hashes pd = Hashes pd0 /\ VBitsNum pd = VBitsNum pd0 /\
    VBits pd = if (0 <? VBitsNum pd)%N then VBits p0 ++ VBits pd0 else [].
Proof.
  intros H.
  assert (H80 : 80 <= length d).
  { unfold decodeTxOutProofData in H. destruct (decide (length d < 80)); [discriminate|lia]. }
  destruct (decode_steps d h0 p0 H80) as (header & Hh & E). rewrite E in H. clear E.
  destruct (decode_steps d zeroBlockHeader zeroMerkleProofData H80) as (header' & Hh' & E).
  rewrite E. clear E. rewrite Hh in Hh'. injection Hh' as <-.
  destruct (decide (length (drop 80 d) = 0)); [discriminate|].
  destruct (readUint 4 (drop 80 d)) as [?|[tt r1]]; [discriminate|].
  destruct (readVarInt r1) as [?|[hashNum r2]]; [discriminate|].
  destruct (readHashes (N.to_nat hashNum) 0 r2) as [?|[hashes r3]]; [discriminate|].
  destruct (readVarInt r3) as [?|[vBitsNum r4]]; [discriminate|].
  cbv zeta in *. destruct (0 <? vBitsNum)%N eqn:Epos.
  - destruct (ReadFull (N.to_nat vBitsNum) r4) as [?|[vBits r5]]; [discriminate|].
    injection H as <- <-. eexists. split; [reflexivity|]. simpl. rewrite Epos.
    repeat split. apply unpackBits_app.
  - injection H as <- <-. eexists. split; [reflexivity|]. simpl. rewrite Epos.
    repeat split.
Qed.

Lemma decode_into_used_struct_witness :
  exists hdr pd,
    decodeTxOutProofData sampleProof zeroBlockHeader
      {| TotalTransactions := 7; HashNum := 0; Hashes := []; VBitsNum := 1;
         VBits := [true; true] |} = inr (hdr, pd) /\
    VBits pd = [true; true] ++ [true; false; false; false; false; false; false; false].
Proof.
  assert (H : exists hdr pd,
            decodeTxOutProofData sampleProof zeroBlockHeader
              {| TotalTransactions := 7; HashNum := 0; Hashes := []; VBitsNum := 1;
                 VBits := [true; true] |} = inr (hdr, pd))
    by (eexists _, _; vm_compute; reflexivity).
  destruct H as (hdr & pd & H). exists hdr, pd. split; [exact H|].
  destruct (decode_into_used_struct _ _ _ _ _ H) as (pd0 & Hd & _ & _ & _ & Hn & Hv).
  rewrite sampleProof_decodes in Hd. injection Hd as _ <-.
  rewrite Hv, Hn. reflexivity.
Defined.

(** * The block header *)

Lemma int32_inj u v : (u < 2 ^ 32)%N -> (v < 2 ^ 32)%N -> int32 u = int32 v -> u = v.
Proof.
  unfold int32. intros Hu Hv.
  destruct (N.ltb_spec u (2 ^ 31)), (N.ltb_spec v (2 ^ 31)); lia.
Qed.

Lemma int32_range u : (u < 2 ^ 32)%N -> (- 2 ^ 31 <= int32 u < 2 ^ 31)%Z.
Proof. unfold int32. intros Hu. destruct (N.ltb_spec u (2 ^ 31)); lia. Qed.

Lemma littleEndian_take4 bs : (littleEndian (take 4 bs) < 2 ^ 32)%N.
Proof.
  pose proof (littleEndian_bound (take 4 bs)) as Hb.
  eapply N.lt_le_trans; [exact Hb|]. change (2 ^ 32)%N with (256 ^ 4)%N.
  apply N.pow_le_mono_r; [lia|]. rewrite length_take. lia.
Qed.

(** X8: the header the decoder reads from 80 bytes.  The version is a
    32-bit signed number, the two hashes have 32 bytes, the time, the
    bits and the nonce are below 2^32; and the header tells its 80 bytes:
    two readers that give the same header begin with the same 80 bytes. *)
Theorem header_fields (bs : list byte) (h : BlockHeader) (r : list byte) :
  readBlockHeader bs = inr (h, r) ->
  (- 2 ^ 31 <= Version h < 2 ^ 31)%Z /\
  length (PrevBlockHash h) = 32 /\ length (MerkleRoot h) = 32 /\
  (Timestamp h < 2 ^ 32)%N /\ (Bits h < 2 ^ 32)%N /\ (Nonce h < 2 ^ 32)%N /\
  r = drop 80 bs /\
  forall bs' r', readBlockHeader bs' = inr (h, r') -> take 80 bs' = take 80 bs.
Proof.
  assert (Hinv : forall bs h r, readBlockHeader bs = inr (h, r) ->
            exists hb, hb = take 80 bs /\ length hb = 80 /\ r = drop 80 bs /\
              h = {| Version := int32 (littleEndian (take 4 hb));
                     PrevBlockHash := take 32 (drop 4 hb);
                     MerkleRoot := take 32 (drop 36 hb);
                     Timestamp := littleEndian (take 4 (drop 68 hb));
                     Bits := littleEndian (take 4 (drop 72 hb));
                     Nonce := littleEndian (take 4 (drop 76 hb)) |}).
  { clear. intros bs h r H. unfold readBlockHeader in H.
    destruct (ReadFull 80 bs) as [?|[hb r0]] eqn:E; [discriminate|].
    injection H as <- <-. apply ReadFull_inr in E as [-> Hlen].
    exists hb. rewrite take_app_length', drop_app_length' by (symmetry; exact Hlen). auto. }
  intros H. destruct (Hinv _ _ _ H) as (hb & Ehb & Hlen & -> & ->).
  cbn [Version PrevBlockHash MerkleRoot Timestamp Bits Nonce].
  split; [apply int32_range, littleEndian_take4|].
  split; [rewrite length_take, length_drop; lia|].
  split; [rewrite length_take, length_drop; lia|].
  split; [apply littleEndian_take4|]. split; [apply littleEndian_take4|].
  split; [apply littleEndian_take4|]. split; [reflexivity|].
  intros bs' r' H'. destruct (Hinv _ _ _ H') as (hb' & Ehb' & Hlen' & _ & Heq).
  rewrite <- Ehb, <- Ehb'. injection Heq as Hv Hp Hm Ht Hb Hn.
  apply int32_inj in Hv; try apply littleEndian_take4.
  apply littleEndian_inj in Hv; [|rewrite !length_take; lia].
  apply littleEndian_inj in Ht; [|rewrite !length_take, !length_drop; lia].
  apply littleEndian_inj in Hb; [|rewrite !length_take, !length_drop; lia].
  apply littleEndian_inj in Hn; [|rewrite !length_take, !length_drop; lia].
  assert (Hparts : forall l : list byte,
            l = take 4 l ++ take 32 (drop 4 l) ++ take 32 (drop 36 l)
                ++ take 4 (drop 68 l) ++ take 4 (drop 72 l) ++ drop 76 l).
  { clear. intros l.
    rewrite <- (take_drop 4 l) at 1. f_equal.
    rewrite <- (take_drop 32 (drop 4 l)) at 1. f_equal. rewrite drop_drop. simpl.
    rewrite <- (take_drop 32 (drop 36 l)) at 1. f_equal. rewrite drop_drop. simpl.
    rewrite <- (take_drop 4 (drop 68 l)) at 1. f_equal. rewrite drop_drop. simpl.
    rewrite <- (take_drop 4 (drop 72 l)) at 1. f_equal. rewrite drop_drop. reflexivity. }
  rewrite (Hparts hb), (Hparts hb').
  rewrite <- (take_ge (drop 76 hb) 4), <- (take_ge (drop 76 hb') 4)
    by (rewrite length_drop; lia).
  congruence.
Qed.

Lemma header_fields_witness :
  exists h,
    readBlockHeader sampleProof = inr (h, sampleBody) /\
    (- 2 ^ 31 <= Version h < 2 ^ 31)%Z /\ length (MerkleRoot h) = 32.
Proof.
  eexists. split; [vm_compute; reflexivity|].
  match goal with
  | |- (_ <= Version ?h < _)%Z /\ _ =>
      destruct (header_fields sampleProof h sampleBody) as (Hv & _ & Hm & _)
  end; [vm_compute; reflexivity|].
  split; [exact Hv|exact Hm].
Defined.

(** * The height of the tree *)

(** X9: the height [buildMerkleTreeDot] computes for a transaction count
    (a [uint32]) is the least [h] with [totalTx <= 2^h]: between 0 and
    32, and 0 for a count of 0 or 1. *)
Theorem treeHeight_least (totalTx : Z) :
  (0 <= totalTx < 2 ^ 32)%Z ->
  (0 <= treeHeight totalTx <= 32)%Z /\
  (totalTx <= 2 ^ treeHeight totalTx)%Z /\
  (forall k, 0 <= k -> totalTx <= 2 ^ k -> treeHeight totalTx <= k)%Z /\
  (totalTx <= 1 -> treeHeight totalTx = 0)%Z.
Proof.
  intros Hr. destruct (treeHeight_spec totalTx Hr) as (H0 & Hle & Hmin).
  assert (Hk : forall k, (0 <= k -> totalTx <= 2 ^ k -> treeHeight totalTx <= k)%Z).
  { intros k Hk Hlek. destruct Hmin as [->|Hlt]; [lia|].
    destruct (Z_le_gt_dec (treeHeight totalTx) k) as [|Hgt]; [assumption|].
    assert (2 ^ k <= 2 ^ (treeHeight totalTx - 1))%Z by (apply Z.pow_le_mono_r; lia). lia. }
  split; [split; [exact H0|apply Hk; lia]|]. split; [exact Hle|]. split; [exact Hk|].
  intros H1. specialize (Hk 0%Z). simpl in Hk. lia.
Qed.

Lemma treeHeight_least_witness :
  treeHeight 5 = 3%Z /\ (5 <= 2 ^ treeHeight 5)%Z /\ (treeHeight 5 <= 3)%Z.
Proof.
  destruct (treeHeight_least 5) as (_ & Hle & Hmin & _); [lia|].
  split; [reflexivity|]. split; [exact Hle|]. apply Hmin; lia.
Defined.

(** * Labels *)

Lemma EncodeToString_app a b :
  EncodeToString (a ++ b) = (EncodeToString a ++ EncodeToString b)%string.
Proof. induction a as [|x a IH]; [reflexivity|]. simpl. rewrite IH. reflexivity. Qed.

Lemma EncodeToString_length bs : String.length (EncodeToString bs) = 2 * length bs.
Proof. induction bs as [|b bs IH]; [reflexivity|]. simpl. rewrite IH. lia. Qed.

Lemma substring_prefix (s1 s2 : string) :
  substring 0 (String.length s1) (s1 ++ s2) = s1.
Proof. induction s1 as [|c s1 IH]; simpl; [destruct s2; reflexivity|]. rewrite IH. reflexivity. Qed.

Lemma string_length_app (s1 s2 : string) :
  String.length (s1 ++ s2) = String.length s1 + String.length s2.
Proof. induction s1 as [|c s1 IH]; simpl; [reflexivity|]. rewrite IH. reflexivity. Qed.

Lemma hex_digit_inj a b : (a < 16)%N -> (b < 16)%N -> hex_digit a = hex_digit b -> a = b.
Proof.
  intros Ha Hb H.
  assert (Some a = Some b) as E; [|congruence].
  rewrite <- (fromHexChar_hex_digit a Ha), <- (fromHexChar_hex_digit b Hb), H. reflexivity.
Qed.

Lemma EncodeToString_inj a b : EncodeToString a = EncodeToString b -> a = b.
Proof.
  intros H. assert (@inr HexError _ a = inr b) as E; [|congruence].
  rewrite <- (DecodeString_EncodeToString a), <- (DecodeString_EncodeToString b), H.
  reflexivity.
Qed.

(** X10: the label of a node that is not the root shows the last four
    bytes of its hash, the last one first, as eight hexadecimal digits
    between quotes and before three dots: thirteen characters.  Two
    hashes get the same label exactly when their last four bytes are the
    same. *)
Theorem nodeLabel_last_four (front back : list byte) :
  length back = 4 ->
  nodeLabel (front ++ back)
    = (quote ++ EncodeToString (reverseBytes back) ++ "..." ++ quote)%string /\
  String.length (nodeLabel (front ++ back)) = 13 /\
  forall front' back', length back' = 4 ->
    (nodeLabel (front ++ back) = nodeLabel (front' ++ back') <-> back = back').
Proof.
  assert (Hlabel : forall f b, length b = 4 ->
            nodeLabel (f ++ b)
            = (quote ++ EncodeToString (reverseBytes b) ++ "..." ++ quote)%string).
  { intros f b Hb. unfold nodeLabel, reverseBytes. rewrite rev_app_distr, EncodeToString_app.
    replace 8 with (String.length (EncodeToString (rev b)))
      by (rewrite EncodeToString_length, length_rev; lia).
    rewrite substring_prefix. reflexivity. }
  intros Hb. split; [apply Hlabel; exact Hb|]. split.
  - rewrite (Hlabel _ _ Hb). unfold quote. simpl.
    rewrite string_length_app, EncodeToString_length. unfold reverseBytes.
    rewrite length_rev, Hb. reflexivity.
  - intros front' back' Hb'. rewrite (Hlabel _ _ Hb), (Hlabel _ _ Hb'). split.
    + intros H. unfold quote in H. simpl in H. injection H as H.
      assert (E : EncodeToString (reverseBytes back) = EncodeToString (reverseBytes back')).
      { assert (Hcut : forall x y t : string,
                  String.length x = String.length y -> (x ++ t)%string = (y ++ t)%string ->
                  x = y).
        { clear. induction x as [|c x IH]; intros [|d y] t Hl Hxy; try discriminate;
            [reflexivity|].
          simpl in *. injection Hxy as -> Hxy. f_equal. eapply IH; eauto. }
        eapply Hcut; [|exact H].
        rewrite !EncodeToString_length. unfold reverseBytes. rewrite !length_rev. lia. }
      apply EncodeToString_inj in E. unfold reverseBytes in E.
      rewrite <- (rev_involutive back), <- (rev_involutive back'), E. reflexivity.
    + intros ->. reflexivity.
Qed.

Lemma nodeLabel_last_four_witness :
  nodeLabel (sampleHash Byte.x0a)
  = (quote ++ "0a0a0a0a" ++ "..." ++ quote)%string.
Proof.
  destruct (nodeLabel_last_four (repeat Byte.x0a 28) (repeat Byte.x0a 4)) as [H _];
    [reflexivity|].
  exact H.
Defined.

(** * Induction over the walk

    A property of the state that holds at the start and that the four
    steps keep holds in every state of the walk and in the state every
    call returns from. *)
Section WalkInduction.
Context (vbits : list bool) (hashes : list (list byte)) (height : Z).
Variable J : Walk -> Prop.

Hypothesis J_start : J start.
Hypothesis J_leaf : keptByLeaf vbits hashes height J.
Hypothesis J_left : keptByLeft vbits hashes height J.
Hypothesis J_right : keptByRight hashes J.
Hypothesis J_fold : keptByFold hashes J.

Lemma J_visitNode t s1 c n :
  Inv hashes t -> J t ->
  current t = Some c -> binTree (branch t) !! c = Some n -> Left n = None ->
  visitNode vbits hashes height t = inr s1 ->
  J (bump s1).
Proof.
  intros HI HJ Hc Hn HL Hv.
  destruct (Inv_current_node _ _ _ HI Hc) as (n0 & Hn0 & Hh & Hok).
  rewrite Hn in Hn0. injection Hn0 as <-.
  unfold currentOK in Hok. rewrite HL in Hok.
  destruct (Right n) as [r|] eqn:HR; [contradiction|]. destruct Hok as [Hlast Hlen].
  apply visitNode_inr in Hv as (flag & c' & n' & Hf & Hc' & Hn' & Hvi & Hcase).
  rewrite Hc in Hc'. injection Hc' as <-. rewrite Hn in Hn'. injection Hn' as <-.
  assert (Hcv : c = vbitsIndex t) by lia.
  destruct Hcase as [(Hleaf & h & Hh' & Hbt & Ht & Hcur & Hhi & Hd)
                    |(Hin & Hbt & Ht & Hcur & Hhi & Hd)].
  - eapply (J_leaf t (bump s1) c n flag h); eauto; simpl; try congruence.
  - apply orb_false_iff in Hin as [Hflag Hdep]. apply negb_false_iff in Hflag. subst flag.
    eapply (J_left t (bump s1) c n); eauto; simpl; try congruence.
Qed.

Lemma J_goRight_node s c n l :
  Inv hashes s -> J s ->
  current s = Some c -> binTree (branch s) !! c = Some n ->
  Left n = Some l -> Right n = None ->
  J (goRight s c).
Proof.
  intros HI HJ Hc Hn HL HR.
  destruct (Inv_current_node _ _ _ HI Hc) as (n0 & Hn0 & Hh & Hok).
  rewrite Hn in Hn0. injection Hn0 as <-.
  unfold currentOK in Hok. rewrite HL, HR in Hok. destruct Hok as [_ Hlen].
  eapply J_right; eauto.
Qed.

Lemma J_goUp s s' c n l r :
  Inv hashes s -> J s ->
  current s = Some c -> binTree (branch s) !! c = Some n ->
  Left n = Some l -> Right n = Some r ->
  goUp s c n l r = inr s' ->
  J s'.
Proof.
  intros HI HJ Hc Hn HL HR Hg.
  destruct (Inv_current_node _ _ _ HI Hc) as (n0 & Hn0 & Hh & Hok).
  rewrite Hn in Hn0. injection Hn0 as <-.
  unfold currentOK in Hok. rewrite HL, HR in Hok. destruct Hok as ([lh Hl] & [rh Hr] & _).
  apply (goUp_inr _ _ _ _ _ _ Hn) in Hg as (m' & <- & Hcur & Hvi & Hhi & Hd & Ht & Hm).
  rewrite Hh in Hm. destruct Hm as (nl & nr & Hnl & Hnr & Hbt).
  assert (Hash nl = Some lh) as Elh by (unfold hashOf in Hl; rewrite Hnl in Hl; exact Hl).
  assert (Hash nr = Some rh) as Erh by (unfold hashOf in Hr; rewrite Hnr in Hr; exact Hr).
  rewrite Elh, Erh in Hbt. simpl in Hbt.
  eapply (J_fold s s' c n l r lh rh); eauto.
Qed.

Lemma J_finish s sf root :
  Inv hashes s -> J s -> finish s = inl (Return sf root) -> J sf.
Proof.
  intros HI HJ Hf.
  destruct (finish_Return _ _ _ _ HI Hf)
    as (c & n & l & r & lh & rh & Hc & Hn & Hh & HL & HR & Hl & Hr & -> & ->).
  eapply (J_fold s _ c n l r lh rh); eauto.
Qed.

Lemma J_iteration s s' :
  Inv hashes s -> J s -> iteration vbits hashes height s = inr s' -> J s'.
Proof.
  intros HI HJ Hit.
  apply iteration_inr in Hit as (_ & c & n & Hc & Hn & Hcase).
  destruct Hcase as [(l & r & HL & HR & Hg)|[(l & HL & HR & Hv)|(HL & Hv)]].
  - eapply J_goUp; eauto.
  - apply visit_inr in Hv as (s1 & Hv & -> & _).
    destruct (Inv_goRight_current s c n Hn) as [Hgc Hgn].
    eapply (J_visitNode (goRight s c)); eauto.
    + eapply Inv_goRight; eauto.
    + eapply J_goRight_node; eauto.
  - apply visit_inr in Hv as (s1 & Hv & -> & _). eapply J_visitNode; eauto.
Qed.

Lemma J_reachable s : reachable vbits hashes height s -> J s.
Proof.
  induction 1 as [|s s' Hr IH Hit]; [exact J_start|].
  destruct (reachable_Inv _ _ _ _ Hr) as [HI _]. eapply J_iteration; eauto.
Qed.

(** The state a turn leaves the loop with. *)
Lemma J_leave s sf :
  reachable vbits hashes height s ->
  (exists root, iteration vbits hashes height s = inl (Return sf root)) \/
  (exists e, iteration vbits hashes height s = inl (Fail sf e)) ->
  J sf.
Proof.
  intros Hr Hex. destruct (reachable_Inv _ _ _ _ Hr) as [HI HF].
  pose proof (J_reachable _ Hr) as HJ.
  assert (Hit : exists e, iteration vbits hashes height s = inl e /\
                  ((exists root, e = Return sf root) \/ exists e', e = Fail sf e')).
  { destruct Hex as [[root H]|[e H]]; eexists; (split; [exact H|]); eauto. }
  destruct Hit as (e & Hit & He). unfold iteration in Hit.
  destruct (decide (hashesIndex s = length hashes)) as [Hh|Hh].
  - destruct He as [[root ->]|[e' ->]].
    + eapply J_finish; eauto.
    + apply (finish_Fail _ _ _ _ HI) in Hit as [-> _]. exact HJ.
  - destruct (deref (branch s) (current s)) as [x|[c n]] eqn:Ed.
    { simpl in Hit. injection Hit as <-. apply deref_Panicked in Ed as [k ->].
      destruct He as [[? ?]|[? ?]]; discriminate. }
    apply deref_inr in Ed as [Hc Hn]. simpl in Hit.
    assert (Hvisit : forall t c' n',
              Inv hashes t -> J t -> current t = Some c' ->
              binTree (branch t) !! c' = Some n' -> Left n' = None ->
              visit vbits hashes height t = inl e -> J sf).
    { intros t c' n' HIt HJt Hct Hnt HLt Hv. unfold visit in Hv.
      destruct (visitNode vbits hashes height t) as [x|s1] eqn:Ev.
      - simpl in Hv. injection Hv as <-. apply visitNode_Panicked in Ev as [k ->].
        destruct He as [[? ?]|[? ?]]; discriminate.
      - simpl in Hv. apply nextFlag_inl in Hv as [-> _].
        destruct He as [[? ?]|[e' He]]; [discriminate|]. injection He as <- _.
        eapply J_visitNode; eauto. }
    destruct (Left n) as [l|] eqn:HL; [destruct (Right n) as [r|] eqn:HR|].
    + destruct (goUp_Inv _ _ _ _ _ _ HI Hc Hn HL HR) as [s' Hg]. congruence.
    + destruct (Inv_goRight_current s c n Hn) as [Hgc Hgn].
      eapply (Hvisit (goRight s c)); eauto.
      * eapply Inv_goRight; eauto.
      * eapply J_goRight_node; eauto.
    + eapply (Hvisit s); eauto.
Qed.

Lemma J_exit sf :
  (exists root, CreateMerkleBranch vbits hashes height = Exited (Return sf root)) \/
  (exists e, CreateMerkleBranch vbits hashes height = Exited (Fail sf e)) ->
  J sf.
Proof.
  intros [[root H]|[e H]]; apply CreateMerkleBranch_exit in H as (s & Hr & Hit);
    eapply J_leave; eauto.
Qed.

End WalkInduction.

(** * The shape of the tree: proofs *)

Lemma lookup_grow_inv (f : MerkleNode -> MerkleNode) c (bt : list MerkleNode) x i y :
  alter f c (bt ++ [x]) !! i = Some y ->
  (i = c /\ i < length bt /\ exists n, bt !! c = Some n /\ y = f n) \/
  (i = length bt /\ y = (if decide (c = length bt) then f x else x)) \/
  (i <> c /\ i < length bt /\ bt !! i = Some y).
Proof.
  intros H. apply lookup_alter_inv in H as [(-> & n & Hn & ->)|[Hne H]].
  - apply lookup_snoc_inv in Hn as [[-> ->]|[Hlt Hn]].
    + right. left. split; [reflexivity|]. destruct (decide _); [reflexivity|contradiction].
    + left. eauto.
  - apply lookup_snoc_inv in H as [[-> ->]|[Hlt H]].
    + right. left. split; [reflexivity|]. destruct (decide _); [congruence|reflexivity].
    + right. right. auto.
Qed.

Lemma lookup_grow_old (f : MerkleNode -> MerkleNode) c (bt : list MerkleNode) x i n :
  bt !! i = Some n ->
  alter f c (bt ++ [x]) !! i = Some (if decide (i = c) then f n else n).
Proof.
  intros H. destruct (decide (i = c)) as [->|Hne].
  - rewrite list_lookup_alter_eq, lookup_app_l by (eapply lookup_lt_Some; eauto).
    rewrite H. reflexivity.
  - rewrite list_lookup_alter_ne by auto. rewrite lookup_app_l by (eapply lookup_lt_Some; eauto).
    exact H.
Qed.

Lemma lookup_grow_new (f : MerkleNode -> MerkleNode) c (bt : list MerkleNode) x :
  c < length bt -> alter f c (bt ++ [x]) !! length bt = Some x.
Proof.
  intros H. rewrite list_lookup_alter_ne by lia. rewrite lookup_app_r by lia.
  rewrite Nat.sub_diag. reflexivity.
Qed.

Lemma keeps_setHash h c bt : keepsPointers bt (alter (setHash h) c bt).
Proof.
  intros j m Hj. destruct (decide (j = c)) as [->|Hne].
  - rewrite list_lookup_alter_eq, Hj. eexists. split; reflexivity.
  - rewrite list_lookup_alter_ne by auto. eauto.
Qed.

Lemma keeps_grow f c bt x :
  (forall n, Parent (f n) = Parent n) -> keepsPointers bt (alter f c (bt ++ [x])).
Proof.
  intros Hf j m Hj. rewrite (lookup_grow_old f c bt x j m Hj).
  destruct (decide (j = c)); eauto.
Qed.

Lemma levelOf_keep bt bt' i d :
  keepsPointers bt bt' -> levelOf bt i d -> levelOf bt' i d.
Proof.
  intros Hk H. induction H as [i n Hi HP|i n p d Hi HP _ IH].
  - destruct (Hk _ _ Hi) as (n' & Hn' & HP'). eapply level_root; eauto. congruence.
  - destruct (Hk _ _ Hi) as (n' & Hn' & HP'). eapply level_child; eauto. congruence.
Qed.

Lemma levelOf_fun bt i d : levelOf bt i d -> forall d', levelOf bt i d' -> d = d'.
Proof.
  induction 1 as [i n Hi HP|i n p d Hi HP _ IH]; intros d' H'; inversion H'; subst;
    try congruence.
  assert (p = p0) by congruence. subst. f_equal. apply IH. assumption.
Qed.

Lemma levelOf_nonneg bt i d : levelOf bt i d -> (0 <= d)%Z.
Proof. induction 1; lia. Qed.

Lemma spine_levelOf bt c d : spine bt (Some c) d -> levelOf bt c d.
Proof.
  remember (Some c) as o eqn:Ho. intros H. revert c Ho.
  induction H as [|c n d Hc Hh Hch Hsp IH]; intros c' Ho; [discriminate|].
  injection Ho as <-. destruct (Parent n) as [p|] eqn:HP.
  - replace d with ((d - 1) + 1)%Z by lia. eapply level_child; eauto.
  - inversion Hsp; subst. replace d with 0%Z by lia. eapply level_root; eauto.
Qed.

Section Shape.
Context (vbits : list bool) (hashes : list (list byte)) (height : Z).

Lemma wf_start : wellFormed (binTree (branch start)).
Proof.
  split; simpl.
  - intros [|[|i]] n l Hi; try discriminate. injection Hi as <-. discriminate.
  - intros [|[|i]] n r Hi; try discriminate. injection Hi as <-. discriminate.
  - intros [|[|i]] n p Hi; try discriminate. injection Hi as <-. discriminate.
  - intros [|[|i]] n Hi; try discriminate. injection Hi as <-. split; reflexivity.
Qed.

Lemma wf_setHash h c bt : wellFormed bt -> wellFormed (alter (setHash h) c bt).
Proof.
  intros W.
  assert (Hback : forall i n', alter (setHash h) c bt !! i = Some n' ->
            exists n, bt !! i = Some n /\ Parent n' = Parent n /\
                      Left n' = Left n /\ Right n' = Right n).
  { intros i n' Hi. apply lookup_alter_inv in Hi as [(-> & n & Hn & ->)|[Hne Hi]]; eauto. }
  assert (Hfwd : forall i n, bt !! i = Some n ->
            exists n', alter (setHash h) c bt !! i = Some n' /\ Parent n' = Parent n /\
                       Left n' = Left n /\ Right n' = Right n).
  { intros i n Hi. destruct (decide (i = c)) as [->|Hne].
    - rewrite list_lookup_alter_eq, Hi. eexists. repeat split.
    - rewrite list_lookup_alter_ne by auto. eauto. }
  split.
  - intros i n' l Hi HL. destruct (Hback _ _ Hi) as (n & Hn & _ & EL & _).
    rewrite EL in HL. destruct (wf_left _ W _ _ _ Hn HL) as (-> & nl & Hnl & HP).
    split; [reflexivity|]. destruct (Hfwd _ _ Hnl) as (nl' & ? & ? & _).
    exists nl'. split; [assumption|congruence].
  - intros i n' r Hi HR. destruct (Hback _ _ Hi) as (n & Hn & _ & EL & ER).
    rewrite ER in HR. destruct (wf_right _ W _ _ _ Hn HR) as (Hlt & HLs & nr & Hnr & HP).
    split; [exact Hlt|]. split; [rewrite EL; exact HLs|].
    destruct (Hfwd _ _ Hnr) as (nr' & ? & ? & _). exists nr'. split; [assumption|congruence].
  - intros i n' p Hi HP. destruct (Hback _ _ Hi) as (n & Hn & EP & _).
    rewrite EP in HP. destruct (wf_parent _ W _ _ _ Hn HP) as (np & Hnp & Hkind).
    destruct (Hfwd _ _ Hnp) as (np' & ? & _ & EL' & ER'). exists np'.
    split; [assumption|]. rewrite EL', ER'. exact Hkind.
  - intros i n' Hi. destruct (Hback _ _ Hi) as (n & Hn & EP & _). rewrite EP.
    apply (wf_root _ W _ _ Hn).
Qed.

(** A node without children gets its left child, the next node. *)
Lemma wf_grow_left c n bt :
  wellFormed bt -> bt !! c = Some n -> Left n = None -> Right n = None ->
  S c = length bt ->
  wellFormed (alter (setLeft (length bt)) c (bt ++ [NewBinTree (Some c)])).
Proof.
  intros W Hc HL HR Hlast. set (bt' := alter _ c _).
  assert (Hclt : c < length bt) by lia.
  assert (Hnew : bt' !! length bt = Some (NewBinTree (Some c))) by (apply lookup_grow_new; lia).
  assert (Hc' : bt' !! c = Some (setLeft (length bt) n)).
  { unfold bt'. rewrite (lookup_grow_old _ _ _ _ _ _ Hc). destruct (decide (c = c)); congruence. }
  assert (Hold : forall i m, i <> c -> bt !! i = Some m -> bt' !! i = Some m).
  { intros i m Hne Hi. unfold bt'. rewrite (lookup_grow_old _ _ _ _ _ _ Hi).
    destruct (decide (i = c)); congruence. }
  assert (Hinv : forall i y, bt' !! i = Some y ->
            (i = c /\ y = setLeft (length bt) n) \/
            (i = length bt /\ y = NewBinTree (Some c)) \/
            (i <> c /\ bt !! i = Some y)).
  { intros i y Hi. apply lookup_grow_inv in Hi as [(-> & _ & m & Hm & ->)|[[-> ->]|(? & ? & ?)]].
    - left. rewrite Hc in Hm. injection Hm as <-. auto.
    - right. left. destruct (decide (c = length bt)); [lia|auto].
    - auto. }
  assert (Hkeep : forall j m, bt !! j = Some m ->
            exists m', bt' !! j = Some m' /\ Parent m' = Parent m).
  { apply keeps_grow. reflexivity. }
  split.
  - intros i y l Hi Hl. apply Hinv in Hi as [[-> ->]|[[-> ->]|[Hne Hi]]].
    + simpl in Hl. injection Hl as <-. split; [lia|]. eauto.
    + discriminate.
    + destruct (wf_left _ W _ _ _ Hi Hl) as (-> & nl & Hnl & HP).
      split; [reflexivity|]. destruct (Hkeep _ _ Hnl) as (m' & ? & ?).
      exists m'. split; [assumption|congruence].
  - intros i y r Hi Hr. apply Hinv in Hi as [[-> ->]|[[-> ->]|[Hne Hi]]].
    + simpl in Hr. congruence.
    + discriminate.
    + destruct (wf_right _ W _ _ _ Hi Hr) as (Hlt & HLs & nr & Hnr & HP).
      split; [exact Hlt|]. split; [exact HLs|]. destruct (Hkeep _ _ Hnr) as (m' & ? & ?).
      exists m'. split; [assumption|congruence].
  - intros i y p Hi HP. apply Hinv in Hi as [[-> ->]|[[-> ->]|[Hne Hi]]].
    + simpl in HP. destruct (wf_parent _ W _ _ _ Hc HP) as (np & Hnp & Hkind).
      assert (p <> c).
      { intros ->. rewrite Hc in Hnp. injection Hnp as <-. destruct Hkind; congruence. }
      exists np. split; [apply Hold; auto|exact Hkind].
    + simpl in HP. injection HP as <-. exists (setLeft (length bt) n). split; [exact Hc'|].
      left. reflexivity.
    + destruct (wf_parent _ W _ _ _ Hi HP) as (np & Hnp & Hkind).
      assert (p <> c).
      { intros ->. rewrite Hc in Hnp. injection Hnp as <-. destruct Hkind; congruence. }
      exists np. split; [apply Hold; auto|exact Hkind].
  - intros i y Hi. apply Hinv in Hi as [[-> ->]|[[-> ->]|[Hne Hi]]].
    + simpl. apply (wf_root _ W _ _ Hc).
    + simpl. split; [discriminate|lia].
    + apply (wf_root _ W _ _ Hi).
Qed.

(** A node with a left child gets its right child, the newest node. *)
Lemma wf_grow_right c n l bt :
  wellFormed bt -> bt !! c = Some n -> Left n = Some l -> Right n = None ->
  wellFormed (alter (setRight (length bt)) c (bt ++ [NewBinTree (Some c)])).
Proof.
  intros W Hc HL HR. set (bt' := alter _ c _).
  destruct (wf_left _ W _ _ _ Hc HL) as (-> & nl & Hnl & HPl).
  assert (Hllt : S c < length bt) by (eapply lookup_lt_Some; eauto).
  assert (Hclt : c < length bt) by lia.
  assert (Hnew : bt' !! length bt = Some (NewBinTree (Some c))) by (apply lookup_grow_new; lia).
  assert (Hc' : bt' !! c = Some (setRight (length bt) n)).
  { unfold bt'. rewrite (lookup_grow_old _ _ _ _ _ _ Hc). destruct (decide (c = c)); congruence. }
  assert (Hold : forall i m, i <> c -> bt !! i = Some m -> bt' !! i = Some m).
  { intros i m Hne Hi. unfold bt'. rewrite (lookup_grow_old _ _ _ _ _ _ Hi).
    destruct (decide (i = c)); congruence. }
  assert (Hinv : forall i y, bt' !! i = Some y ->
            (i = c /\ y = setRight (length bt) n) \/
            (i = length bt /\ y = NewBinTree (Some c)) \/
            (i <> c /\ bt !! i = Some y)).
  { intros i y Hi. apply lookup_grow_inv in Hi as [(-> & _ & m & Hm & ->)|[[-> ->]|(? & ? & ?)]].
    - left. rewrite Hc in Hm. injection Hm as <-. auto.
    - right. left. destruct (decide (c = length bt)); [lia|auto].
    - auto. }
  assert (Hkeep : forall j m, bt !! j = Some m ->
            exists m', bt' !! j = Some m' /\ Parent m' = Parent m).
  { apply keeps_grow. reflexivity. }
  split.
  - intros i y l Hi Hl. apply Hinv in Hi as [[-> ->]|[[-> ->]|[Hne Hi]]].
    + simpl in Hl. rewrite HL in Hl. injection Hl as <-. split; [reflexivity|].
      exists nl. split; [apply Hold; [lia|exact Hnl]|exact HPl].
    + discriminate.
    + destruct (wf_left _ W _ _ _ Hi Hl) as (-> & nl' & Hnl' & HP).
      split; [reflexivity|]. destruct (Hkeep _ _ Hnl') as (m' & ? & ?).
      exists m'. split; [assumption|congruence].
  - intros i y r Hi Hr. apply Hinv in Hi as [[-> ->]|[[-> ->]|[Hne Hi]]].
    + simpl in Hr. injection Hr as <-. split; [exact Hllt|]. split; [simpl; eauto|]. eauto.
    + discriminate.
    + destruct (wf_right _ W _ _ _ Hi Hr) as (Hlt & HLs & nr & Hnr & HP).
      split; [exact Hlt|]. split; [exact HLs|]. destruct (Hkeep _ _ Hnr) as (m' & ? & ?).
      exists m'. split; [assumption|congruence].
  - intros i y p Hi HP. apply Hinv in Hi as [[-> ->]|[[-> ->]|[Hne Hi]]].
    + simpl in HP. destruct (wf_parent _ W _ _ _ Hc HP) as (np & Hnp & Hkind).
      assert (p <> c).
      { intros ->. rewrite Hc in Hnp. injection Hnp as <-.
        destruct Hkind as [E|E]; [rewrite HL in E; injection E; lia|congruence]. }
      exists np. split; [apply Hold; auto|exact Hkind].
    + simpl in HP. injection HP as <-. exists (setRight (length bt) n). split; [exact Hc'|].
      right. reflexivity.
    + destruct (wf_parent _ W _ _ _ Hi HP) as (np & Hnp & Hkind).
      destruct (decide (p = c)) as [->|Hpc].
      * rewrite Hc in Hnp. injection Hnp as <-. exists (setRight (length bt) n).
        split; [exact Hc'|]. destruct Hkind as [E|E]; [left; exact E|congruence].
      * exists np. split; [apply Hold; auto|exact Hkind].
  - intros i y Hi. apply Hinv in Hi as [[-> ->]|[[-> ->]|[Hne Hi]]].
    + simpl. apply (wf_root _ W _ _ Hc).
    + simpl. split; [discriminate|lia].
    + apply (wf_root _ W _ _ Hi).
Qed.

Lemma wf_leaf :
  keptByLeaf vbits hashes height (fun s => wellFormed (binTree (branch s))).
Proof.
  intros s s1 c n flag h _ HW _ _ _ _ _ _ _ _ _ _ Hbt _ _ _ _ _.
  rewrite Hbt. apply wf_setHash. exact HW.
Qed.

Lemma wf_left_step :
  keptByLeft vbits hashes height (fun s => wellFormed (binTree (branch s))).
Proof.
  intros s s1 c n _ HW _ Hn _ HL HR Hlast _ _ _ Hbt _ _ _ _ _.
  rewrite Hbt. eapply wf_grow_left; eauto.
Qed.

Lemma wf_right_step : keptByRight hashes (fun s => wellFormed (binTree (branch s))).
Proof.
  intros s c n l _ HW _ Hn _ HL HR _. simpl. eapply wf_grow_right; eauto.
Qed.

Lemma wf_fold : keptByFold hashes (fun s => wellFormed (binTree (branch s))).
Proof.
  intros s s' c n l r lh rh _ HW _ _ _ _ _ _ _ Hbt _ _ _ _.
  rewrite Hbt. apply wf_setHash. exact HW.
Qed.

Lemma wf_reachable s :
  reachable vbits hashes height s -> wellFormed (binTree (branch s)).
Proof.
  apply (J_reachable vbits hashes height (fun s => wellFormed (binTree (branch s))));
    auto using wf_start, wf_leaf, wf_left_step, wf_right_step, wf_fold.
Qed.

Lemma wf_exit sf :
  (exists root, CreateMerkleBranch vbits hashes height = Exited (Return sf root)) \/
  (exists e, CreateMerkleBranch vbits hashes height = Exited (Fail sf e)) ->
  wellFormed (binTree (branch sf)).
Proof.
  apply (J_exit vbits hashes height (fun s => wellFormed (binTree (branch s))));
    auto using wf_start, wf_leaf, wf_left_step, wf_right_step, wf_fold.
Qed.

End Shape.

(** * Counting the nodes *)

Lemma countPointers_app bt x : countPointers (bt ++ [x]) = countPointers bt + pointers x.
Proof. induction bt as [|n bt IH]; simpl; [lia|]. rewrite IH. lia. Qed.

Lemma countPointers_alter f c bt n :
  bt !! c = Some n ->
  countPointers (alter f c bt) + pointers n = countPointers bt + pointers (f n).
Proof.
  revert c. induction bt as [|m bt IH]; intros [|c] H; try discriminate.
  - injection H as ->. rewrite alter_cons_O. simpl. lia.
  - rewrite alter_cons_S. cbn [countPointers]. specialize (IH c H). lia.
Qed.

Lemma countPointers_leaves bt :
  Forall (fun n => Right n = None \/ is_Some (Left n)) bt ->
  length bt <= countPointers bt + countLeaves bt /\
  countPointers bt + 2 * countLeaves bt <= 2 * length bt /\
  (Forall (fun n => Left n = None \/ is_Some (Right n)) bt ->
   countPointers bt + 2 * countLeaves bt = 2 * length bt).
Proof.
  induction 1 as [|n bt Hn _ (IH1 & IH2 & IH3)].
  { simpl. repeat split; lia. }
  cbn [countPointers countLeaves length]. unfold pointers, isLeaf.
  split; [|split].
  - destruct (Left n), (Right n); simpl; lia.
  - destruct (Left n), (Right n); simpl; lia.
  - intros Hf. apply Forall_cons in Hf as [Hf1 Hf2]. specialize (IH3 Hf2).
    destruct (Left n), (Right n); simpl; try lia.
    + destruct Hf1 as [?|[? ?]]; discriminate.
    + destruct Hn as [?|[? ?]]; discriminate.
Qed.

Section Counting.
Context (vbits : list bool) (hashes : list (list byte)) (height : Z).

Lemma count_leaf : keptByLeaf vbits hashes height counted.
Proof.
  intros s s1 c n flag h _ HJ _ Hn _ _ _ _ _ _ _ _ Hbt _ _ _ _ _.
  unfold counted in *. rewrite Hbt, length_alter.
  pose proof (countPointers_alter (setHash h) c _ n Hn) as Hc.
  change (pointers (setHash h n)) with (pointers n) in Hc. lia.
Qed.

Lemma count_left : keptByLeft vbits hashes height counted.
Proof.
  intros s s1 c n _ HJ _ Hn _ HL HR Hlast _ _ _ Hbt _ _ _ _ _.
  unfold counted in *. rewrite Hbt, length_alter, length_app. simpl.
  pose proof (countPointers_alter (setLeft (length (binTree (branch s)))) c
                (binTree (branch s) ++ [NewBinTree (Some c)]) n) as Hc.
  rewrite lookup_app_l in Hc by lia. specialize (Hc Hn).
  rewrite countPointers_app in Hc. unfold pointers in Hc. simpl in Hc.
  rewrite HL, HR in Hc. simpl in Hc. lia.
Qed.

Lemma count_right : keptByRight hashes counted.
Proof.
  intros s c n l _ HJ _ Hn _ HL HR _. unfold counted in *. simpl.
  rewrite length_alter, length_app. simpl.
  pose proof (countPointers_alter (setRight (length (binTree (branch s)))) c
                (binTree (branch s) ++ [NewBinTree (Some c)]) n) as Hc.
  rewrite lookup_app_l in Hc by (eapply lookup_lt_Some; eauto). specialize (Hc Hn).
  rewrite countPointers_app in Hc. unfold pointers in Hc. simpl in Hc.
  rewrite HL, HR in Hc. simpl in Hc. lia.
Qed.

Lemma count_fold : keptByFold hashes counted.
Proof.
  intros s s' c n l r lh rh _ HJ _ Hn _ _ _ _ _ Hbt _ _ _ _.
  unfold counted in *. rewrite Hbt, length_alter.
  pose proof (countPointers_alter (setHash (doubleSha256 (lh ++ rh))) c _ n Hn) as Hc.
  change (pointers (setHash (doubleSha256 (lh ++ rh)) n)) with (pointers n) in Hc. lia.
Qed.

Lemma count_exit sf :
  (exists root, CreateMerkleBranch vbits hashes height = Exited (Return sf root)) \/
  (exists e, CreateMerkleBranch vbits hashes height = Exited (Fail sf e)) ->
  counted sf.
Proof.
  apply (J_exit vbits hashes height counted);
    auto using count_leaf, count_left, count_right, count_fold.
  reflexivity.
Qed.

End Counting.

(** At the root every node is a leaf or has both children. *)
Lemma root_return_full (vbits : list bool) (hashes : list (list byte)) (height : Z)
    (sf : Walk) (root : list byte) :
  CreateMerkleBranch vbits hashes height = Exited (Return sf root) ->
  current sf = Some 0 ->
  Forall (fun n => Left n = None \/ is_Some (Right n)) (binTree (branch sf)).
Proof.
  intros H Hc.
  pose proof (CreateMerkleBranch_root _ _ _ _ _ H) as Hroot.
  apply CreateMerkleBranch_last in H as (s & _ & HI & HF & Hit).
  destruct (Return_state _ _ _ _ _ _ HI HF Hit) as ([Hnodes _] & _).
  destruct Hroot as [(_ & _ & Hall)|(c & Hc' & Hne & _)]; [|congruence].
  apply Forall_lookup. intros i n Hi. destruct (Hall _ _ Hi) as [h Hh'].
  pose proof (Hnodes _ _ Hi h Hh') as Hok.
  destruct (Left n), (Right n); try contradiction; eauto.
Qed.

Lemma return_right_left (vbits : list bool) (hashes : list (list byte)) (height : Z)
    (sf : Walk) (root : list byte) :
  CreateMerkleBranch vbits hashes height = Exited (Return sf root) ->
  Forall (fun n => Right n = None \/ is_Some (Left n)) (binTree (branch sf)).
Proof.
  intros H.
  pose proof (wf_exit vbits hashes height sf (or_introl (ex_intro _ root H))) as Hwf.
  apply Forall_lookup. intros i n Hi. destruct (Right n) as [r|] eqn:HR; [|auto].
  right. apply (wf_right _ Hwf _ _ _ Hi HR).
Qed.

Lemma size_exit (vbits : list bool) (hashes : list (list byte)) (height : Z)
    (sf : Walk) (root : list byte) :
  CreateMerkleBranch vbits hashes height = Exited (Return sf root) ->
  vbitsIndex sf = length (binTree (branch sf)) /\
  2 * length hashes <= length (binTree (branch sf)) + 1 /\
  (current sf = Some 0 ->
   length (binTree (branch sf)) + 1 = 2 * length hashes /\
   2 * length hashes <= length vbits).
Proof.
  intros H.
  pose proof (count_exit vbits hashes height sf (or_introl (ex_intro _ root H))) as Hcount.
  unfold counted in Hcount.
  pose proof (success_counts _ _ _ _ _ H) as (Hh & Hleaves & Hv & Hlt).
  destruct (countPointers_leaves _ (return_right_left _ _ _ _ _ H)) as (_ & Hle & Heq).
  split; [exact Hv|]. split; [lia|].
  intros Hc. specialize (Heq (root_return_full _ _ _ _ _ H Hc)). lia.
Qed.

(** X11: the nodes and the hashes of an accepted proof.  A call that
    returns a root has made at least [2 * len(hashes) - 1] nodes and read
    as many flags; when it returns at the root it has made exactly that
    many, so that [vbits] holds at least [2 * len(hashes)] flags. *)
Theorem accepted_proof_size (vbits : list bool) (hashes : list (list byte)) (height : Z)
    (sf : Walk) (root : list byte) :
  CreateMerkleBranch vbits hashes height = Exited (Return sf root) ->
  vbitsIndex sf = length (binTree (branch sf)) /\
  2 * length hashes <= length (binTree (branch sf)) + 1 /\
  (current sf = Some 0 ->
   length (binTree (branch sf)) + 1 = 2 * length hashes /\
   2 * length hashes <= length vbits).
Proof. apply size_exit. Qed.

Lemma accepted_proof_size_witness :
  exists sf root,
    CreateMerkleBranch [true; true; false; false; false; false; false; false]
      [sampleHash Byte.x0a; sampleHash Byte.x0b; sampleHash Byte.x0c] 2
    = Exited (Return sf root) /\
    vbitsIndex sf = 5 /\ length (binTree (branch sf)) + 1 = 2 * 3.
Proof.
  assert (H : exists sf root,
            CreateMerkleBranch [true; true; false; false; false; false; false; false]
              [sampleHash Byte.x0a; sampleHash Byte.x0b; sampleHash Byte.x0c] 2
            = Exited (Return sf root) /\ current sf = Some 0 /\ vbitsIndex sf = 5)
    by (eexists _, _; vm_compute; repeat split; reflexivity).
  destruct H as (sf & root & H & Hc & Hv). exists sf, root. split; [exact H|].
  destruct (accepted_proof_size _ _ _ _ _ H) as (_ & _ & Hroot).
  destruct (Hroot Hc) as [Hn _]. split; [exact Hv|exact Hn].
Defined.

(** * The tree and the flags *)

Lemma followsFlags_keep vbits height bt bt' k :
  keepsPointers bt bt' ->
  (forall i n', bt' !! i = Some n' -> i < k ->
     exists n, bt !! i = Some n /\ Left n' = Left n) ->
  followsFlags vbits height bt k -> followsFlags vbits height bt' k.
Proof.
  intros Hk Hback HF i n' Hi Hlt. destruct (Hback _ _ Hi Hlt) as (n & Hn & EL).
  destruct (HF _ _ Hn Hlt) as (flag & d & Hf & Hl & H0 & Hh & Hiff).
  exists flag, d. rewrite EL. split; [assumption|]. split; [eapply levelOf_keep; eauto|].
  split; [assumption|]. split; assumption.
Qed.

Section Flags.
Context (vbits : list bool) (hashes : list (list byte)) (height : Z).

Lemma current_level s c :
  Inv hashes s -> current s = Some c -> levelOf (binTree (branch s)) c (depth s).
Proof.
  intros HI Hc. apply spine_levelOf. rewrite <- Hc. apply (inv_spine _ _ HI).
Qed.

Lemma processed_le s : Inv hashes s -> vbitsIndex s <= length (binTree (branch s)).
Proof.
  intros HI. destruct (current s) as [c|] eqn:Hc.
  - destruct (Inv_current_node _ _ _ HI Hc) as (n & Hn & _ & Hok).
    unfold currentOK in Hok. destruct (Left n), (Right n); try contradiction.
    + destruct Hok as (_ & _ & ->). lia.
    + destruct Hok as (_ & ->). lia.
    + destruct Hok as (_ & ->). lia.
  - rewrite (inv_nil _ _ HI Hc). lia.
Qed.

Lemma flags_start : flagsInv vbits height start.
Proof. split; [simpl; lia|]. intros i n _ Hlt. simpl in Hlt. lia. Qed.

Lemma flags_leaf : keptByLeaf vbits hashes height (flagsInv vbits height).
Proof.
  intros s s1 c n flag h HI [Hd HF] Hc Hn Hh HL HR Hlast Hcv Hflag Hleaf _ Hbt _ _ Hvi _ Hd1.
  split; [lia|]. rewrite Hvi, Hbt. intros i n' Hi Hlt.
  pose proof (keeps_setHash h c (binTree (branch s))) as Hk.
  destruct (decide (i = c)) as [->|Hne].
  - rewrite list_lookup_alter_eq, Hn in Hi. injection Hi as <-.
    pose proof (current_level s c HI Hc) as Hlev.
    exists flag, (depth s). split; [exact Hflag|].
    split; [eapply levelOf_keep; eauto|]. split; [eapply levelOf_nonneg; eauto|].
    split; [exact Hd|]. simpl. rewrite HL. split; [intros _|intros _; reflexivity].
    apply orb_true_iff in Hleaf as [Hf|Hf].
    + left. destruct flag; [discriminate|reflexivity].
    + right. lia.
  - rewrite list_lookup_alter_ne in Hi by auto.
    destruct (HF i n' Hi) as (fl & d & ? & ? & ? & ? & ?); [lia|].
    exists fl, d. split; [assumption|]. split; [eapply levelOf_keep; eauto|].
    split; [assumption|]. split; assumption.
Qed.

Lemma flags_left : keptByLeft vbits hashes height (flagsInv vbits height).
Proof.
  intros s s1 c n HI [Hd HF] Hc Hn Hh HL HR Hlast Hcv Hflag Hdep Hbt _ _ Hvi _ Hd1.
  split; [lia|]. rewrite Hvi, Hbt. intros i n' Hi Hlt.
  pose proof (keeps_grow (setLeft (length (binTree (branch s)))) c (binTree (branch s))
                (NewBinTree (Some c)) (fun _ => eq_refl)) as Hk.
  apply lookup_grow_inv in Hi as [(-> & _ & m & Hm & ->)|[[-> _]|(Hne & Hi1 & Hi)]].
  - rewrite Hn in Hm. injection Hm as <-.
    pose proof (current_level s c HI Hc) as Hlev.
    exists true, (depth s). split; [exact Hflag|].
    split; [eapply levelOf_keep; eauto|]. split; [eapply levelOf_nonneg; eauto|].
    split; [exact Hd|]. simpl. split; [discriminate|]. intros [?|?]; [discriminate|lia].
  - lia.
  - destruct (HF i n' Hi) as (fl & d & ? & ? & ? & ? & ?); [lia|].
    exists fl, d. split; [assumption|]. split; [eapply levelOf_keep; eauto|].
    split; [assumption|]. split; assumption.
Qed.

(** A node with a left child lies above depth [height]. *)
Lemma inner_above s c n l :
  Inv hashes s -> flagsInv vbits height s ->
  current s = Some c -> binTree (branch s) !! c = Some n -> Left n = Some l ->
  c < vbitsIndex s -> depth s <> height.
Proof.
  intros HI [Hd HF] Hc Hn HL Hclt.
  destruct (HF c n Hn Hclt) as (fl & d & Hfl & Hlev & H0 & Hdh & Hiff).
  pose proof (current_level s c HI Hc) as Hlev'.
  pose proof (levelOf_fun _ _ _ Hlev _ Hlev') as ->.
  intros E. destruct Hiff as [_ Hiff]. rewrite HL in Hiff.
  specialize (Hiff (or_intror E)). discriminate.
Qed.

Lemma flags_right : keptByRight hashes (flagsInv vbits height).
Proof.
  intros s c n l HI HJ Hc Hn Hh HL HR Hlen.
  assert (Hclt : c < vbitsIndex s).
  { rewrite <- Hlen. eapply lookup_lt_Some; eauto. }
  pose proof (inner_above s c n l HI HJ Hc Hn HL Hclt) as Hne.
  destruct HJ as [Hd HF].
  split; [simpl; lia|]. simpl.
  eapply followsFlags_keep; [apply keeps_grow; reflexivity| |exact HF].
  intros i n' Hi Hlt.
  apply lookup_grow_inv in Hi as [(-> & _ & m & Hm & ->)|[[-> _]|(Hne' & Hi1 & Hi)]]; eauto.
  lia.
Qed.

Lemma flags_fold : keptByFold hashes (flagsInv vbits height).
Proof.
  intros s s' c n l r lh rh HI [Hd HF] Hc Hn Hh HL HR _ _ Hbt _ Hvi _ Hcur.
  split; [destruct Hcur as [[_ ->]|[_ ->]]; lia|]. rewrite Hvi, Hbt.
  eapply followsFlags_keep; [apply keeps_setHash| |exact HF].
  intros i n' Hi _. apply lookup_alter_inv in Hi as [(-> & m & Hm & ->)|[Hne Hi]]; eauto.
Qed.

Lemma flags_exit sf :
  (exists root, CreateMerkleBranch vbits hashes height = Exited (Return sf root)) \/
  (exists e, CreateMerkleBranch vbits hashes height = Exited (Fail sf e)) ->
  flagsInv vbits height sf.
Proof.
  apply (J_exit vbits hashes height (flagsInv vbits height));
    auto using flags_start, flags_leaf, flags_left, flags_right, flags_fold.
Qed.

(** ** The target *)

Lemma target_other s c t n h :
  Inv hashes s -> current s = Some c ->
  binTree (branch s) !! t = Some n -> Hash n = Some h -> t <> c.
Proof.
  intros HI Hc Ht Hh ->.
  destruct (Inv_current_node _ _ _ HI Hc) as (n0 & Hn0 & Hh0 & _). congruence.
Qed.

Lemma target_same s bt' c t :
  Inv hashes s -> current s = Some c ->
  keepsPointers (binTree (branch s)) bt' ->
  (forall i m, i <> c -> binTree (branch s) !! i = Some m -> bt' !! i = Some m) ->
  targetOK vbits height (branch s) -> target (branch s) = Some t ->
  vbits !! t = Some true /\
  exists n h, bt' !! t = Some n /\ Hash n = Some h /\
              Left n = None /\ Right n = None /\ levelOf bt' t height.
Proof.
  intros HI Hc Hk Hold HT Ht. unfold targetOK in HT. rewrite Ht in HT.
  destruct HT as (Hfl & n & h & Hn & Hh & HL & HR & Hlev).
  split; [exact Hfl|]. exists n, h. split; [apply Hold; [eapply target_other|]; eauto|].
  repeat split; auto. eapply levelOf_keep; eauto.
Qed.

Lemma target_leaf : keptByLeaf vbits hashes height (fun s => targetOK vbits height (branch s)).
Proof.
  intros s s1 c n flag h HI HT Hc Hn Hh HL HR _ _ Hflag _ _ Hbt Htg _ _ _ _.
  unfold targetOK. rewrite Htg, Hbt.
  pose proof (keeps_setHash h c (binTree (branch s))) as Hk.
  destruct (flag && (depth s =? height)%Z) eqn:E.
  - apply andb_true_iff in E as [-> E]. split; [exact Hflag|].
    exists (setHash h n), h. rewrite list_lookup_alter_eq, Hn.
    repeat split; auto.
    eapply levelOf_keep; [exact Hk|]. replace height with (depth s) by lia.
    eapply current_level; eauto.
  - destruct (target (branch s)) as [t|] eqn:Et; [|exact I].
    eapply (target_same s _ c); eauto.
    intros i m Hne Hi. rewrite list_lookup_alter_ne by auto. exact Hi.
Qed.

Lemma target_left : keptByLeft vbits hashes height (fun s => targetOK vbits height (branch s)).
Proof.
  intros s s1 c n HI HT Hc Hn Hh HL HR _ _ _ _ Hbt Htg _ _ _ _.
  unfold targetOK. rewrite Htg, Hbt.
  destruct (target (branch s)) as [t|] eqn:Et; [|exact I].
  eapply (target_same s _ c); eauto.
  - apply keeps_grow. reflexivity.
  - intros i m Hne Hi. rewrite (lookup_grow_old _ _ _ _ _ _ Hi).
    destruct (decide (i = c)); congruence.
Qed.

Lemma target_right : keptByRight hashes (fun s => targetOK vbits height (branch s)).
Proof.
  intros s c n l HI HT Hc Hn Hh HL HR _.
  unfold targetOK. simpl.
  destruct (target (branch s)) as [t|] eqn:Et; [|exact I].
  eapply (target_same s _ c); eauto.
  - apply keeps_grow. reflexivity.
  - intros i m Hne Hi. rewrite (lookup_grow_old _ _ _ _ _ _ Hi).
    destruct (decide (i = c)); congruence.
Qed.

Lemma target_fold : keptByFold hashes (fun s => targetOK vbits height (branch s)).
Proof.
  intros s s' c n l r lh rh HI HT Hc Hn Hh HL HR _ _ Hbt Htg _ _ _.
  unfold targetOK. rewrite Htg, Hbt.
  destruct (target (branch s)) as [t|] eqn:Et; [|exact I].
  eapply (target_same s _ c); eauto.
  - apply keeps_setHash.
  - intros i m Hne Hi. rewrite list_lookup_alter_ne by auto. exact Hi.
Qed.

Lemma target_exit sf :
  (exists root, CreateMerkleBranch vbits hashes height = Exited (Return sf root)) \/
  (exists e, CreateMerkleBranch vbits hashes height = Exited (Fail sf e)) ->
  targetOK vbits height (branch sf).
Proof.
  apply (J_exit vbits hashes height (fun s => targetOK vbits height (branch s)));
    auto using target_leaf, target_left, target_right, target_fold.
  exact I.
Qed.

(** ** The last match *)

(** The depth of a node that has been read does not change. *)
Lemma level_back s bt' i :
  Inv hashes s -> flagsInv vbits height s ->
  keepsPointers (binTree (branch s)) bt' ->
  i < vbitsIndex s -> levelOf bt' i height ->
  levelOf (binTree (branch s)) i height.
Proof.
  intros HI [_ HF] Hk Hlt Hlev.
  pose proof (processed_le s HI) as Hle.
  destruct (lookup_lt_is_Some_2 (binTree (branch s)) i) as [n Hn]; [lia|].
  destruct (HF i n Hn Hlt) as (fl & d & _ & Hd & _).
  pose proof (levelOf_keep _ _ _ _ Hk Hd) as Hd'.
  rewrite <- (levelOf_fun _ _ _ Hd' _ Hlev). exact Hd.
Qed.

Lemma match_leaf : keptByLeaf vbits hashes height (matchInv vbits height).
Proof.
  intros s s1 c n flag h HI [HF HM] Hc Hn Hh HL HR Hlast Hcv Hflag Hleaf Hhash Hbt Htg
         Hcur Hvi Hhi Hd1.
  split; [eapply flags_leaf; eauto|].
  pose proof (keeps_setHash h c (binTree (branch s))) as Hk.
  intros i Hlt Hfl Hlev. rewrite Hvi in *. rewrite Htg. rewrite Hbt in Hlev.
  destruct (decide (i = c)) as [->|Hne].
  - rewrite Hflag in Hfl. injection Hfl as ->.
    pose proof (levelOf_keep _ _ _ _ Hk (current_level s c HI Hc)) as Hlev'.
    rewrite (levelOf_fun _ _ _ Hlev' _ Hlev), Z.eqb_refl. simpl.
    exists c. split; [reflexivity|lia].
  - assert (Hlt' : i < vbitsIndex s) by lia.
    destruct (HM i Hlt' Hfl (level_back s _ i HI HF Hk Hlt' Hlev)) as (t & Ht & Hit).
    destruct (flag && (depth s =? height)%Z).
    + exists c. split; [reflexivity|lia].
    + exists t. split; [exact Ht|lia].
Qed.

Lemma match_left : keptByLeft vbits hashes height (matchInv vbits height).
Proof.
  intros s s1 c n HI [HF HM] Hc Hn Hh HL HR Hlast Hcv Hflag Hdep Hbt Htg Hcur Hvi Hhi Hd1.
  split; [eapply flags_left; eauto|].
  pose proof (keeps_grow (setLeft (length (binTree (branch s)))) c (binTree (branch s))
                (NewBinTree (Some c)) (fun _ => eq_refl)) as Hk.
  intros i Hlt Hfl Hlev. rewrite Hvi in *. rewrite Htg. rewrite Hbt in Hlev.
  destruct (decide (i = c)) as [->|Hne].
  - pose proof (levelOf_keep _ _ _ _ Hk (current_level s c HI Hc)) as Hlev'.
    pose proof (levelOf_fun _ _ _ Hlev' _ Hlev). lia.
  - assert (Hlt' : i < vbitsIndex s) by lia.
    destruct (HM i Hlt' Hfl (level_back s _ i HI HF Hk Hlt' Hlev)) as (t & Ht & Hit).
    exists t. split; [exact Ht|lia].
Qed.

Lemma match_right : keptByRight hashes (matchInv vbits height).
Proof.
  intros s c n l HI [HF HM] Hc Hn Hh HL HR Hlen.
  split; [eapply flags_right; eauto|].
  pose proof (keeps_grow (setRight (length (binTree (branch s)))) c (binTree (branch s))
                (NewBinTree (Some c)) (fun _ => eq_refl)) as Hk.
  intros i Hlt Hfl Hlev. simpl in *.
  destruct (HM i Hlt Hfl (level_back s _ i HI HF Hk Hlt Hlev)) as (t & Ht & Hit).
  exists t. split; [exact Ht|lia].
Qed.

Lemma match_fold : keptByFold hashes (matchInv vbits height).
Proof.
  intros s s' c n l r lh rh HI [HF HM] Hc Hn Hh HL HR Hl Hr Hbt Htg Hvi Hhi Hcur.
  split; [eapply flags_fold; eauto|].
  pose proof (keeps_setHash (doubleSha256 (lh ++ rh)) c (binTree (branch s))) as Hk.
  intros i Hlt Hfl Hlev. rewrite Hvi in *. rewrite Htg. rewrite Hbt in Hlev.
  destruct (HM i Hlt Hfl (level_back s _ i HI HF Hk Hlt Hlev)) as (t & Ht & Hit).
  exists t. split; [exact Ht|lia].
Qed.

Lemma match_exit sf :
  (exists root, CreateMerkleBranch vbits hashes height = Exited (Return sf root)) \/
  (exists e, CreateMerkleBranch vbits hashes height = Exited (Fail sf e)) ->
  (matchInv vbits height) sf.
Proof.
  apply (J_exit vbits hashes height (matchInv vbits height));
    auto using match_leaf, match_left, match_right, match_fold.
  split; [apply flags_start|]. intros i Hlt. simpl in Hlt. lia.
Qed.

End Flags.

Lemma levelOf_lookup bt i d : levelOf bt i d -> is_Some (bt !! i).
Proof. inversion 1; eauto. Qed.

(** X12: the tree of an accepted proof is laid out in the order the walk
    made it.  The left child of a node is the next node of [binTree],
    the right child lies after the nodes under the left one and only a
    node with a left child has one; every child names its parent and is
    named by it; the first node, and no other, has no parent. *)
Theorem tree_layout (vbits : list bool) (hashes : list (list byte)) (height : Z)
    (sf : Walk) (root : list byte) :
  CreateMerkleBranch vbits hashes height = Exited (Return sf root) ->
  wellFormed (binTree (branch sf)).
Proof. intros H. apply (wf_exit vbits hashes height). eauto. Qed.

Lemma tree_layout_witness :
  exists sf root,
    CreateMerkleBranch [true; true; false; false; false; false; false; false]
      [sampleHash Byte.x0a; sampleHash Byte.x0b; sampleHash Byte.x0c] 2
    = Exited (Return sf root) /\
    wellFormed (binTree (branch sf)).
Proof.
  assert (H : exists sf root,
            CreateMerkleBranch [true; true; false; false; false; false; false; false]
              [sampleHash Byte.x0a; sampleHash Byte.x0b; sampleHash Byte.x0c] 2
            = Exited (Return sf root))
    by (eexists _, _; vm_compute; reflexivity).
  destruct H as (sf & root & H). exists sf, root. split; [exact H|].
  exact (tree_layout _ _ _ _ _ H).
Defined.

(** X13: the tree of an accepted proof is the tree its flags describe.  The
    node at index [i] was made from flag [i]: it is a leaf exactly when
    that flag is 0 or the node lies at depth [height], and no node lies
    deeper than [height] when [height] is not negative. *)
Theorem tree_follows_flags (vbits : list bool) (hashes : list (list byte)) (height : Z)
    (sf : Walk) (root : list byte) :
  CreateMerkleBranch vbits hashes height = Exited (Return sf root) ->
  forall i n, binTree (branch sf) !! i = Some n ->
    exists flag d,
      vbits !! i = Some flag /\ levelOf (binTree (branch sf)) i d /\ (0 <= d)%Z /\
      (0 <= height -> d <= height)%Z /\
      (Left n = None <-> flag = false \/ d = height).
Proof.
  intros H i n Hi.
  destruct (flags_exit vbits hashes height sf (or_introl (ex_intro _ root H))) as [_ HF].
  destruct (success_counts _ _ _ _ _ H) as (_ & _ & Hv & _).
  apply (HF i n Hi). rewrite Hv. eapply lookup_lt_Some; eauto.
Qed.

Lemma tree_follows_flags_witness :
  exists sf root n flag d,
    CreateMerkleBranch [true; true; false; false; false; false; false; false]
      [sampleHash Byte.x0a; sampleHash Byte.x0b; sampleHash Byte.x0c] 2
    = Exited (Return sf root) /\
    binTree (branch sf) !! 2 = Some n /\
    [true; true; false; false; false; false; false; false] !! 2 = Some flag /\
    levelOf (binTree (branch sf)) 2 d /\
    (Left n = None <-> flag = false \/ d = 2%Z).
Proof.
  assert (H : exists sf root n,
            CreateMerkleBranch [true; true; false; false; false; false; false; false]
              [sampleHash Byte.x0a; sampleHash Byte.x0b; sampleHash Byte.x0c] 2
            = Exited (Return sf root) /\ binTree (branch sf) !! 2 = Some n)
    by (eexists _, _, _; vm_compute; split; reflexivity).
  destruct H as (sf & root & n & H & Hn).
  destruct (tree_follows_flags _ _ _ _ _ H 2 n Hn) as (flag & d & Hf & Hl & _ & _ & Hiff).
  exists sf, root, n, flag, d. auto.
Defined.

(** The target when the call returns. *)
Lemma last_match_exit (vbits : list bool) (hashes : list (list byte)) (height : Z)
    (sf : Walk) (root : list byte) :
  CreateMerkleBranch vbits hashes height = Exited (Return sf root) ->
  match target (branch sf) with
  | Some t =>
      vbits !! t = Some true /\ levelOf (binTree (branch sf)) t height /\
      (exists n h, binTree (branch sf) !! t = Some n /\ Hash n = Some h /\
                   In h hashes /\ Left n = None /\ Right n = None) /\
      (forall i, vbits !! i = Some true -> levelOf (binTree (branch sf)) i height -> i <= t)
  | None =>
      forall i, vbits !! i = Some true -> ~ levelOf (binTree (branch sf)) i height
  end.
Proof.
  intros H.
  pose proof (target_exit vbits hashes height sf (or_introl (ex_intro _ root H))) as HT.
  destruct (match_exit vbits hashes height sf (or_introl (ex_intro _ root H))) as [_ HM].
  destruct (success_counts _ _ _ _ _ H) as (_ & _ & Hv & _).
  assert (Hleaves : leafHashes (binTree (branch sf)) = hashes).
  { apply CreateMerkleBranch_last in H as (s & _ & HI & HF & Hit).
    apply (Return_state _ _ _ _ _ _ HI HF Hit). }
  assert (Hin : forall i, levelOf (binTree (branch sf)) i height -> i < vbitsIndex sf).
  { intros i Hl. rewrite Hv. apply lookup_lt_is_Some. eapply levelOf_lookup; eauto. }
  unfold targetOK in HT. destruct (target (branch sf)) as [t|] eqn:Et.
  - destruct HT as (Hfl & n & h & Hn & Hh & HL & HR & Hlev).
    split; [exact Hfl|]. split; [exact Hlev|]. split.
    + exists n, h. repeat split; auto. rewrite <- Hleaves.
      apply list_elem_of_In. unfold leafHashes. apply list_elem_of_omap.
      exists n. split; [eapply list_elem_of_lookup_2; eauto|].
      unfold leafHash. rewrite HL. exact Hh.
    + intros i Hi Hl. destruct (HM i (Hin i Hl) Hi Hl) as (t' & Ht' & Hle).
      rewrite Et in Ht'. injection Ht' as <-. lia.
  - intros i Hi Hl. destruct (HM i (Hin i Hl) Hi Hl) as (t' & Ht' & _).
    rewrite Et in Ht'. discriminate.
Qed.

(** X14: after an accepted proof [m.target] is the last node that was
    matched.  When it points to a node, that node is a leaf at depth
    [height] whose flag is 1 and whose hash is one of the input hashes,
    and no node after it is at depth [height] with flag 1; when it is
    nil, no node is. *)
Theorem target_is_last_match (vbits : list bool) (hashes : list (list byte)) (height : Z)
    (sf : Walk) (root : list byte) :
  CreateMerkleBranch vbits hashes height = Exited (Return sf root) ->
  match target (branch sf) with
  | Some t =>
      vbits !! t = Some true /\ levelOf (binTree (branch sf)) t height /\
      (exists n h, binTree (branch sf) !! t = Some n /\ Hash n = Some h /\
                   In h hashes /\ Left n = None /\ Right n = None) /\
      (forall i, vbits !! i = Some true -> levelOf (binTree (branch sf)) i height -> i <= t)
  | None =>
      forall i, vbits !! i = Some true -> ~ levelOf (binTree (branch sf)) i height
  end.
Proof. apply last_match_exit. Qed.

Lemma target_is_last_match_witness :
  exists sf root,
    CreateMerkleBranch [true; true; true; false; false; false; false; false]
      [sampleHash Byte.x0a; sampleHash Byte.x0b] 1
    = Exited (Return sf root) /\
    target (branch sf) = Some 2 /\
    levelOf (binTree (branch sf)) 2 1 /\
    (levelOf (binTree (branch sf)) 1 1 -> 1 <= 2).
Proof.
  assert (H : exists sf root,
            CreateMerkleBranch [true; true; true; false; false; false; false; false]
              [sampleHash Byte.x0a; sampleHash Byte.x0b] 1
            = Exited (Return sf root) /\ target (branch sf) = Some 2)
    by (eexists _, _; vm_compute; split; reflexivity).
  destruct H as (sf & root & H & Ht). exists sf, root.
  pose proof (target_is_last_match _ _ _ _ _ H) as HT. rewrite Ht in HT.
  destruct HT as (_ & Hlev & _ & Hlast).
  split; [exact H|]. split; [exact Ht|]. split; [exact Hlev|].
  intros Hl. apply Hlast; [reflexivity|exact Hl].
Defined.

(** * The walk: how it ends *)

(** X15: the loop of [CreateMerkleBranch], which has no bound of its own,
    ends on every input: after at most [3 * len(vbits) + 2] turns the
    call has returned or panicked, and more turns change nothing. *)
Theorem walk_terminates (vbits : list bool) (hashes : list (list byte)) (height : Z) :
  exists e,
    CreateMerkleBranch vbits hashes height = Exited e /\
    forall fuel, 3 * length vbits + 2 <= fuel ->
      loop fuel vbits hashes height start = Exited e.
Proof.
  destruct (CreateMerkleBranch_terminates vbits hashes height) as [e He].
  exists e. split; [exact He|]. intros fuel Hf.
  replace fuel with (turns vbits + (fuel - turns vbits)) by (unfold turns; lia).
  apply loop_more. exact He.
Qed.

(** X16: the panics of [CreateMerkleBranch].  [hashes] is never indexed
    out of range; [vbits] is, exactly when it is empty and [hashes] is
    not; a nil pointer is dereferenced exactly when the walk has gone up
    from the root, and every node of the tree has its hash then. *)
Theorem panics_characterised (vbits : list bool) (hashes : list (list byte)) (height : Z) :
  (CreateMerkleBranch vbits hashes height = Exited (Panicked IndexOutOfRange) <->
   vbits = [] /\ hashes <> []) /\
  (CreateMerkleBranch vbits hashes height = Exited (Panicked NilDereference) <->
   exists s, reachable vbits hashes height s /\ current s = None) /\
  (forall s, reachable vbits hashes height s -> current s = None ->
     forall i n, binTree (branch s) !! i = Some n -> is_Some (Hash n)).
Proof.
  split; [apply index_panic_iff|]. split; [split|].
  - intros H. apply CreateMerkleBranch_last in H as (s & Hr & HI & HF & Hit).
    exists s. split; [exact Hr|].
    destruct (iteration_inl _ _ _ _ _ HI HF Hit)
      as [[_ Hf]|(_ & [[Hc _]|[(_ & _ & ?)|(? & ? & _)]])]; try discriminate; [|exact Hc].
    apply (finish_Panicked _ _ _ HI) in Hf as [Hc _]. exact Hc.
  - intros (s & Hr & Hc). apply (reachable_exit _ _ _ s); [exact Hr|].
    unfold iteration, finish, deref. rewrite Hc.
    destruct (decide (hashesIndex s = length hashes)); reflexivity.
  - intros s Hr Hc i n Hi. destruct (reachable_Inv _ _ _ _ Hr) as [HI HF].
    destruct (Hash n) as [h|] eqn:Hh; [eauto|].
    pose proof (inv_pending _ _ HI _ _ Hi Hh) as Hon. rewrite Hc in Hon.
    destruct (onSpine_None _ _ Hon).
Qed.

Lemma panics_characterised_witness :
  CreateMerkleBranch [false; false] [sampleHash Byte.x0a] 3 = Exited (Panicked NilDereference) /\
  exists s, reachable [false; false] [sampleHash Byte.x0a] 3 s /\ current s = None.
Proof.
  destruct (panics_characterised [false; false] [sampleHash Byte.x0a] 3) as (_ & [Hnil _] & _).
  assert (H : CreateMerkleBranch [false; false] [sampleHash Byte.x0a] 3
              = Exited (Panicked NilDereference)) by reflexivity.
  split; [exact H|]. exact (Hnil H).
Defined.

(** X17: the error for want of flags.  When [CreateMerkleBranch] returns
    it, every flag has been read: the number it reports as got is
    [len(vbits)], and the number it reports as expected, the number of
    nodes made, is the same number when the last flag made a leaf and
    one more when it made an inner node. *)
Theorem flag_error_counts (vbits : list bool) (hashes : list (list byte)) (height : Z)
    (sf : Walk) (expected got : nat) :
  CreateMerkleBranch vbits hashes height
    = Exited (Fail sf (ErrVBitsTooShort expected got)) ->
  got = length vbits /\ vbitsIndex sf = got /\
  expected = length (binTree (branch sf)) /\
  (expected = got \/ expected = S got) /\
  (expected = S got <->
   exists c n, current sf = Some c /\ binTree (branch sf) !! c = Some n /\
               Left n = None).
Proof.
  intros H. apply CreateMerkleBranch_last in H as (s & _ & HI & HF & Hit).
  destruct (iteration_inl _ _ _ _ _ HI HF Hit)
    as [[_ Hf]|(_ & [[_ ?]|[(_ & _ & ?)|(sf' & He & HIf & Hv & Hlen)]])]; try discriminate.
  { apply (finish_Fail _ _ _ _ HI) in Hf as [_ ?]. discriminate. }
  injection He as <- -> ->. split; [exact Hlen|]. split; [reflexivity|].
  split; [reflexivity|].
  destruct (current sf) as [c|] eqn:Hc.
  - destruct (Inv_current_node _ _ _ HIf Hc) as (n & Hn & _ & Hok).
    unfold currentOK in Hok.
    destruct (Left n) as [l|] eqn:HL, (Right n) as [r|] eqn:HR; try contradiction.
    + destruct Hok as (_ & _ & Hl). split; [left; exact Hl|].
      split; [lia|]. intros (c' & n' & [= <-] & Hn' & HL'). congruence.
    + destruct Hok as (_ & Hl). split; [left; exact Hl|].
      split; [lia|]. intros (c' & n' & [= <-] & Hn' & HL'). congruence.
    + destruct Hok as (_ & Hl). split; [right; exact Hl|].
      split; [|intros _; exact Hl]. intros _. exists c, n. auto.
  - pose proof (inv_nil _ _ HIf Hc) as Hl. split; [left; exact Hl|].
    split; [lia|]. intros (c' & n' & ? & _). discriminate.
Qed.

Lemma flag_error_counts_witness :
  exists sf,
    CreateMerkleBranch [true; true] [sampleHash Byte.x0a] 2
    = Exited (Fail sf (ErrVBitsTooShort 3 2)) /\
    vbitsIndex sf = 2 /\ 3 = length (binTree (branch sf)).
Proof.
  assert (H : exists sf, CreateMerkleBranch [true; true] [sampleHash Byte.x0a] 2
                         = Exited (Fail sf (ErrVBitsTooShort 3 2)))
    by (eexists; vm_compute; reflexivity).
  destruct H as (sf & H). exists sf.
  destruct (flag_error_counts _ _ _ _ _ _ H) as (_ & Hv & He & _). auto.
Defined.

(** X18: flags after the ones a call has read do not matter to an accepted
    proof: with any flags appended the call returns the same root and
    leaves the same tree. *)
Theorem unread_flags_ignored (vbits extra : list bool) (hashes : list (list byte))
    (height : Z) (sf : Walk) (root : list byte) :
  CreateMerkleBranch vbits hashes height = Exited (Return sf root) ->
  CreateMerkleBranch (vbits ++ extra) hashes height = Exited (Return sf root).
Proof.
  intros H. destruct (success_counts _ _ _ _ _ H) as (_ & _ & _ & Hlt).
  apply CreateMerkleBranch_last in H as (s & Hr & HI & HF & Hit).
  assert (Hfin : hashesIndex s = length hashes /\ finish s = inl (Return sf root)).
  { destruct (iteration_inl _ _ _ _ _ HI HF Hit)
      as [?|(_ & [[_ ?]|[(_ & _ & ?)|(? & ? & _)]])]; try discriminate. assumption. }
  destruct Hfin as [Hh Hf].
  apply (reachable_exit _ _ _ s).
  - apply (reachable_take_vbits (vbits ++ extra) hashes height (length vbits)).
    + lia.
    + rewrite length_app. lia.
    + rewrite take_app_length. exact Hr.
  - unfold iteration. destruct (decide (hashesIndex s = length hashes)); [exact Hf|contradiction].
Qed.

Lemma unread_flags_ignored_witness :
  exists sf root,
    CreateMerkleBranch [true; false; false; false] [sampleHash Byte.x0a; sampleHash Byte.x0b] 1
    = Exited (Return sf root) /\
    CreateMerkleBranch ([true; false; false; false] ++ [true; true; true; true])
      [sampleHash Byte.x0a; sampleHash Byte.x0b] 1
    = Exited (Return sf root).
Proof.
  assert (H : exists sf root,
            CreateMerkleBranch [true; false; false; false]
              [sampleHash Byte.x0a; sampleHash Byte.x0b] 1 = Exited (Return sf root))
    by (eexists _, _; vm_compute; reflexivity).
  destruct H as (sf & root & H). exists sf, root. split; [exact H|].
  apply unread_flags_ignored. exact H.
Defined.

(** X19: a proof whose root is a leaf, because its first flag is 0 or
    [height] is 0, is never accepted.  With no hash the call reports an
    unfinished tree; with one flag only it reports too few flags; in
    every other case it goes up from the root and dereferences nil. *)
Theorem root_leaf_never_accepted (flag : bool) (rest : list bool)
    (hashes : list (list byte)) (height : Z) :
  flag = false \/ height = 0%Z ->
  match hashes, rest with
  | [], _ =>
      CreateMerkleBranch (flag :: rest) hashes height = Exited (Fail start ErrNotFinished)
  | _ :: _, [] =>
      exists sf, CreateMerkleBranch (flag :: rest) hashes height
                 = Exited (Fail sf (ErrVBitsTooShort 1 1))
  | _ :: _, _ :: _ =>
      CreateMerkleBranch (flag :: rest) hashes height = Exited (Panicked NilDereference)
  end.
Proof.
  intros Hleaf.
  assert (Hc : negb flag || (0 =? height)%Z = true).
  { destruct Hleaf as [->| ->]; [reflexivity|]. apply orb_true_r. }
  destruct hashes as [|h hs]; [reflexivity|].
  assert (Hfirst : exists s1,
            current s1 = None /\ vbitsIndex s1 = 0 /\ length (binTree (branch s1)) = 1 /\
            iteration (flag :: rest) (h :: hs) height start = nextFlag (flag :: rest) s1).
  { unfold iteration, visit, visitNode. cbn -[Z.eqb nextFlag]. rewrite Hc. cbn -[Z.eqb nextFlag].
    eexists. split; [|split; [|split]]; [| | |reflexivity]; try reflexivity.
    destruct (flag && (0 =? height)%Z); reflexivity. }
  destruct Hfirst as (s1 & Hcur & Hvi & Hlen & Hit).
  unfold CreateMerkleBranch, turns.
  replace (3 * length (flag :: rest) + 2) with (S (S (3 * length (flag :: rest)))) by lia.
  cbn [loop]. rewrite Hit. unfold nextFlag. cbn [bump vbitsIndex branch].
  rewrite Hvi, Hlen.
  destruct rest as [|b rest].
  - destruct (decide (length [flag] <= 1)) as [_|?]; [|simpl in *; lia].
    eexists. reflexivity.
  - destruct (decide (length (flag :: b :: rest) <= 1)) as [?|_]; [simpl in *; lia|].
    unfold iteration, finish, deref, bump. cbn [current hashesIndex branch]. rewrite Hcur.
    destruct (decide (_ = _)); reflexivity.
Qed.

Lemma root_leaf_never_accepted_witness :
  CreateMerkleBranch [false; false; false; false; false; false; false; false]
    [sampleHash Byte.x0a] 3 = Exited (Panicked NilDereference).
Proof.
  apply (root_leaf_never_accepted false [false; false; false; false; false; false; false]
           [sampleHash Byte.x0a] 3).
  left. reflexivity.
Defined.

(** * The graph *)

Lemma drawNode_spec m i node g :
  exists gn es,
    drawNode m i node g = {| nodes := nodes g ++ [gn]; edges := edges g ++ es |} /\
    nodeID gn = nodeName node /\
    attr "shape" (attrs gn) = Some (nodeShape node) /\
    attr "fillcolor" (attrs gn) = Some (fillColor m i node) /\
    isBox gn = isLeaf node /\
    length es = (if hasBoth node then 2 else 0) /\
    forall e, In e es ->
      src e = nodeName node /\
      exists l r child, Left node = Some l /\ Right node = Some r /\
        (child = l \/ child = r) /\
        dst e = from_option nodeName "node_"%string (binTree m !! child).
Proof.
  unfold drawNode, nodeShape, fillColor, isBox, hasBoth, isLeaf.
  destruct (Left node) as [l|] eqn:HL, (Right node) as [r|] eqn:HR; eexists.
  - eexists. split.
    + unfold AddEdge, AddNode. cbn [nodes edges]. rewrite <- app_assoc. reflexivity.
    + cbn. split; [reflexivity|]. split; [reflexivity|]. split; [reflexivity|].
      split; [reflexivity|]. split; [reflexivity|].
      intros e [<-|[<-|[]]]; (split; [reflexivity|]); exists l, r; [exists l|exists r]; auto.
  - exists []. split; [unfold AddNode; cbn [nodes edges]; rewrite app_nil_r; reflexivity|].
    cbn. repeat (split; [reflexivity|]). intros e [].
  - exists []. split; [unfold AddNode; cbn [nodes edges]; rewrite app_nil_r; reflexivity|].
    cbn. repeat (split; [reflexivity|]). intros e [].
  - exists []. split; [unfold AddNode; cbn [nodes edges]; rewrite app_nil_r; reflexivity|].
    cbn. destruct (bool_decide (target m = Some i));
      repeat (split; [reflexivity|]); intros e [].
Qed.

Lemma drawNodes_spec m ns : forall i g,
  nodeIDs (drawNodes m i ns g) = nodeIDs g ++ map nodeName ns /\
  shapes (drawNodes m i ns g) = shapes g ++ map (fun n => Some (nodeShape n)) ns /\
  length (fillColors (drawNodes m i ns g)) = length (nodes g) + length ns /\
  (forall k, k < length (nodes g) ->
     fillColors (drawNodes m i ns g) !! k = fillColors g !! k) /\
  (forall k node, ns !! k = Some node ->
     fillColors (drawNodes m i ns g) !! (length (nodes g) + k)
     = Some (Some (fillColor m (i + k) node))) /\
  countBoxes (drawNodes m i ns g) = countBoxes g + countLeaves ns /\
  length (edges (drawNodes m i ns g)) = length (edges g) + 2 * countBoth ns /\
  (forall e, In e (edges (drawNodes m i ns g)) ->
     In e (edges g) \/
     exists k node l r child,
       ns !! k = Some node /\ src e = nodeName node /\
       Left node = Some l /\ Right node = Some r /\ (child = l \/ child = r) /\
       dst e = from_option nodeName "node_"%string (binTree m !! child)).
Proof.
  induction ns as [|node ns IH]; intros i g.
  - unfold nodeIDs, shapes, fillColors, countBoxes. simpl. rewrite !app_nil_r.
    split; [reflexivity|]. split; [reflexivity|]. split; [rewrite length_map; lia|].
    split; [reflexivity|]. split; [intros k node Hk; discriminate|].
    split; [lia|]. split; [lia|]. auto.
  - cbn [drawNodes].
    destruct (drawNode_spec m i node g) as (gn & es & -> & Hid & Hsh & Hcol & Hbox & Hlen & Hes).
    destruct (IH (S i) {| nodes := nodes g ++ [gn]; edges := edges g ++ es |})
      as (I1 & I2 & I3 & I4 & I5 & I6 & I7 & I8).
    cbn [nodes edges] in *.
    split; [|split; [|split; [|split; [|split; [|split; [|split]]]]]].
    + rewrite I1. unfold nodeIDs. cbn [nodes]. rewrite map_app. cbn [map].
      rewrite Hid, <- app_assoc. reflexivity.
    + rewrite I2. unfold shapes. cbn [nodes]. rewrite map_app. cbn [map].
      rewrite Hsh, <- app_assoc. reflexivity.
    + rewrite I3, length_app. simpl. lia.
    + intros k Hk. rewrite I4 by (rewrite length_app; simpl; lia).
      unfold fillColors. cbn [nodes]. rewrite map_app, lookup_app_l; [reflexivity|].
      rewrite length_map. exact Hk.
    + intros [|k] nd Hk.
      * injection Hk as <-. rewrite Nat.add_0_r. rewrite I4 by (rewrite length_app; simpl; lia).
        unfold fillColors. cbn [nodes]. rewrite map_app, lookup_app_r by (rewrite length_map; lia).
        rewrite length_map, Nat.sub_diag. cbn. rewrite Hcol, Nat.add_0_r. reflexivity.
      * specialize (I5 k nd Hk). rewrite length_app in I5. cbn [length] in I5.
        replace (length (nodes g) + S k) with (length (nodes g) + 1 + k) by lia.
        rewrite I5. do 3 f_equal. lia.
    + rewrite I6. unfold countBoxes. cbn [nodes countLeaves].
      rewrite List.filter_app, length_app. cbn [List.filter]. rewrite Hbox.
      destruct (isLeaf node); simpl; lia.
    + rewrite I7, length_app, Hlen. cbn [countBoth]. destruct (hasBoth node); lia.
    + intros e He. apply I8 in He as [He|(k & nd & l & r & child & Hk & ?)].
      * apply in_app_or in He as [He|He]; [left; exact He|].
        right. destruct (Hes e He) as (Hsrc & l & r & child & ? & ? & ? & ?).
        exists 0, node, l, r, child. repeat (split; [assumption || reflexivity|]). assumption.
      * right. exists (S k), nd, l, r, child. split; [exact Hk|assumption].
Qed.

Lemma BuildGraph_spec m :
  nodeIDs (BuildGraph m) = map nodeName (binTree m) /\
  shapes (BuildGraph m) = map (fun n => Some (nodeShape n)) (binTree m) /\
  length (nodes (BuildGraph m)) = length (binTree m) /\
  (forall i node, binTree m !! i = Some node ->
     fillColors (BuildGraph m) !! i = Some (Some (fillColor m i node))) /\
  countBoxes (BuildGraph m) = countLeaves (binTree m) /\
  length (edges (BuildGraph m)) = 2 * countBoth (binTree m) /\
  (forall e, In e (edges (BuildGraph m)) ->
     exists k node l r child,
       binTree m !! k = Some node /\ src e = nodeName node /\
       Left node = Some l /\ Right node = Some r /\ (child = l \/ child = r) /\
       dst e = from_option nodeName "node_"%string (binTree m !! child)).
Proof.
  unfold BuildGraph.
  destruct (drawNodes_spec m (binTree m) 0 NewGraph)
    as (I1 & I2 & I3 & _ & I5 & I6 & I7 & I8).
  split; [exact I1|]. split; [exact I2|].
  split; [unfold fillColors in I3; rewrite length_map in I3; exact I3|].
  split; [exact I5|]. split; [exact I6|]. split; [exact I7|].
  intros e He. destruct (I8 e He) as [[]|?]. assumption.
Qed.

Lemma countBoth_leaves bt :
  Forall (fun n => Right n = None \/ is_Some (Left n)) bt ->
  Forall (fun n => Left n = None \/ is_Some (Right n)) bt ->
  countBoth bt + countLeaves bt = length bt.
Proof.
  induction 1 as [|n bt Hn _ IH]; [reflexivity|]. intros Hf.
  apply Forall_cons in Hf as [Hf1 Hf2]. specialize (IH Hf2).
  cbn [countBoth countLeaves length]. unfold hasBoth, isLeaf.
  destruct (Left n), (Right n); simpl; try lia.
  - destruct Hf1 as [?|[? ?]]; discriminate.
  - destruct Hn as [?|[? ?]]; discriminate.
Qed.

(** X20: the calls [BuildGraph] makes for the tree of an accepted proof.
    One [AddNode] for each node of the tree, in the order of [binTree]
    and under the name made of its hash, so as many as flags were read;
    as many of them with the shape of a box as there are hashes; two
    [AddEdge] for each node that has both children, each between two
    names that [AddNode] was called with; and when the call returned at
    the root, one [AddEdge] fewer than [AddNode]. *)
Theorem graph_of_accepted_proof (vbits : list bool) (hashes : list (list byte))
    (height : Z) (sf : Walk) (root : list byte) :
  CreateMerkleBranch vbits hashes height = Exited (Return sf root) ->
  nodeIDs (BuildGraph (branch sf)) = map nodeName (binTree (branch sf)) /\
  length (nodes (BuildGraph (branch sf))) = vbitsIndex sf /\
  countBoxes (BuildGraph (branch sf)) = length hashes /\
  length (edges (BuildGraph (branch sf))) = 2 * countBoth (binTree (branch sf)) /\
  (forall e, In e (edges (BuildGraph (branch sf))) ->
     In (src e) (nodeIDs (BuildGraph (branch sf))) /\
     In (dst e) (nodeIDs (BuildGraph (branch sf)))) /\
  (current sf = Some 0 ->
   length (edges (BuildGraph (branch sf))) + 1 = length (nodes (BuildGraph (branch sf)))).
Proof.
  intros H.
  destruct (BuildGraph_spec (branch sf)) as (Hids & _ & Hlen & _ & Hbox & Hedges & Hends).
  pose proof (success_counts _ _ _ _ _ H) as (Hh & Hleaves & Hv & _).
  pose proof (wf_exit vbits hashes height sf (or_introl (ex_intro _ root H))) as Hwf.
  split; [exact Hids|]. split; [lia|]. split; [lia|]. split; [exact Hedges|]. split.
  - intros e He.
    destruct (Hends e He) as (k & node & l & r & child & Hk & Hsrc & HL & HR & Hchild & Hdst).
    rewrite Hids, Hsrc, Hdst. split.
    + apply in_map. apply list_elem_of_In. eapply list_elem_of_lookup_2; eauto.
    + assert (Hc : exists nc, binTree (branch sf) !! child = Some nc).
      { destruct Hchild as [-> | ->].
        - destruct (wf_left _ Hwf _ _ _ Hk HL) as (_ & nl & ? & _). eauto.
        - destruct (wf_right _ Hwf _ _ _ Hk HR) as (_ & _ & nr & ? & _). eauto. }
      destruct Hc as [nc Hnc]. rewrite Hnc. simpl.
      apply in_map. apply list_elem_of_In. eapply list_elem_of_lookup_2; eauto.
  - intros Hc.
    pose proof (countBoth_leaves _ (return_right_left _ _ _ _ _ H)
                  (root_return_full _ _ _ _ _ H Hc)) as Hsum.
    destruct (size_exit _ _ _ _ _ H) as (_ & _ & Hroot). destruct (Hroot Hc) as [Hn _].
    lia.
Qed.

Lemma graph_of_accepted_proof_witness :
  exists sf root,
    CreateMerkleBranch [true; true; false; false; false; false; false; false]
      [sampleHash Byte.x0a; sampleHash Byte.x0b; sampleHash Byte.x0c] 2
    = Exited (Return sf root) /\
    length (nodes (BuildGraph (branch sf))) = 5 /\
    countBoxes (BuildGraph (branch sf)) = 3 /\
    length (edges (BuildGraph (branch sf))) + 1 = length (nodes (BuildGraph (branch sf))).
Proof.
  assert (H : exists sf root,
            CreateMerkleBranch [true; true; false; false; false; false; false; false]
              [sampleHash Byte.x0a; sampleHash Byte.x0b; sampleHash Byte.x0c] 2
            = Exited (Return sf root) /\ current sf = Some 0 /\ vbitsIndex sf = 5)
    by (eexists _, _; vm_compute; repeat split; reflexivity).
  destruct H as (sf & root & H & Hc & Hv). exists sf, root. split; [exact H|].
  destruct (graph_of_accepted_proof _ _ _ _ _ H) as (_ & Hn & Hb & _ & _ & He).
  split; [rewrite Hn; exact Hv|]. split; [exact Hb|]. exact (He Hc).
Defined.

(** X21: the node [BuildGraph] fills with lightcoral after an accepted
    proof is the last node that was matched, and no other: the [AddNode]
    call for the node at index [i] has that colour exactly when the flag
    of the node is 1, it lies at depth [height], and no later node has
    flag 1 at depth [height]. *)
Theorem highlighted_node (vbits : list bool) (hashes : list (list byte)) (height : Z)
    (sf : Walk) (root : list byte) (i : nat) :
  CreateMerkleBranch vbits hashes height = Exited (Return sf root) ->
  (fillColors (BuildGraph (branch sf)) !! i = Some (Some "lightcoral"%string) <->
   vbits !! i = Some true /\ levelOf (binTree (branch sf)) i height /\
   forall j, vbits !! j = Some true -> levelOf (binTree (branch sf)) j height -> j <= i).
Proof.
  intros H. pose proof (last_match_exit _ _ _ _ _ H) as HT.
  destruct (BuildGraph_spec (branch sf)) as (_ & _ & Hlen & Hcol & _).
  split.
  - intros Hi.
    assert (Hlt : i < length (binTree (branch sf))).
    { rewrite <- Hlen. apply lookup_lt_Some in Hi. unfold fillColors in Hi.
      rewrite length_map in Hi. exact Hi. }
    destruct (lookup_lt_is_Some_2 _ _ Hlt) as [n Hn].
    rewrite (Hcol _ _ Hn) in Hi. injection Hi as Hi. unfold fillColor in Hi.
    destruct (isLeaf n); [|discriminate].
    destruct (bool_decide (target (branch sf) = Some i)) eqn:Et; [|discriminate].
    apply bool_decide_eq_true in Et. rewrite Et in HT.
    destruct HT as (Hf & Hl & _ & Hlast). auto.
  - intros (Hf & Hl & Hlast).
    destruct (target (branch sf)) as [t|] eqn:Et; [|destruct (HT i Hf Hl)].
    destruct HT as (Hft & Hlt & (n & h & Hn & _ & _ & HL & HR) & Hlast').
    assert (t = i) as -> by (pose proof (Hlast t Hft Hlt); pose proof (Hlast' i Hf Hl); lia).
    rewrite (Hcol _ _ Hn). unfold fillColor, isLeaf. rewrite HL, HR. simpl.
    rewrite bool_decide_eq_true_2 by exact Et. reflexivity.
Qed.

Lemma highlighted_node_witness :
  exists sf root,
    CreateMerkleBranch [true; true; true; false; false; false; false; false]
      [sampleHash Byte.x0a; sampleHash Byte.x0b] 1
    = Exited (Return sf root) /\
    fillColors (BuildGraph (branch sf)) !! 2 = Some (Some "lightcoral"%string) /\
    levelOf (binTree (branch sf)) 2 1.
Proof.
  assert (H : exists sf root,
            CreateMerkleBranch [true; true; true; false; false; false; false; false]
              [sampleHash Byte.x0a; sampleHash Byte.x0b] 1
            = Exited (Return sf root) /\
            fillColors (BuildGraph (branch sf)) !! 2 = Some (Some "lightcoral"%string))
    by (eexists _, _; vm_compute; split; reflexivity).
  destruct H as (sf & root & H & Hc). exists sf, root.
  split; [exact H|]. split; [exact Hc|].
  destruct (highlighted_node _ _ _ _ _ 2 H) as [Hto _].
  destruct (Hto Hc) as (_ & Hl & _). exact Hl.
Defined.

(** * The recursive walk of the first main.go *)

Lemma countBoxes_AddNode n g :
  countBoxes (AddNode n g) = countBoxes g + (if isBox n then 1 else 0).
Proof.
  unfold countBoxes, AddNode. simpl. rewrite List.filter_app, length_app. simpl.
  destruct (isBox n); reflexivity.
Qed.

(** X22: a call of the recursive walk that succeeds names its node after
    its level and position, reads at least one flag and one hash and
    stays inside both lists, and calls [AddNode] once per flag read, with
    the shape of a box once per hash read, and [AddEdge] once per
    [AddNode] but the one for its own node. *)
Theorem recursive_walk_consumption (height : nat) (pos : Z) (vbits : list bool)
    (hashes : list (list byte)) (totalTx : Z) (initialHeight : nat) (st : Legacy.State)
    (hash : list byte) (name : string) (st' : Legacy.State) :
  Legacy.buildAndDrawPartialTree height pos vbits hashes totalTx initialHeight st
    = inr (hash, name, st') ->
  name = Legacy.levelName height pos /\
  Legacy.vbitsIndex st < Legacy.vbitsIndex st' <= length vbits /\
  Legacy.hashesIndex st < Legacy.hashesIndex st' <= length hashes /\
  length (nodes (Legacy.graph st'))
    = length (nodes (Legacy.graph st)) + (Legacy.vbitsIndex st' - Legacy.vbitsIndex st) /\
  countBoxes (Legacy.graph st')
    = countBoxes (Legacy.graph st) + (Legacy.hashesIndex st' - Legacy.hashesIndex st) /\
  length (edges (Legacy.graph st')) + 1
    = length (edges (Legacy.graph st)) + (Legacy.vbitsIndex st' - Legacy.vbitsIndex st).
Proof.
  revert pos st hash name st'.
  assert (Hleaf : forall (height : nat) (pos : Z) st (flag : bool) hash name st',
    vbits !! Legacy.vbitsIndex st = Some flag ->
    match hashes !! Legacy.hashesIndex st with
    | None => (inl Legacy.ErrOutOfHashes : Legacy.Error + (list byte * string * Legacy.State))
    | Some h =>
        inr (h, Legacy.levelName height pos,
             {| Legacy.vbitsIndex := S (Legacy.vbitsIndex st);
                Legacy.hashesIndex := S (Legacy.hashesIndex st);
                Legacy.graph :=
                  AddNode {| nodeID := Legacy.levelName height pos;
                             attrs := [("label", nodeLabel h); ("shape", "box");
                                       ("style", "filled");
                                       ("fillcolor",
                                        if flag then "lightcoral" else "lightblue")]%string |}
                    (Legacy.graph st) |})
    end = inr (hash, name, st') ->
    name = Legacy.levelName height pos /\
    Legacy.vbitsIndex st < Legacy.vbitsIndex st' <= length vbits /\
    Legacy.hashesIndex st < Legacy.hashesIndex st' <= length hashes /\
    length (nodes (Legacy.graph st'))
      = length (nodes (Legacy.graph st)) + (Legacy.vbitsIndex st' - Legacy.vbitsIndex st) /\
    countBoxes (Legacy.graph st')
      = countBoxes (Legacy.graph st) + (Legacy.hashesIndex st' - Legacy.hashesIndex st) /\
    length (edges (Legacy.graph st')) + 1
      = length (edges (Legacy.graph st)) + (Legacy.vbitsIndex st' - Legacy.vbitsIndex st)).
  { intros h pos st flag hash name st' Hflag H.
    destruct (hashes !! Legacy.hashesIndex st) as [x|] eqn:Hx; [|discriminate].
    injection H as <- <- <-. apply lookup_lt_Some in Hflag, Hx.
    unfold countBoxes. simpl. rewrite List.filter_app, !length_app. simpl.
    repeat split; lia. }
  induction height as [|below IH]; intros pos st hash name st' H; simpl in H;
    destruct (vbits !! Legacy.vbitsIndex st) as [flag|] eqn:Hflag; try discriminate.
  - eapply Hleaf; eauto.
  - destruct flag; simpl in H; [|eapply Hleaf; eauto].
    match type of H with
    | match ?call with _ => _ end = _ => destruct call as [e|[[leftHash leftID] st2]] eqn:El
    end; [discriminate|].
    apply IH in El as (_ & Hv1 & Hh1 & Hn1 & Hb1 & He1). simpl in *.
    destruct (pos * 2 + 1 <? _)%Z.
    + match type of H with
      | match ?call with _ => _ end = _ => destruct call as [e|[[rightHash rightID] st3]] eqn:Er
      end; [discriminate|].
      apply IH in Er as (Hname & Hv2 & Hh2 & Hn2 & Hb2 & He2).
      assert (Hne : String.eqb rightID EmptyString = false).
      { rewrite Hname. unfold Legacy.levelName. reflexivity. }
      rewrite Hne in H. injection H as <- <- <-.
      unfold countBoxes in *. simpl. rewrite List.filter_app, !length_app. simpl.
      repeat split; lia.
    + injection H as <- <- <-.
      unfold countBoxes in *. simpl. rewrite List.filter_app, !length_app. simpl.
      repeat split; lia.
Qed.

Lemma recursive_walk_consumption_witness :
  exists hash name st',
    Legacy.buildAndDrawPartialTree 1 0 [true; false; false]
      [sampleHash Byte.x0a; sampleHash Byte.x0b] 2 1
      {| Legacy.vbitsIndex := 0; Legacy.hashesIndex := 0; Legacy.graph := NewGraph |}
    = inr (hash, name, st') /\
    name = Legacy.levelName 1 0 /\
    Legacy.vbitsIndex st' <= 3 /\
    countBoxes (Legacy.graph st') = Legacy.hashesIndex st' /\
    length (edges (Legacy.graph st')) + 1 = Legacy.vbitsIndex st'.
Proof.
  assert (H : exists hash name st',
    Legacy.buildAndDrawPartialTree 1 0 [true; false; false]
      [sampleHash Byte.x0a; sampleHash Byte.x0b] 2 1
      {| Legacy.vbitsIndex := 0; Legacy.hashesIndex := 0; Legacy.graph := NewGraph |}
    = inr (hash, name, st')) by (eexists _, _, _; vm_compute; reflexivity).
  destruct H as (hash & name & st' & H). exists hash, name, st'.
  split; [exact H|].
  destruct (recursive_walk_consumption _ _ _ _ _ _ _ _ _ _ H)
    as (Hname & Hv & Hh & Hn & Hb & He).
  clear H. simpl in Hv, Hh, Hn, Hb, He. unfold countBoxes in Hb. simpl in Hb.
  split; [exact Hname|]. split; [lia|]. split; [unfold countBoxes; lia|lia].
Defined.

(** * The two walks *)

Lemma same_before {A} k (bt bt' : list A) i :
  take k bt' = take k bt -> i < k -> bt' !! i = bt !! i.
Proof.
  intros H Hi. rewrite <- (lookup_take_lt bt' k i), <- (lookup_take_lt bt k i) by lia.
  rewrite H. reflexivity.
Qed.

Lemma take_less {A} c k (bt bt' : list A) :
  c <= k -> take k bt' = take k bt -> take c bt' = take c bt.
Proof.
  intros Hle H. assert (E : take c (take k bt') = take c (take k bt)) by congruence.
  rewrite !take_take in E. replace (c `min` k) with c in E by lia. exact E.
Qed.

Lemma full_level (H below : nat) (pos : Z) :
  S below <= H -> (0 <= pos < 2 ^ Z.of_nat (H - S below))%Z ->
  (pos * 2 + 1 <?
   Z.shiftr (2 ^ Z.of_nat H + Z.shiftl 1 (Z.of_nat below) - 1) (Z.of_nat below))%Z = true.
Proof.
  intros Hle Hpos. apply Z.ltb_lt.
  rewrite Z.shiftl_1_l, Z.shiftr_div_pow2 by lia.
  replace (Z.of_nat H) with (Z.of_nat (S (H - S below)) + Z.of_nat below)%Z by lia.
  rewrite Z.pow_add_r by lia.
  assert (0 < 2 ^ Z.of_nat below)%Z by (apply Z.pow_pos_nonneg; lia).
  replace (2 ^ Z.of_nat (S (H - S below)) * 2 ^ Z.of_nat below + 2 ^ Z.of_nat below - 1)%Z
    with (2 ^ Z.of_nat (S (H - S below)) * 2 ^ Z.of_nat below + (2 ^ Z.of_nat below - 1))%Z
    by lia.
  rewrite Z.div_add_l by lia. rewrite Z.div_small by lia.
  rewrite Nat2Z.inj_succ, Z.pow_succ_r by lia. lia.
Qed.

Section Agreement.
Context (vbits : list bool) (hashes : list (list byte)) (height : Z).

Lemma leads_trans a b c :
  leads vbits hashes height a b -> leads vbits hashes height b c ->
  leads vbits hashes height a c.
Proof.
  induction 1 as [r|s r _ IH]; intros Hc; [exact Hc|].
  apply leads_turn. apply IH. exact Hc.
Qed.

Lemma leads_inl e r : leads vbits hashes height (inl e) r -> r = inl e.
Proof. inversion 1. reflexivity. Qed.

Lemma leads_reachable x r :
  leads vbits hashes height x r ->
  forall s, x = inr s -> reachable vbits hashes height s ->
    match r with
    | inl e => CreateMerkleBranch vbits hashes height = Exited e
    | inr s' => reachable vbits hashes height s'
    end.
Proof.
  induction 1 as [r|s r Hl IH]; intros s0 E Hs.
  - subst r. exact Hs.
  - injection E as <-.
    destruct (iteration vbits hashes height s) as [e|s1] eqn:Eit.
    + apply leads_inl in Hl. subst r. eapply reachable_exit; eauto.
    + apply (IH s1 eq_refl). eapply reach_turn; eauto.
Qed.

Lemma visit_no_Return t e sf r :
  visit vbits hashes height t = inl e -> e <> Return sf r.
Proof.
  intros H ->. unfold visit in H.
  destruct (visitNode vbits hashes height t) as [e0|s1] eqn:E; simpl in H.
  - injection H as ->. apply visitNode_Panicked in E as [k E]. discriminate.
  - apply nextFlag_inl in H as [H _]. discriminate.
Qed.

Lemma head_Return s sf r :
  Inv hashes s -> flagLeft vbits s ->
  iteration vbits hashes height s = inl (Return sf r) ->
  hashesIndex s = length hashes /\
  exists c n l r' lh rh,
    current s = Some c /\ binTree (branch s) !! c = Some n /\ Hash n = None /\
    Left n = Some l /\ Right n = Some r' /\
    hashOf (binTree (branch s)) l = Some lh /\ hashOf (binTree (branch s)) r' = Some rh /\
    r = doubleSha256 (lh ++ rh) /\
    current sf = current s /\ vbitsIndex sf = vbitsIndex s.
Proof.
  intros HI HF H.
  destruct (iteration_inl vbits hashes height _ _ HI HF H)
    as [[Hh Hfin]|[_ [[_ ?]|[(_ & _ & ?)|(sf' & ? & _)]]]]; try discriminate.
  split; [exact Hh|].
  destruct (finish_Return hashes _ _ _ HI Hfin)
    as (c & n & l & r' & lh & rh & Hc & Hn & HH & HL & HR & Hlh & Hrh & -> & ->).
  exists c, n, l, r', lh, rh. repeat split; auto.
Qed.

Lemma root_depth s : Inv hashes s -> current s = Some 0 -> depth s = 0%Z.
Proof.
  intros HI Hc. pose proof (inv_spine _ _ HI) as Hs. rewrite Hc in Hs.
  inversion Hs as [|c n d Hn HH Hch Hsp]; subst.
  destruct (Parent n) as [p|] eqn:HP.
  - destruct Hch as (np & _ & Hlt & _). lia.
  - inversion Hsp. lia.
Qed.

Lemma walk_leaf t c n flag hash :
  Inv hashes t -> current t = Some c -> binTree (branch t) !! c = Some n ->
  Left n = None ->
  vbits !! vbitsIndex t = Some flag ->
  negb flag || (depth t =? height)%Z = true ->
  hashes !! hashesIndex t = Some hash ->
  exists r, leads vbits hashes height (visit vbits hashes height t) r /\
    match r with
    | inl e => forall sf x, e <> Return sf x
    | inr t' =>
        Inv hashes t' /\ flagLeft vbits t' /\ current t' = Parent n /\
        depth t' = (depth t - 1)%Z /\
        vbitsIndex t' = S (vbitsIndex t) /\ hashesIndex t' = S (hashesIndex t) /\
        hashOf (binTree (branch t')) c = Some hash /\
        take c (binTree (branch t')) = take c (binTree (branch t))
    end.
Proof.
  intros HI Hc Hn HL Hflag Hleaf Hhash.
  exists (visit vbits hashes height t). split; [apply leads_here|].
  destruct (visit vbits hashes height t) as [e|t'] eqn:E.
  - intros sf x. eapply visit_no_Return; eauto.
  - destruct (Inv_visit vbits hashes height _ _ _ _ HI Hc Hn HL E) as [HI' HF'].
    apply visit_inr in E as (s1 & E & -> & _).
    apply visitNode_inr in E
      as (flag' & c' & n' & Hflag' & Hc' & Hn' & Hv &
          [(_ & h & Hh & Hbt & _ & Hcur & Hhi & Hd)|(Hno & _)]).
    + assert (c' = c) as -> by congruence. assert (n' = n) as -> by congruence.
      assert (h = hash) as -> by congruence.
      split; [exact HI'|]. split; [exact HF'|]. simpl.
      split; [exact Hcur|]. split; [exact Hd|]. split; [lia|]. split; [exact Hhi|].
      rewrite Hbt. split.
      * unfold hashOf. rewrite list_lookup_alter_eq, Hn. reflexivity.
      * apply take_alter_ge. lia.
    + congruence.
Qed.

End Agreement.

Section Subtree.
Context (vbits : list bool) (hashes : list (list byte)) (H initialHeight : nat).

Lemma walk_subtree (j : nat) :
  forall pos st hash name st' t c n,
    j <= H -> (0 <= pos < 2 ^ Z.of_nat (H - j))%Z ->
    Legacy.buildAndDrawPartialTree j pos vbits hashes (2 ^ Z.of_nat H) initialHeight st
      = inr (hash, name, st') ->
    Inv hashes t -> current t = Some c -> binTree (branch t) !! c = Some n ->
    Left n = None ->
    vbitsIndex t = Legacy.vbitsIndex st -> hashesIndex t = Legacy.hashesIndex st ->
    depth t = (Z.of_nat H - Z.of_nat j)%Z ->
    exists r,
      leads vbits hashes (Z.of_nat H) (visit vbits hashes (Z.of_nat H) t) r /\
      match r with
      | inl e => rootExit hashes e (depth t) hash st'
      | inr t' =>
          Inv hashes t' /\ flagLeft vbits t' /\ current t' = Parent n /\
          depth t' = (depth t - 1)%Z /\
          vbitsIndex t' = Legacy.vbitsIndex st' /\
          hashesIndex t' = Legacy.hashesIndex st' /\
          hashOf (binTree (branch t')) c = Some hash /\
          take c (binTree (branch t')) = take c (binTree (branch t))
      end.
Proof.
  assert (Hleaf : forall (j : nat) (pos : Z) st (flag : bool) hash name st' t c n,
    vbits !! Legacy.vbitsIndex st = Some flag ->
    match hashes !! Legacy.hashesIndex st with
    | None => (inl Legacy.ErrOutOfHashes : Legacy.Error + (list byte * string * Legacy.State))
    | Some h =>
        inr (h, Legacy.levelName j pos,
             {| Legacy.vbitsIndex := S (Legacy.vbitsIndex st);
                Legacy.hashesIndex := S (Legacy.hashesIndex st);
                Legacy.graph :=
                  AddNode {| nodeID := Legacy.levelName j pos;
                             attrs := [("label", nodeLabel h); ("shape", "box");
                                       ("style", "filled");
                                       ("fillcolor",
                                        if flag then "lightcoral" else "lightblue")]%string |}
                    (Legacy.graph st) |})
    end = inr (hash, name, st') ->
    Inv hashes t -> current t = Some c -> binTree (branch t) !! c = Some n ->
    Left n = None ->
    vbitsIndex t = Legacy.vbitsIndex st -> hashesIndex t = Legacy.hashesIndex st ->
    negb flag || (depth t =? Z.of_nat H)%Z = true ->
    exists r,
      leads vbits hashes (Z.of_nat H) (visit vbits hashes (Z.of_nat H) t) r /\
      match r with
      | inl e => rootExit hashes e (depth t) hash st'
      | inr t' =>
          Inv hashes t' /\ flagLeft vbits t' /\ current t' = Parent n /\
          depth t' = (depth t - 1)%Z /\
          vbitsIndex t' = Legacy.vbitsIndex st' /\
          hashesIndex t' = Legacy.hashesIndex st' /\
          hashOf (binTree (branch t')) c = Some hash /\
          take c (binTree (branch t')) = take c (binTree (branch t))
      end).
  { intros j0 pos st flag hash name st' t c n Hflag HL HI Hc Hn HLn Hv Hh Hcond.
    destruct (hashes !! Legacy.hashesIndex st) as [h|] eqn:Hhash; [|discriminate].
    injection HL as <- <- <-.
    destruct (walk_leaf vbits hashes (Z.of_nat H) t c n flag h HI Hc Hn HLn)
      as (r & Hr & Hm); [congruence|exact Hcond|congruence|].
    exists r. split; [exact Hr|].
    destruct r as [e|t'].
    - intros sf x ->. destruct (Hm sf x). reflexivity.
    - destruct Hm as (HI' & HF' & Hc' & Hd' & Hv' & Hh' & Hhash' & Htake').
      simpl. split; [exact HI'|]. split; [exact HF'|]. split; [exact Hc'|].
      split; [exact Hd'|]. split; [lia|]. split; [lia|]. split; assumption. }
  induction j as [|below IH];
    intros pos st hash name st' t c n Hj Hpos HL HI Hc Hn HLn Hv Hh Hd; simpl in HL;
    destruct (vbits !! Legacy.vbitsIndex st) as [flag|] eqn:Hflag; try discriminate.
  - eapply (Hleaf 0 pos); eauto.
    replace (depth t) with (Z.of_nat H) by lia. rewrite Z.eqb_refl. apply orb_true_r.
  - destruct flag; simpl in HL; [|eapply (Hleaf (S below) pos); eauto].
    (* the node is an inner node *)
    destruct (Inv_current_node hashes _ _ HI Hc) as (n0 & Hn0 & HHn & Hok).
    assert (n0 = n) as -> by congruence.
    assert (HRn : Right n = None).
    { unfold currentOK in Hok. rewrite HLn in Hok. destruct (Right n); [contradiction|reflexivity]. }
    assert (Hclt : c < length (binTree (branch t))) by (eapply lookup_lt_Some; eauto).
    assert (Hd0 : (0 <= depth t)%Z).
    { eapply spine_Some_depth. rewrite <- Hc. apply (inv_spine _ _ HI). }
    destruct (visit vbits hashes (Z.of_nat H) t) as [e|t1] eqn:E.
    { exists (inl e). split; [apply leads_here|].
      intros sf x ->. exfalso. eapply visit_no_Return; eauto. }
    destruct (Inv_visit vbits hashes (Z.of_nat H) _ _ _ _ HI Hc Hn HLn E) as [HI1 HF1].
    pose proof E as E'.
    apply visit_inr in E' as (s1 & E' & -> & _).
    apply visitNode_inr in E'
      as (flag' & c' & n' & Hflag' & Hc' & Hn' & Hv1 &
          [(Hyes & _)|(_ & Hbt1 & _ & Hcur1 & Hhi1 & Hd1)]).
    { exfalso. assert (flag' = true) as -> by congruence. simpl in Hyes.
      apply Z.eqb_eq in Hyes. lia. }
    assert (c' = c) as -> by congruence. assert (n' = n) as -> by congruence.
    set (L := length (binTree (branch t))) in *.
    set (t1 := bump s1) in *.
    assert (Hbt1' : binTree (branch t1)
                    = alter (setLeft L) c (binTree (branch t) ++ [NewBinTree (Some c)]))
      by exact Hbt1.
    assert (HnL : binTree (branch t1) !! L = Some (NewBinTree (Some c))).
    { rewrite Hbt1'. apply lookup_grow_new. exact Hclt. }
    assert (Hnc1 : binTree (branch t1) !! c = Some (setLeft L n)).
    { rewrite Hbt1'. rewrite (lookup_grow_old _ _ _ _ _ _ Hn).
      destruct (decide (c = c)); [reflexivity|contradiction]. }
    match type of HL with
    | match ?call with _ => _ end = _ => destruct call as [e|[[lh lid] st2]] eqn:El
    end; [discriminate|].
    rewrite (full_level H below pos Hj Hpos) in HL.
    match type of HL with
    | match ?call with _ => _ end = _ => destruct call as [e|[[rh rid] st3]] eqn:Er
    end; [discriminate|].
    injection HL as <- _ <-. simpl.
    (* the head of the loop at the left child *)
    destruct (iteration vbits hashes (Z.of_nat H) t1) as [e|t1'] eqn:E1.
    { exists (inl e). split; [apply leads_turn; rewrite E1; apply leads_here|].
      intros sf x -> _. exfalso.
      destruct (head_Return vbits hashes _ _ _ _ HI1 HF1 E1)
        as (_ & c0 & n0 & l0 & r0 & lh0 & rh0 & Hc0 & Hn0' & _ & HL0 & _).
      assert (c0 = L) as -> by (unfold t1 in Hc0; simpl in Hc0; congruence).
      rewrite HnL in Hn0'. injection Hn0' as <-. discriminate. }
    assert (Ev1 : visit vbits hashes (Z.of_nat H) t1 = inr t1').
    { destruct (iteration_inr vbits hashes _ _ _ E1)
        as (_ & c0 & n0 & Hc0 & Hn0' & Hcase).
      assert (c0 = L) as -> by (unfold t1 in Hc0; simpl in Hc0; congruence).
      rewrite HnL in Hn0'. injection Hn0' as <-.
      destruct Hcase as [(? & ? & ? & _)|[(? & ? & _)|[_ Hvis]]]; try discriminate.
      exact Hvis. }
    assert (Hpow : (2 ^ Z.of_nat (H - below) = 2 * 2 ^ Z.of_nat (H - S below))%Z).
    { replace (H - below) with (S (H - S below)) by lia.
      rewrite Nat2Z.inj_succ, Z.pow_succ_r by lia. reflexivity. }
    assert (HcL : current t1 = Some L) by exact Hcur1.
    assert (HvL : vbitsIndex t1 = S (Legacy.vbitsIndex st)) by (unfold t1; simpl; lia).
    assert (HhL : hashesIndex t1 = Legacy.hashesIndex st) by (unfold t1; simpl; lia).
    assert (HdL : depth t1 = (Z.of_nat H - Z.of_nat below)%Z) by (unfold t1; simpl; lia).
    destruct (IH (pos * 2)%Z _ lh lid st2 t1 L (NewBinTree (Some c))
                ltac:(lia) ltac:(lia) El HI1 HcL HnL eq_refl HvL HhL HdL)
      as (r1 & Hr1 & Hm1).
    assert (Hto1 : forall r, leads vbits hashes (Z.of_nat H)
                               (visit vbits hashes (Z.of_nat H) t1) r ->
                             leads vbits hashes (Z.of_nat H) (inr t1) r).
    { intros r Hr. apply leads_turn. rewrite E1, <- Ev1. exact Hr. }
    destruct r1 as [e|t2].
    { exists (inl e). split; [apply Hto1; exact Hr1|].
      intros sf x He Hroot. destruct (Hm1 sf x He Hroot) as (Hz & _).
      unfold t1 in Hz. simpl in Hz. lia. }
    destruct Hm1 as (HI2 & HF2 & Hc2 & Hd2 & Hv2 & Hh2 & Hlh & Htake2).
    simpl in Hc2.
    assert (Hnc2 : binTree (branch t2) !! c = Some (setLeft L n)).
    { rewrite (same_before L _ _ c Htake2) by exact Hclt. exact Hnc1. }
    assert (HLlt : L < length (binTree (branch t2))).
    { unfold hashOf in Hlh. destruct (binTree (branch t2) !! L) eqn:HnL2; [|discriminate].
      eapply lookup_lt_Some; eauto. }
    (* the head of the loop back at the node *)
    destruct (iteration vbits hashes (Z.of_nat H) t2) as [e|t2'] eqn:E2.
    { exists (inl e). split.
      - eapply leads_trans; [apply Hto1; exact Hr1|].
        apply leads_turn. rewrite E2. apply leads_here.
      - intros sf x -> _. exfalso.
        destruct (head_Return vbits hashes _ _ _ _ HI2 HF2 E2)
          as (_ & c0 & n0 & l0 & r0 & lh0 & rh0 & Hc0 & Hn0' & _ & _ & HR0 & _).
        assert (c0 = c) as -> by congruence.
        rewrite Hnc2 in Hn0'. injection Hn0' as <-. simpl in HR0. congruence. }
    assert (Ev2 : visit vbits hashes (Z.of_nat H) (goRight t2 c) = inr t2').
    { destruct (iteration_inr vbits hashes _ _ _ E2)
        as (_ & c0 & n0 & Hc0 & Hn0' & Hcase).
      assert (c0 = c) as -> by congruence.
      rewrite Hnc2 in Hn0'. injection Hn0' as <-.
      destruct Hcase as [(? & ? & _ & HR0 & _)|[(? & _ & _ & Hvis)|[HL0 _]]].
      - simpl in HR0. congruence.
      - exact Hvis.
      - discriminate. }
    pose proof (Inv_goRight hashes _ _ _ L HI2 Hc2 Hnc2 eq_refl HRn) as HIr.
    destruct (Inv_goRight_current t2 c _ Hnc2) as [Hcr Hnr].
    set (R := length (binTree (branch t2))) in *.
    set (tr := goRight t2 c) in *.
    assert (HvR : vbitsIndex tr = Legacy.vbitsIndex st2) by exact Hv2.
    assert (HhR : hashesIndex tr = Legacy.hashesIndex st2) by exact Hh2.
    assert (HdR : depth tr = (Z.of_nat H - Z.of_nat below)%Z) by (unfold tr; simpl; lia).
    destruct (IH (pos * 2 + 1)%Z _ rh rid st3 tr R (NewBinTree (Some c))
                ltac:(lia) ltac:(lia) Er HIr Hcr Hnr eq_refl HvR HhR HdR)
      as (r2 & Hr2 & Hm2).
    assert (Hto2 : forall r, leads vbits hashes (Z.of_nat H)
                               (visit vbits hashes (Z.of_nat H) tr) r ->
                             leads vbits hashes (Z.of_nat H) (inr t1) r).
    { intros r Hr. eapply leads_trans; [apply Hto1; exact Hr1|].
      apply leads_turn. rewrite E2, <- Ev2. exact Hr. }
    destruct r2 as [e|t3].
    { exists (inl e). split; [apply Hto2; exact Hr2|].
      intros sf x He Hroot. destruct (Hm2 sf x He Hroot) as (Hz & _).
      unfold tr in Hz. simpl in Hz. lia. }
    destruct Hm2 as (HI3 & HF3 & Hc3 & Hd3 & Hv3 & Hh3 & Hrh & Htake3).
    simpl in Hc3.
    assert (Hbtr : binTree (branch tr)
                   = alter (setRight R) c (binTree (branch t2) ++ [NewBinTree (Some c)]))
      by reflexivity.
    assert (HcR : c < R) by (unfold R; lia).
    assert (Hnc3 : binTree (branch t3) !! c = Some (setRight R (setLeft L n))).
    { rewrite (same_before R _ _ c Htake3) by exact HcR.
      rewrite Hbtr, (lookup_grow_old _ _ _ _ _ _ Hnc2).
      destruct (decide (c = c)); [reflexivity|contradiction]. }
    assert (Hlh3 : hashOf (binTree (branch t3)) L = Some lh).
    { unfold hashOf in *. rewrite (same_before R _ _ L Htake3) by exact HLlt.
      rewrite Hbtr. destruct (binTree (branch t2) !! L) as [nl|] eqn:HnL2; [|discriminate].
      rewrite (lookup_grow_old _ _ _ _ _ _ HnL2).
      destruct (decide (L = c)); [lia|exact Hlh]. }
    (* the head of the loop at the node, both children done *)
    destruct (iteration vbits hashes (Z.of_nat H) t3) as [e|t'] eqn:E3.
    { exists (inl e). split.
      - eapply leads_trans; [apply Hto2; exact Hr2|].
        apply leads_turn. rewrite E3. apply leads_here.
      - intros sf x -> Hroot.
        destruct (head_Return vbits hashes _ _ _ _ HI3 HF3 E3)
          as (Hall & c0 & n0 & l0 & r0 & lh0 & rh0 & Hc0 & Hn0' & _ & HL0 & HR0 &
              Hlh0 & Hrh0 & -> & Hcsf & Hvsf).
        assert (c0 = c) as -> by congruence.
        rewrite Hnc3 in Hn0'. injection Hn0' as <-. simpl in HL0, HR0.
        injection HL0 as <-. injection HR0 as <-.
        assert (lh0 = lh) as -> by congruence. assert (rh0 = rh) as -> by congruence.
        assert (c = 0) as -> by congruence.
        pose proof (root_depth hashes _ HI3 Hc3) as Hz.
        unfold tr in Hd3. simpl in Hd3.
        simpl. split; [lia|]. split; [reflexivity|]. split; [lia|]. lia. }
    exists (inr t'). split.
    { eapply leads_trans; [apply Hto2; exact Hr2|].
      apply leads_turn. rewrite E3. apply leads_here. }
    destruct (Inv_iteration vbits hashes _ _ _ HI3 HF3 E3) as [HI' HF'].
    destruct (iteration_inr vbits hashes _ _ _ E3) as (_ & c0 & n0 & Hc0 & Hn0' & Hcase).
    assert (c0 = c) as -> by congruence.
    rewrite Hnc3 in Hn0'. injection Hn0' as <-.
    destruct Hcase as [(l0 & r0 & HL0 & HR0 & Hup)|[(? & _ & HR0 & _)|[HL0 _]]];
      try discriminate.
    simpl in HL0, HR0. injection HL0 as <-. injection HR0 as <-.
    destruct (goUp_inr _ _ _ _ _ _ Hnc3 Hup)
      as (m' & Hm' & Hcur' & Hv' & Hh' & Hd' & _ & Hbt').
    simpl in Hbt'. rewrite HHn in Hbt'.
    destruct Hbt' as (nl & nr & Hnl & Hnr3 & Hbt').
    assert (Hash nl = Some lh) as HHl.
    { unfold hashOf in Hlh3. rewrite Hnl in Hlh3. exact Hlh3. }
    assert (Hash nr = Some rh) as HHr.
    { unfold hashOf in Hrh. rewrite Hnr3 in Hrh. exact Hrh. }
    rewrite HHl, HHr in Hbt'. simpl in Hbt'. rewrite <- Hm' in Hbt'.
    unfold tr in Hd3. simpl in Hd3, Hcur'.
    split; [exact HI'|]. split; [exact HF'|]. split; [exact Hcur'|].
    split; [lia|]. split; [lia|]. split; [lia|]. split.
    + unfold hashOf. rewrite Hbt', list_lookup_alter_eq, Hnc3. reflexivity.
    + rewrite Hbt', take_alter_ge by lia.
      rewrite (take_less c R _ _ ltac:(lia) Htake3).
      rewrite Hbtr, take_alter_ge, take_app_le by (unfold R; lia).
      rewrite (take_less c L _ _ ltac:(lia) Htake2).
      rewrite Hbt1', take_alter_ge, take_app_le by lia. reflexivity.
Qed.

End Subtree.

(** X23: the walk of [CreateMerkleBranch] and the recursive walk of the
    first main.go agree.  For a block of [2^H] transactions, whenever the
    recursive walk computes a root and [CreateMerkleBranch], on the same
    flags and hashes and with height [H], returns at the root of its
    tree, the two roots are the same; the two walks have read the same
    number of flags, and the recursive one has read every hash. *)
Theorem walks_agree (H initialHeight : nat) (vbits : list bool) (hashes : list (list byte))
    (root : list byte) (name : string) (st' : Legacy.State) (sf : Walk) (root' : list byte) :
  Legacy.buildAndDrawPartialTree H 0 vbits hashes (2 ^ Z.of_nat H) initialHeight
    {| Legacy.vbitsIndex := 0; Legacy.hashesIndex := 0; Legacy.graph := NewGraph |}
    = inr (root, name, st') ->
  CreateMerkleBranch vbits hashes (Z.of_nat H) = Exited (Return sf root') ->
  current sf = Some 0 ->
  root' = root /\ vbitsIndex sf = Legacy.vbitsIndex st' /\
  Legacy.hashesIndex st' = length hashes.
Proof.
  intros HL HC Hroot.
  destruct (walk_subtree vbits hashes H initialHeight H 0%Z _ root name st' start 0
              (NewBinTree None) ltac:(lia)
              ltac:(rewrite Nat.sub_diag; simpl; lia) HL (Inv_start hashes)
              eq_refl eq_refl eq_refl eq_refl eq_refl ltac:(simpl; lia))
    as (r & Hr & Hm).
  destruct (decide (hashesIndex start = length hashes)) as [Hnone|Hsome].
  - assert (E : iteration vbits hashes (Z.of_nat H) start = inl (Fail start ErrNotFinished)).
    { unfold iteration. destruct (decide (hashesIndex start = length hashes)); [|contradiction].
      reflexivity. }
    rewrite (reachable_exit _ _ _ _ _ (reach_start _ _ _) E) in HC. discriminate.
  - assert (E : iteration vbits hashes (Z.of_nat H) start
                = visit vbits hashes (Z.of_nat H) start).
    { unfold iteration. destruct (decide (hashesIndex start = length hashes)); [contradiction|].
      reflexivity. }
    assert (Hl : leads vbits hashes (Z.of_nat H) (inr start) r).
    { apply leads_turn. rewrite E. exact Hr. }
    pose proof (leads_reachable _ _ _ _ _ Hl start eq_refl (reach_start _ _ _)) as Hend.
    destruct r as [e|t'].
    + rewrite Hend in HC. injection HC as ->.
      destruct (Hm sf root' eq_refl Hroot) as (_ & ? & ? & ?). auto.
    + destruct Hm as (_ & _ & Hcur & _). simpl in Hcur.
      assert (E' : iteration vbits hashes (Z.of_nat H) t' = inl (Panicked NilDereference)).
      { unfold iteration, finish, deref. rewrite Hcur.
        destruct (decide (hashesIndex t' = length hashes)); reflexivity. }
      rewrite (reachable_exit _ _ _ _ _ Hend E') in HC. discriminate.
Qed.

Lemma walks_agree_witness :
  exists root name st' sf,
    Legacy.buildAndDrawPartialTree 1 0
      [true; false; false; false; false; false; false; false]
      [sampleHash Byte.x0a; sampleHash Byte.x0b] 2 1
      {| Legacy.vbitsIndex := 0; Legacy.hashesIndex := 0; Legacy.graph := NewGraph |}
    = inr (root, name, st') /\
    CreateMerkleBranch [true; false; false; false; false; false; false; false]
      [sampleHash Byte.x0a; sampleHash Byte.x0b] 1
    = Exited (Return sf root) /\
    vbitsIndex sf = 3.
Proof.
  assert (HL : exists root name st',
    Legacy.buildAndDrawPartialTree 1 0
      [true; false; false; false; false; false; false; false]
      [sampleHash Byte.x0a; sampleHash Byte.x0b] (2 ^ Z.of_nat 1) 1
      {| Legacy.vbitsIndex := 0; Legacy.hashesIndex := 0; Legacy.graph := NewGraph |}
    = inr (root, name, st') /\ Legacy.vbitsIndex st' = 3)
    by (eexists _, _, _; vm_compute; split; reflexivity).
  assert (HC : exists sf root',
    CreateMerkleBranch [true; false; false; false; false; false; false; false]
      [sampleHash Byte.x0a; sampleHash Byte.x0b] (Z.of_nat 1)
    = Exited (Return sf root') /\ current sf = Some 0)
    by (eexists _, _; vm_compute; split; reflexivity).
  destruct HL as (root & name & st' & HL & Hthree), HC as (sf & root' & HC & Hroot).
  destruct (walks_agree 1 1 _ _ _ _ _ _ _ HL HC Hroot) as (-> & Hv & _).
  exists root, name, st', sf. split; [exact HL|]. split; [exact HC|]. congruence.
Defined.

(** * The program *)

(** X24: what it takes for [main] to print a graph.  The argument is a
    hexadecimal string that decodes to a proof, of at least
    [2 * (86 + 32 * hashes + flag bytes)] digits; the walk over the
    decoded flags and hashes returns a root; the graph is made with one
    [AddNode] of a box for each hash of the proof and with fewer
    [AddNode] than the proof has flag bits; and the line about a
    differing root is printed exactly when the root differs from the one
    in the header, without keeping the graph from being printed.  A run
    never ends for want of turns of the loop. *)
Theorem main_prints (args : list string) :
  main args <> MainOutOfFuel /\
  forall dotString mismatch,
    main args = Printed dotString mismatch ->
    exists prog hexInput decodedBytes blockHeader proofData sf root,
      args = [prog; hexInput] /\
      DecodeString hexInput = inr decodedBytes /\
      decodeTxOutProofData decodedBytes zeroBlockHeader zeroMerkleProofData
        = inr (blockHeader, proofData) /\
      CreateMerkleBranch (VBits proofData) (Hashes proofData)
        (treeHeight (Z.of_N (TotalTransactions proofData))) = Exited (Return sf root) /\
      dotString = BuildGraph (branch sf) /\
      (mismatch = true <-> MerkleRoot blockHeader <> root) /\
      countBoxes dotString = N.to_nat (HashNum proofData) /\
      length (nodes dotString) < 8 * N.to_nat (VBitsNum proofData) /\
      2 * (86 + 32 * N.to_nat (HashNum proofData) + N.to_nat (VBitsNum proofData))
        <= String.length hexInput.
Proof.
  unfold main.
  destruct args as [|prog [|hexInput [|x args]]];
    try (split; [discriminate|intros ? ? ?; discriminate]).
  destruct (DecodeString hexInput) as [e|decodedBytes] eqn:Eh;
    [split; [discriminate|intros ? ? ?; discriminate]|].
  destruct (decodeTxOutProofData decodedBytes zeroBlockHeader zeroMerkleProofData)
    as [e|[blockHeader proofData]] eqn:Ed;
    [split; [discriminate|intros ? ? ?; discriminate]|].
  unfold buildMerkleTreeDot.
  destruct (CreateMerkleBranch_terminates (VBits proofData) (Hashes proofData)
              (treeHeight (Z.of_N (TotalTransactions proofData)))) as [ex Hex].
  rewrite Hex. destruct ex as [sf root|sf e|p];
    try (split; [discriminate|intros ? ? ?; discriminate]).
  split; [discriminate|]. intros dotString mismatch Hp.
  exists prog, hexInput, decodedBytes, blockHeader, proofData, sf, root.
  split; [reflexivity|]. split; [exact Eh|]. split; [exact Ed|].
  split; [exact Hex|].
  injection Hp as <- <-. split; [reflexivity|].
  destruct (BuildGraph_spec (branch sf)) as (_ & _ & Hlen & _ & Hbox & _).
  destruct (success_counts _ _ _ _ _ Hex) as (Hh & Hleaves & Hv & Hlt).
  destruct (decode_success _ _ _ _ _ Ed)
    as (total & count1 & count2 & flagBytes & rest & _ & _ & _ & _ & _ & Hcount & _ & _
        & Hfl & _ & _ & _ & Hsize & Hbits).
  destruct (DecodeString_inr _ _ Eh) as [_ Hhex].
  split.
  { destruct (List.list_eq_dec Byte.byte_eq_dec (MerkleRoot blockHeader) root);
      split; congruence. }
  split; [lia|]. split; [|lia].
  assert (length (VBits proofData) = 8 * N.to_nat (VBitsNum proofData)) as <-; [|lia].
  rewrite Hbits. destruct (0 <? VBitsNum proofData)%N eqn:E.
  - change (VBits zeroMerkleProofData) with (@nil bool).
    rewrite unpackBits_length. lia.
  - apply N.ltb_ge in E. simpl. lia.
Qed.

Lemma main_prints_witness :
  exists dotString,
    main ["txoutproof"; EncodeToString sampleProof]%string = Printed dotString true /\
    countBoxes dotString = 2.
Proof.
  assert (H : exists dotString,
            main ["txoutproof"; EncodeToString sampleProof]%string = Printed dotString true)
    by (eexists; vm_compute; reflexivity).
  destruct H as (dotString & H). exists dotString. split; [exact H|].
  destruct (main_prints ["txoutproof"; EncodeToString sampleProof]%string) as [_ Hp].
  destruct (Hp _ _ H)
    as (prog & hexInput & decodedBytes & blockHeader & proofData & sf & root
        & Hargs & Hhex & Hdec & _ & _ & _ & Hboxes & _).
  assert (hexInput = EncodeToString sampleProof) as -> by congruence.
  pose proof (DecodeString_EncodeToString sampleProof) as Hs.
  rewrite Hs in Hhex.
  injection Hhex as <-. rewrite sampleProof_decodes in Hdec. injection Hdec as _ <-.
  exact Hboxes.
Defined.

(** * The whole run *)

Section Run.
Context (vbits : list bool) (hashes : list (list byte)) (height : Z).

Lemma loop_leads fuel s e :
  loop fuel vbits hashes height s = Exited e ->
  leads vbits hashes height (inr s) (inl e).
Proof.
  revert s. induction fuel as [|fuel IH]; intros s; simpl; [discriminate|].
  destruct (iteration vbits hashes height s) as [e'|s'] eqn:Hit.
  - intros [= <-]. apply leads_turn. rewrite Hit. apply leads_here.
  - intros H. apply leads_turn. rewrite Hit. apply IH. exact H.
Qed.

(** Every state the loop passes through leads to the way the call
    leaves. *)
Lemma reachable_leads s e :
  reachable vbits hashes height s ->
  CreateMerkleBranch vbits hashes height = Exited e ->
  leads vbits hashes height (inr s) (inl e).
Proof.
  intros Hr He. destruct (reachable_loop _ _ _ _ Hr) as [k Hk].
  apply (loop_leads (turns vbits)). rewrite <- Hk, Nat.add_comm.
  apply loop_more. exact He.
Qed.

(** A hash that is set stays as it is until the call returns. *)
Lemma leads_writeOnce x r :
  leads vbits hashes height x r ->
  forall s sf root, x = inr s -> r = inl (Return sf root) ->
    reachable vbits hashes height s -> writeOnce s sf.
Proof.
  induction 1 as [r|s r Hl IH]; intros s0 sf root E Er Hr.
  - subst. discriminate.
  - injection E as <-. destruct (reachable_Inv _ _ _ _ Hr) as [HI HF].
    destruct (iteration vbits hashes height s) as [e|s1] eqn:Hit.
    + apply leads_inl in Hl. rewrite Hl in Er. injection Er as ->.
      eapply hashes_step; eauto. rewrite Hit. reflexivity.
    + eapply writeOnce_trans.
      * eapply hashes_step; eauto. rewrite Hit. reflexivity.
      * eapply IH; eauto. eapply reach_turn; eauto.
Qed.

Lemma set_hash_stays s sf root :
  reachable vbits hashes height s ->
  CreateMerkleBranch vbits hashes height = Exited (Return sf root) ->
  writeOnce s sf.
Proof.
  intros Hr He. eapply leads_writeOnce; eauto using reachable_leads.
Qed.

End Run.

(** C3 (the code fails it): on the proof of C2 the call returns a root,
    and the root of the tree, a node with both children, is never given a
    hash: it has none in any state the loop passes through and none in
    the tree the call leaves, in which every other node has one.
    [BuildGraph] then names that node after an empty hash. *)
Theorem root_hash_never_set (x y z : list byte) :
  (forall s,
     reachable [true; false; true; true; false; false; false; false] [x; y; z] 2 s ->
     hashOf (binTree (branch s)) 0 = None) /\
  exists sf,
    CreateMerkleBranch [true; false; true; true; false; false; false; false] [x; y; z] 2
      = Exited (Return sf (doubleSha256 (y ++ z))) /\
    binTree (branch sf) !! 0
      = Some {| Hash := None; Parent := None; Left := Some 1; Right := Some 2 |} /\
    length (binTree (branch sf)) = 5 /\
    (forall i, 1 <= i < 5 -> is_Some (hashOf (binTree (branch sf)) i)) /\
    nodeIDs (BuildGraph (branch sf)) !! 0 = Some "node_"%string.
Proof.
  assert (H : exists sf,
    CreateMerkleBranch [true; false; true; true; false; false; false; false] [x; y; z] 2
      = Exited (Return sf (doubleSha256 (y ++ z))) /\
    binTree (branch sf)
      = [ {| Hash := None; Parent := None; Left := Some 1; Right := Some 2 |};
          {| Hash := Some x; Parent := Some 0; Left := None; Right := None |};
          {| Hash := Some (doubleSha256 (y ++ z)); Parent := Some 0;
             Left := Some 3; Right := Some 4 |};
          {| Hash := Some y; Parent := Some 2; Left := None; Right := None |};
          {| Hash := Some z; Parent := Some 2; Left := None; Right := None |} ]).
  { eexists. split; lazy -[doubleSha256]; reflexivity. }
  destruct H as (sf & Hret & Hbt). split.
  - intros s Hr. destruct (hashOf (binTree (branch s)) 0) as [h|] eqn:Hh; [|reflexivity].
    pose proof (set_hash_stays _ _ _ _ _ _ Hr Hret 0 h Hh) as Hend.
    rewrite Hbt in Hend. discriminate.
  - exists sf. split; [exact Hret|]. rewrite Hbt. split; [reflexivity|].
    split; [reflexivity|]. split.
    + intros i Hi.
      destruct i as [|[|[|[|[|i]]]]]; try lia; unfold hashOf; simpl; eauto.
    + unfold BuildGraph. rewrite Hbt. reflexivity.
Qed.

(** * Flags that are not read *)

Section Unread.
Context (vbits vbits' : list bool) (hashes : list (list byte)) (height : Z).

Lemma visit_agree t s1 :
  visit vbits hashes height t = inr s1 ->
  vbits' !! vbitsIndex t = vbits !! vbitsIndex t ->
  S (vbitsIndex t) < length vbits' ->
  visit vbits' hashes height t = inr s1.
Proof.
  intros Hv Hsame Hlen. apply visit_inr in Hv as (s' & Hs' & -> & _).
  assert (E : visitNode vbits' hashes height t = inr s').
  { rewrite <- Hs'. unfold visitNode. rewrite Hsame. reflexivity. }
  unfold visit. rewrite E. simpl. unfold nextFlag.
  apply visitNode_inr in Hs' as (_ & _ & _ & _ & _ & _ & Hidx & _).
  simpl. rewrite Hidx. case_decide; [lia|reflexivity].
Qed.

Lemma iteration_vbitsIndex s s' :
  iteration vbits hashes height s = inr s' ->
  vbitsIndex s' = vbitsIndex s \/
  (vbitsIndex s' = S (vbitsIndex s) /\
   (visit vbits hashes height s = inr s' \/
    exists c, visit vbits hashes height (goRight s c) = inr s')).
Proof.
  intros Hit. apply iteration_inr in Hit as (_ & c & n & Hc & Hn & Hcase).
  destruct Hcase as [(l & r & HL & HR & Hg)|[(l & HL & HR & Hv)|(HL & Hv)]].
  - apply (goUp_inr _ _ _ _ _ _ Hn) in Hg as (m' & _ & _ & -> & _). left. reflexivity.
  - right. split; [|right; eauto].
    apply visit_inr in Hv as (s1 & Hs1 & -> & _).
    apply visitNode_inr in Hs1 as (? & ? & ? & _ & _ & _ & Hidx & _).
    simpl in *. lia.
  - right. split; [|left; exact Hv].
    apply visit_inr in Hv as (s1 & Hs1 & -> & _).
    apply visitNode_inr in Hs1 as (? & ? & ? & _ & _ & _ & Hidx & _).
    simpl in *. lia.
Qed.

Lemma iteration_agree s s1 :
  iteration vbits hashes height s = inr s1 ->
  (forall i, i < vbitsIndex s1 -> vbits' !! i = vbits !! i) ->
  vbitsIndex s1 < length vbits' ->
  iteration vbits' hashes height s = inr s1.
Proof.
  intros Hit Hsame Hlen.
  destruct (iteration_vbitsIndex _ _ Hit) as [Hidx|[Hidx Hvis]].
  - (* no flag was read: the turn went up *)
    pose proof Hit as Hit'.
    apply iteration_inr in Hit' as (Hne & c & n & Hc & Hn & Hcase).
    destruct Hcase as [(l & r & HL & HR & Hg)|[(l & HL & HR & Hv)|(HL & Hv)]].
    + unfold iteration. case_decide; [contradiction|].
      unfold deref. rewrite Hc, Hn. simpl. rewrite HL, HR. exact Hg.
    + apply visit_inr in Hv as (s' & Hs' & -> & _).
      apply visitNode_inr in Hs' as (? & ? & ? & _ & _ & _ & Hi & _).
      simpl in *. lia.
    + apply visit_inr in Hv as (s' & Hs' & -> & _).
      apply visitNode_inr in Hs' as (? & ? & ? & _ & _ & _ & Hi & _).
      simpl in *. lia.
  - pose proof Hit as Hit'.
    apply iteration_inr in Hit' as (Hne & c & n & Hc & Hn & Hcase).
    destruct Hcase as [(l & r & HL & HR & Hg)|[(l & HL & HR & Hv)|(HL & Hv)]].
    + apply (goUp_inr _ _ _ _ _ _ Hn) in Hg as (m' & _ & _ & Hi & _). lia.
    + unfold iteration. case_decide; [contradiction|].
      unfold deref. rewrite Hc, Hn. simpl. rewrite HL, HR.
      apply visit_agree; [exact Hv| |].
      * apply Hsame. simpl. lia.
      * simpl. lia.
    + unfold iteration. case_decide; [contradiction|].
      unfold deref. rewrite Hc, Hn. simpl. rewrite HL.
      assert (Hgoal : visit vbits' hashes height s = inr s1).
      { apply visit_agree; [exact Hv| |]; [apply Hsame; lia|lia]. }
      destruct (Right n); exact Hgoal.
Qed.

Lemma leads_agree x r :
  leads vbits hashes height x r ->
  forall s sf root, x = inr s -> r = inl (Return sf root) ->
    reachable vbits hashes height s ->
    (forall i, i < vbitsIndex sf -> vbits' !! i = vbits !! i) ->
    vbitsIndex sf < length vbits' ->
    leads vbits' hashes height (inr s) (inl (Return sf root)) /\
    vbitsIndex s <= vbitsIndex sf.
Proof.
  induction 1 as [r|s r Hl IH]; intros s0 sf root E Er Hr Hsame Hlen.
  - subst. discriminate.
  - injection E as <-. destruct (reachable_Inv _ _ _ _ Hr) as [HI HF].
    destruct (iteration vbits hashes height s) as [e|s1] eqn:Hit.
    + apply leads_inl in Hl. rewrite Hl in Er. injection Er as ->.
      destruct (head_Return _ _ _ _ _ _ HI HF Hit) as (Hh & _ & _ & _ & _ & _ & _ &
        _ & _ & _ & _ & _ & _ & _ & _ & Hv).
      split; [|lia]. apply leads_turn.
      replace (iteration vbits' hashes height s) with (iteration vbits hashes height s).
      * rewrite Hit. apply leads_here.
      * unfold iteration. case_decide; [reflexivity|contradiction].
    + destruct (IH s1 sf root eq_refl Er (reach_turn _ _ _ _ _ Hr Hit) Hsame Hlen)
        as [Hl' Hle].
      assert (Hmono : vbitsIndex s <= vbitsIndex s1).
      { destruct (iteration_vbitsIndex _ _ Hit) as [->|[-> _]]; lia. }
      split; [|lia]. apply leads_turn.
      rewrite (iteration_agree _ _ Hit); [exact Hl'| |lia].
      intros i Hi. apply Hsame. lia.
Qed.

End Unread.

(** The flags a call has not read can be any flags, as long as there is
    one. *)
Lemma unread_flags_free vbits vbits' hashes height sf root :
  CreateMerkleBranch vbits hashes height = Exited (Return sf root) ->
  take (vbitsIndex sf) vbits' = take (vbitsIndex sf) vbits ->
  vbitsIndex sf < length vbits' ->
  CreateMerkleBranch vbits' hashes height = Exited (Return sf root).
Proof.
  intros He Htake Hlen.
  pose proof (reachable_leads _ _ _ _ _ (reach_start _ _ _) He) as Hl.
  destruct (leads_agree vbits vbits' hashes height _ _ Hl start sf root eq_refl eq_refl
              (reach_start _ _ _)) as [Hl' _].
  - intros i Hi. apply (same_before (vbitsIndex sf)); [exact Htake|exact Hi].
  - exact Hlen.
  - exact (leads_reachable _ _ _ _ _ Hl' start eq_refl (reach_start _ _ _)).
Qed.

(** * Finished trees *)

(** A finished tree has an odd number of nodes. *)
Lemma finished_odd bt :
  wellFormed bt -> length bt = 1 + countPointers bt -> finished bt ->
  length bt + 1 = 2 * countLeaves bt.
Proof.
  intros Hwf Hcount Hfin.
  assert (H1 : Forall (fun n => Right n = None \/ is_Some (Left n)) bt).
  { apply Forall_lookup. intros i n Hi. destruct (Right n) as [r|] eqn:HR; [|auto].
    right. apply (wf_right _ Hwf _ _ _ Hi HR). }
  assert (H2 : Forall (fun n => Left n = None \/ is_Some (Right n)) bt).
  { apply Forall_lookup. intros i n Hi. specialize (Hfin i n Hi).
    destruct (Left n), (Right n); try contradiction; eauto. }
  destruct (countPointers_leaves bt H1) as (_ & _ & H3). specialize (H3 H2). lia.
Qed.

Section Finished.
Context (vbits : list bool) (hashes : list (list byte)) (height : Z).

(** With a finished tree the walk has read as many flags as there are
    nodes. *)
Lemma finished_read s :
  Inv hashes s -> finished (binTree (branch s)) ->
  length (binTree (branch s)) = vbitsIndex s.
Proof.
  intros HI Hfin. destruct (current s) as [c|] eqn:Hc.
  - destruct (Inv_current_node _ _ _ HI Hc) as (n & Hn & HH & Hok).
    specialize (Hfin c n Hn). unfold currentOK in Hok.
    destruct (Left n), (Right n); try contradiction.
    + destruct Hok as (_ & _ & Hlen). exact Hlen.
    + rewrite HH in Hfin. destruct Hfin as [? ?]. discriminate.
  - apply (inv_nil _ _ HI Hc).
Qed.

Lemma reachable_counted s : reachable vbits hashes height s -> counted s.
Proof.
  apply (J_reachable vbits hashes height counted);
    auto using count_leaf, count_left, count_right, count_fold.
  reflexivity.
Qed.

Lemma finished_flags_odd s :
  reachable vbits hashes height s -> finished (binTree (branch s)) ->
  vbitsIndex s + 1 = 2 * countLeaves (binTree (branch s)).
Proof.
  intros Hr Hfin. destruct (reachable_Inv _ _ _ _ Hr) as [HI _].
  rewrite <- (finished_read s HI Hfin).
  apply finished_odd; [eapply wf_reachable; eauto| |exact Hfin].
  apply (reachable_counted s Hr).
Qed.

Lemma flag_error_unfinished sf expected got k :
  CreateMerkleBranch vbits hashes height
    = Exited (Fail sf (ErrVBitsTooShort expected got)) ->
  length vbits = 2 * k ->
  got = length vbits /\ ~ finished (binTree (branch sf)).
Proof.
  intros H Heven.
  pose proof (wf_exit vbits hashes height sf (or_intror (ex_intro _ _ H))) as Hwf.
  pose proof (count_exit vbits hashes height sf (or_intror (ex_intro _ _ H))) as Hcount.
  apply CreateMerkleBranch_last in H as (s & _ & HI & HF & Hit).
  destruct (iteration_inl _ _ _ _ _ HI HF Hit)
    as [[_ Hf]|(_ & [[_ ?]|[(_ & _ & ?)|(sf' & He & HIf & Hv & Hlen)]])]; try discriminate.
  { apply (finish_Fail _ _ _ _ HI) in Hf as [_ ?]. discriminate. }
  injection He as <- -> ->. split; [exact Hlen|]. intros Hfin.
  pose proof (finished_read sf HIf Hfin) as Hread.
  pose proof (finished_odd _ Hwf Hcount Hfin) as Hodd. lia.
Qed.

End Finished.

(** C4: for flags unpacked from flag bytes.  When the call returns a
    root it has read every hash, one for each leaf it made, and one flag
    for each node it made; at least one of the [8 * F] flags is left, and
    the flags it has not read are ignored: any flags in their place, one
    at least, give the same return.  No state of the walk has a finished
    tree with all [8 * F] flags read, since a finished tree has an odd
    number of nodes; and when the call reports too few flags, all of them
    read, the tree is not finished.  So no whole proof is turned down for
    having used exactly its flags. *)
Theorem flags_and_hashes_consumed (flagBytes : list byte) (hashes : list (list byte))
    (height : Z) :
  (forall sf root,
     CreateMerkleBranch (unpackBits [] flagBytes) hashes height = Exited (Return sf root) ->
     hashesIndex sf = length hashes /\
     countLeaves (binTree (branch sf)) = length hashes /\
     vbitsIndex sf = length (binTree (branch sf)) /\
     vbitsIndex sf < 8 * length flagBytes /\
     forall vbits',
       take (vbitsIndex sf) vbits' = take (vbitsIndex sf) (unpackBits [] flagBytes) ->
       vbitsIndex sf < length vbits' ->
       CreateMerkleBranch vbits' hashes height = Exited (Return sf root)) /\
  (forall s,
     reachable (unpackBits [] flagBytes) hashes height s ->
     finished (binTree (branch s)) -> vbitsIndex s <> 8 * length flagBytes) /\
  (forall sf expected got,
     CreateMerkleBranch (unpackBits [] flagBytes) hashes height
       = Exited (Fail sf (ErrVBitsTooShort expected got)) ->
     got = 8 * length flagBytes /\ ~ finished (binTree (branch sf))).
Proof.
  split; [|split].
  - intros sf root H.
    destruct (success_counts _ _ _ _ _ H) as (Hh & Hl & Hv & Hlt).
    rewrite unpackBits_length in Hlt.
    split; [exact Hh|]. split; [congruence|]. split; [exact Hv|]. split; [exact Hlt|].
    intros vbits' Htake Hlen. eapply unread_flags_free; eauto.
  - intros s Hr Hfin Hall.
    pose proof (finished_flags_odd _ _ _ s Hr Hfin). lia.
  - intros sf expected got H.
    destruct (flag_error_unfinished _ _ _ _ _ _ (4 * length flagBytes) H) as [Hg Hn].
    + rewrite unpackBits_length. lia.
    + rewrite unpackBits_length in Hg. auto.
Qed.

Lemma flags_and_hashes_consumed_witness :
  (exists sf root,
     CreateMerkleBranch (unpackBits [] [Byte.x01])
       [sampleHash Byte.x0a; sampleHash Byte.x0b] 1 = Exited (Return sf root) /\
     hashesIndex sf = 2 /\ countLeaves (binTree (branch sf)) = 2 /\ vbitsIndex sf = 3 /\
     CreateMerkleBranch [true; false; false; true; true]
       [sampleHash Byte.x0a; sampleHash Byte.x0b] 1 = Exited (Return sf root)) /\
  (exists sf,
     CreateMerkleBranch (unpackBits [] [Byte.x3f])
       [sampleHash Byte.x0a; sampleHash Byte.x0b] 6
       = Exited (Fail sf (ErrVBitsTooShort 8 8)) /\
     ~ finished (binTree (branch sf))).
Proof.
  split.
  - assert (H : exists sf root,
      CreateMerkleBranch (unpackBits [] [Byte.x01])
        [sampleHash Byte.x0a; sampleHash Byte.x0b] 1 = Exited (Return sf root) /\
      vbitsIndex sf = 3) by (eexists _, _; vm_compute; split; reflexivity).
    destruct H as (sf & root & H & H3). exists sf, root.
    destruct (flags_and_hashes_consumed [Byte.x01]
                [sampleHash Byte.x0a; sampleHash Byte.x0b] 1) as (Hok & _ & _).
    destruct (Hok sf root H) as (Hh & Hl & Hv & _ & Hany).
    split; [exact H|]. split; [exact Hh|]. split; [exact Hl|]. split; [exact H3|].
    apply Hany; rewrite H3; [reflexivity|simpl; lia].
  - assert (H : exists sf,
      CreateMerkleBranch (unpackBits [] [Byte.x3f])
        [sampleHash Byte.x0a; sampleHash Byte.x0b] 6
      = Exited (Fail sf (ErrVBitsTooShort 8 8))) by (eexists; vm_compute; reflexivity).
    destruct H as (sf & H). exists sf. split; [exact H|].
    destruct (flags_and_hashes_consumed [Byte.x3f]
                [sampleHash Byte.x0a; sampleHash Byte.x0b] 6) as (_ & _ & Hfail).
    destruct (Hfail sf 8 8 H) as [_ Hn]. exact Hn.
Defined.

(** * A single hash *)

Section OneHash.
Context (vbits : list bool) (hashes : list (list byte)) (height : Z).
Hypothesis one_hash : length hashes = 1.



End OneHash.



